(** * WAL broadcast proxy and WAL re-streamer (src/bin/safekeeper)

    A shallow embedding of [utils.c], [safekeeper_proxy.c] and the send
    loop of [walsender.c].  Integers of the C code are kept as [Z] with
    the width of their C type written out where it matters; bytes are
    [Z] values below 256; the proxy's file-scope variables are collected
    in one record that every handler receives and returns. *)

From Stdlib Require Import ZArith List Bool Lia Ascii.
From Stdlib Require String.
From Stdlib Require Import Sorting.Sorted Sorting.Permutation.
Import ListNotations.

Local Open Scope list_scope.
Local Open Scope Z_scope.

(* ================================================================== *)
(** * Machine integers and wire encoding *)
(* ================================================================== *)

Definition uint32 (z : Z) : Z := z mod 2 ^ 32.
Definition uint64 (z : Z) : Z := z mod 2 ^ 64.

(** [fe_sendint64]: eight bytes, most significant first. *)
Fixpoint be_bytes (n : nat) (v : Z) : list Z :=
  match n with
  | O => []
  | S n' => (v / 256 ^ Z.of_nat n') mod 256 :: be_bytes n' v
  end.

Definition fe_sendint64 (v : Z) : list Z := be_bytes 8 v.

(** [fe_recvint64]: the inverse reading, over the first eight bytes. *)
Definition be_value (bs : list Z) : Z :=
  fold_left (fun acc b => acc * 256 + b) bs 0.

Definition fe_recvint64 (buf : list Z) : Z := be_value (firstn 8 buf).

(** Overwrite [buf] from offset [offs] on with [src] (a [memcpy] into the
    middle of a buffer that is long enough). *)
Definition poke (buf : list Z) (offs : nat) (src : list Z) : list Z :=
  firstn offs buf ++ src ++ skipn (offs + length src) buf.

(** In-memory image of a [uint64] field on the host.  The proxy reads the
    acknowledgement straight into the field, so the byte order of the host
    decides what a partly filled field holds. *)
Definition host_bytes (big_endian : bool) (v : Z) : list Z :=
  if big_endian then be_bytes 8 v else rev (be_bytes 8 v).

Definition host_value (big_endian : bool) (bs : list Z) : Z :=
  if big_endian then be_value bs else be_value (rev bs).

(* ================================================================== *)
(** * utils.c *)
(* ================================================================== *)

Record NodeId := mkNodeId {
  term : Z;            (* uint64 *)
  uuid : list Z        (* pg_uuid_t: 16 bytes *)
}.

Definition sizeof_pg_uuid_t : nat := 16.
Definition sizeof_NodeId : Z := 24.

(** [memcmp] over the first [n] bytes, reduced to the sign of its
    result (the C standard fixes nothing else). *)
Fixpoint memcmp (a b : list Z) (n : nat) : Z :=
  match n, a, b with
  | S n', x :: a', y :: b' =>
      if x <? y then -1 else if y <? x then 1 else memcmp a' b' n'
  | _, _, _ => 0
  end.

(** [CompareNodeId], utils.c lines 7-15.  The third branch hands
    [&id1->uuid] to [memcmp] twice, exactly as the source does. *)
Definition CompareNodeId (id1 id2 : NodeId) : Z :=
  if term id1 <? term id2 then -1
  else if term id1 >? term id2 then 1
  else memcmp (uuid id1) (uuid id1) sizeof_pg_uuid_t.

(** The order on node identifiers as the specification words it: the
    term first, then the two identifiers' UUIDs byte by byte. *)
Definition NodeId_order_spec (id1 id2 : NodeId) : Z :=
  if term id1 <? term id2 then -1
  else if term id1 >? term id2 then 1
  else memcmp (uuid id1) (uuid id2) sizeof_pg_uuid_t.

(** [CompareLsn], utils.c lines 289-301: the greater LSN sorts first. *)
Definition CompareLsn (lsn1 lsn2 : Z) : Z :=
  if lsn1 >? lsn2 then -1
  else if lsn1 =? lsn2 then 0
  else 1.

(** [qsort] through its comparator.  The C library leaves the algorithm
    open; on integers every algorithm yields the same array, so a
    straight insertion sort driven by the comparator stands for it. *)
Fixpoint qsort_insert (cmp : Z -> Z -> Z) (x : Z) (l : list Z) : list Z :=
  match l with
  | [] => [x]
  | y :: l' => if cmp x y <=? 0 then x :: l else y :: qsort_insert cmp x l'
  end.

Definition qsort (cmp : Z -> Z -> Z) (l : list Z) : list Z :=
  fold_right (qsort_insert cmp) [] l.

(** Outcome of [ReadSocketAsync] on what the socket has to offer:
    [avail] are the bytes [recv] hands over before it either blocks
    ([err = false]) or fails ([err = true]).  The function returns the
    count (or -1) and has by then copied the bytes into the caller's
    buffer, also when it ends in an error. *)
Record Recv := mkRecv { avail : list Z; err : bool }.

Definition ReadSocketAsync (size : nat) (r : Recv) : Z * list Z :=
  if (size <=? length (avail r))%nat
  then (Z.of_nat size, firstn size (avail r))
  else if err r then (-1, avail r)
  else (Z.of_nat (length (avail r)), avail r).

(* ================================================================== *)
(** * walsender.c: the send loop *)
(* ================================================================== *)

(** [XLogSegmentOffset].
    Modelled from the spec: access/xlog_internal.h is not among the
    sources; the specification gives "Segment offset = LSN mod segSize". *)
Definition XLogSegmentOffset (xlogptr segsz : Z) : Z := xlogptr mod segsz.

(** walsender.c line 304:
    [sendSize = Min((uint32)(flushLsn - startpos), MAX_SEND_SIZE)].
    [MAX_SEND_SIZE] comes from safekeeper.h, which is not among the
    sources, and stays a parameter. *)
Definition sendSize (MAX_SEND_SIZE flushLsn startpos : Z) : Z :=
  Z.min (uint32 (uint64 (flushLsn - startpos))) MAX_SEND_SIZE.

(* ================================================================== *)
(** * safekeeper_proxy.c: data *)
(* ================================================================== *)

Inductive SafekeeperState :=
| SS_OFFLINE | SS_CONNECTING | SS_HANDSHAKE | SS_VOTE
| SS_WAIT_VERDICT | SS_IDLE | SS_SEND_WAL | SS_RECV_ACK.

Definition SafekeeperState_eqb (a b : SafekeeperState) : bool :=
  match a, b with
  | SS_OFFLINE, SS_OFFLINE | SS_CONNECTING, SS_CONNECTING
  | SS_HANDSHAKE, SS_HANDSHAKE | SS_VOTE, SS_VOTE
  | SS_WAIT_VERDICT, SS_WAIT_VERDICT | SS_IDLE, SS_IDLE
  | SS_SEND_WAL, SS_SEND_WAL | SS_RECV_ACK, SS_RECV_ACK => true
  | _, _ => false
  end.

Record ServerInfo := mkServerInfo {
  protocolVersion : Z;
  pgVersion : Z;
  walSegSize : Z;
  timeline : Z;
  nodeId : NodeId;
  walEnd : Z
}.

(** A queued message.  [addr] stands for the address [pg_malloc] returned:
    the sessions refer to a message through it ([currMsg]). *)
Record WalMessage := mkWalMessage {
  addr : nat;
  data : list Z;
  size : Z;
  walPos : Z;
  ackMask : Z
}.

(** One entry of [safekeeper[]].  [sock] tells whether the field is other
    than [PGINVALID_SOCKET]; [inWriteSet] whether [FD_ISSET] finds its
    number in [writeSet]; [info] is the [info.server] part of the
    handshake record; [currMsg] is the pointer field, [None] for NULL.
    The sets of the source are indexed by descriptor number; the two
    flags, kept per session, say the same as long as no two sessions
    hold the same number.  The numbers themselves are not part of the
    state, and with them two situations the source can get into: a
    descriptor that stays in [readSet] without a session (the recursive
    call of line 127 finds the session offline and does not close the
    socket whose write failed), and one number held by two sessions
    (after [ConnectSocketAsync] has returned the number of a descriptor
    it had closed, which the system may hand out again). *)
Record Safekeeper := mkSafekeeper {
  sock : bool;
  inWriteSet : bool;
  state : SafekeeperState;
  asyncOffs : Z;
  info : ServerInfo;
  ackPos : Z;
  currMsg : option nat
}.

(** The file-scope variables of the proxy together with the locals of
    [BroadcastWalStream].  [n_safekeepers] is the length of [safekeeper];
    the queue is the chain from [msgQueueHead]; [serverInReadSet] is the
    membership of the primary's socket in [readSet]; [nextAddr] numbers
    the allocations. *)
Record ProxyState := mkProxy {
  quorum : Z;
  safekeeper : list Safekeeper;
  lastAckPos : Z;
  msgQueue : list WalMessage;
  serverInfo : ServerInfo;
  serverInReadSet : bool;
  streaming : bool;
  n_votes : Z;
  n_connected : Z;
  maxNodeId : NodeId;
  nextAddr : nat
}.

Definition n_safekeepers (s : ProxyState) : Z :=
  Z.of_nat (length (safekeeper s)).

Definition with_safekeeper (l : list Safekeeper) (s : ProxyState) :=
  mkProxy (quorum s) l (lastAckPos s) (msgQueue s) (serverInfo s)
          (serverInReadSet s) (streaming s) (n_votes s) (n_connected s)
          (maxNodeId s) (nextAddr s).

Definition with_lastAckPos (v : Z) (s : ProxyState) :=
  mkProxy (quorum s) (safekeeper s) v (msgQueue s) (serverInfo s)
          (serverInReadSet s) (streaming s) (n_votes s) (n_connected s)
          (maxNodeId s) (nextAddr s).

Definition with_msgQueue (q : list WalMessage) (s : ProxyState) :=
  mkProxy (quorum s) (safekeeper s) (lastAckPos s) q (serverInfo s)
          (serverInReadSet s) (streaming s) (n_votes s) (n_connected s)
          (maxNodeId s) (nextAddr s).

Definition with_server (inset str : bool) (s : ProxyState) :=
  mkProxy (quorum s) (safekeeper s) (lastAckPos s) (msgQueue s)
          (serverInfo s) inset str (n_votes s) (n_connected s)
          (maxNodeId s) (nextAddr s).

Definition with_votes (v : Z) (s : ProxyState) :=
  mkProxy (quorum s) (safekeeper s) (lastAckPos s) (msgQueue s)
          (serverInfo s) (serverInReadSet s) (streaming s) v
          (n_connected s) (maxNodeId s) (nextAddr s).

Definition with_connected (c : Z) (m : NodeId) (s : ProxyState) :=
  mkProxy (quorum s) (safekeeper s) (lastAckPos s) (msgQueue s)
          (serverInfo s) (serverInReadSet s) (streaming s) (n_votes s)
          c m (nextAddr s).

Definition with_nextAddr (a : nat) (s : ProxyState) :=
  mkProxy (quorum s) (safekeeper s) (lastAckPos s) (msgQueue s)
          (serverInfo s) (serverInReadSet s) (streaming s) (n_votes s)
          (n_connected s) (maxNodeId s) a.

Fixpoint replace_nth {A} (i : nat) (x : A) (l : list A) : list A :=
  match l, i with
  | [], _ => []
  | _ :: l', O => x :: l'
  | y :: l', S i' => y :: replace_nth i' x l'
  end.

Definition put_safekeeper (i : nat) (sk : Safekeeper) (s : ProxyState) :=
  with_safekeeper (replace_nth i sk (safekeeper s)) s.

(** What the proxy sends to the primary: a call of [SendFeedback] with
    the position passed and the buffer built from it, or the
    START_REPLICATION command. *)
Inductive Output :=
| SentFeedback (blockpos : Z) (frame : list Z)
| SentStartReplication (startpos tli : Z).

(** How a run of the proxy stands after a handler: still in the loop,
    left through [exit] or the end of [main], or stopped by a null or
    dangling [currMsg] being dereferenced. *)
Inductive Outcome :=
| Running (s : ProxyState)
| Exit (code : Z)
| Fault.

(** What a connection attempt inside [ResetConnection] comes to, as the
    function sees it through the value of [ConnectSocketAsync] and its
    local [established]: [ConnRefused], the value is [PGINVALID_SOCKET];
    [ConnPending], a descriptor number comes back and [established]
    reads as false; [ConnEstablished], it reads as true and the
    [ServerInfo] is written; [ConnWriteFailed], it reads as true and the
    write fails.  When [ConnectSocketAsync] returns the number of a
    descriptor it has closed, without writing [established], the
    attempt is [ConnPending] or [ConnWriteFailed] according to what the
    uninitialised local holds. *)
Inductive Connect :=
| ConnRefused                       (* no socket *)
| ConnPending                       (* socket, not yet established *)
| ConnEstablished                   (* established and ServerInfo written *)
| ConnWriteFailed (again : Connect) (* established, write failed: recursive call *).

(** The answers of the operating system and of libpq during one handler. *)
Record Env := mkEnv {
  rd : Recv;                  (* what ReadSocketAsync finds on the socket *)
  rd_info : ServerInfo;       (* the record those bytes spell once complete *)
  so_error : bool;            (* getsockopt fails or reports SO_ERROR <> 0 *)
  wr_ok : nat -> bool;        (* WriteSocket to peer j succeeds *)
  wr_rc : nat -> Z;           (* WriteSocketAsync to peer j: bytes taken, < 0 on error *)
  reconnect : nat -> Connect;
  repl_ok : bool;             (* START_REPLICATION answered PGRES_COPY_BOTH *)
  fb_ok : bool;               (* PQputCopyData and PQflush succeed *)
  now : Z                     (* feGetCurrentTimestamp *)
}.

Inductive Ready :=
| Readable (e : Env)
| Writable (e : Env).

(** One pass of the [while] loop of [BroadcastWalStream]: what [select]
    reports. *)
Inductive Event :=
| SelectFailed
| ServerReadable (copybuf : option (list Z)) (e : Env)
| PeersReady (ready : nat -> option Ready).

(* ================================================================== *)
(** * safekeeper_proxy.c: operations *)
(* ================================================================== *)

(** Constants and layout facts of safekeeper.h and of the host, none of
    which is among the sources; they stay parameters of the model. *)
Record Constants := mkConstants {
  XLOG_HDR_SIZE : Z;
  XLOG_HDR_START_POS : nat;
  XLOG_HDR_END_POS : nat;
  sizeof_info : Z;             (* sizeof(safekeeper[i].info) *)
  SK_PROTOCOL_VERSION : Z;
  big_endian : bool            (* byte order of the host *)
}.

Definition InvalidXLogRecPtr : Z := 0.

(** [SendFeedback], lines 53-80: the reply buffer handed to
    [PQputCopyData]. *)
Definition SendFeedback (blockpos now_ : Z) (replyRequested : bool) : list Z :=
  [114] ++ fe_sendint64 blockpos ++ fe_sendint64 blockpos
        ++ fe_sendint64 InvalidXLogRecPtr ++ fe_sendint64 now_
        ++ [if replyRequested then 1 else 0].

Definition set_state (st : SafekeeperState) (sk : Safekeeper) :=
  mkSafekeeper (sock sk) (inWriteSet sk) st (asyncOffs sk) (info sk)
               (ackPos sk) (currMsg sk).

Definition set_asyncOffs (o : Z) (sk : Safekeeper) :=
  mkSafekeeper (sock sk) (inWriteSet sk) (state sk) o (info sk)
               (ackPos sk) (currMsg sk).

Definition set_sock (b : bool) (sk : Safekeeper) :=
  mkSafekeeper b (inWriteSet sk) (state sk) (asyncOffs sk) (info sk)
               (ackPos sk) (currMsg sk).

Definition set_inWriteSet (b : bool) (sk : Safekeeper) :=
  mkSafekeeper (sock sk) b (state sk) (asyncOffs sk) (info sk)
               (ackPos sk) (currMsg sk).

Definition set_info (x : ServerInfo) (sk : Safekeeper) :=
  mkSafekeeper (sock sk) (inWriteSet sk) (state sk) (asyncOffs sk) x
               (ackPos sk) (currMsg sk).

Definition set_ackPos (v : Z) (sk : Safekeeper) :=
  mkSafekeeper (sock sk) (inWriteSet sk) (state sk) (asyncOffs sk) (info sk)
               v (currMsg sk).

Definition set_nodeId (n : NodeId) (x : ServerInfo) :=
  mkServerInfo (protocolVersion x) (pgVersion x) (walSegSize x) (timeline x)
               n (walEnd x).

Definition set_ackMask (v : Z) (m : WalMessage) :=
  mkWalMessage (addr m) (data m) (size m) (walPos m) v.

(** [ResetConnection], lines 87-135, on the session it is called for.
    The recursive call of line 127 meets the state [SS_OFFLINE] that the
    outer call has set (or found), so it skips the closing block and
    goes on to connect again. *)
Fixpoint ResetConnection (c : Connect) (sk : Safekeeper) : Safekeeper :=
  let sk :=
    if SafekeeperState_eqb (state sk) SS_OFFLINE then sk
    else set_state SS_OFFLINE (set_sock false (set_inWriteSet false sk)) in
  match c with
  | ConnRefused => set_sock false sk
  | ConnPending => set_state SS_CONNECTING (set_sock true sk)
  | ConnEstablished =>
      set_asyncOffs 0 (set_state SS_HANDSHAKE (set_sock true sk))
  | ConnWriteFailed again => ResetConnection again (set_sock true sk)
  end.

(** [GetAcknowledgedWALPosition], lines 140-157. *)
Definition GetAcknowledgedWALPosition (s : ProxyState) : Z :=
  let responses := qsort CompareLsn (map ackPos (safekeeper s)) in
  nth (Z.to_nat (n_safekeepers s - quorum s)) responses 0.

(** [1 << n] as the source computes it, in [int] (32 bits), kept as the
    bit pattern.  C defines the shift for counts from 0 to 30; for a
    larger count the model takes what the shift instruction the
    compilers emit for it yields on x86-64, which uses the count modulo
    32. *)
Definition shl1 (n : Z) : Z := Z.shiftl 1 (n mod 32).

(** [(1 << n_safekeepers) - 1], in [int] as well: [2^N - 1] up to 31
    safekeepers, 0 for 32 of them, 1 for 33.  The [ackMask] field it is
    compared with is declared in safekeeper.h, which is not among the
    sources; its values are kept as 32-bit patterns too, which is what
    the comparison sees whatever the width of the field as long as bit
    31 is not involved. *)
Definition full_mask (s : ProxyState) : Z :=
  uint32 (shl1 (n_safekeepers s) - 1).

(** The cleanup loop of lines 172-178. *)
Fixpoint cleanup (full : Z) (q : list WalMessage) : list WalMessage :=
  match q with
  | [] => []
  | msg :: next => if ackMask msg =? full then cleanup full next else q
  end.

(** [HandleSafekeeperResponse], lines 160-183. *)
Definition HandleSafekeeperResponse (e : Env) (s : ProxyState)
  : bool * ProxyState * list Output :=
  let minQuorumLsn := GetAcknowledgedWALPosition s in
  if minQuorumLsn >? lastAckPos s then
    let s := with_lastAckPos minQuorumLsn s in
    let out := [SentFeedback (lastAckPos s)
                             (SendFeedback (lastAckPos s) (now e) false)] in
    if fb_ok e
    then (true, with_msgQueue (cleanup (full_mask s) (msgQueue s)) s, out)
    else (false, s, out)
  else (true, with_msgQueue (cleanup (full_mask s) (msgQueue s)) s, []).

(** [WriteSocketAsync] on [size] bytes when the socket takes [w] of them
    ([w < 0]: a write error). *)
Definition WriteSocketAsync (size_ w : Z) : Z :=
  if w <? 0 then -1 else Z.min w size_.

Fixpoint mapi_from {A} (f : nat -> A -> A) (i : nat) (l : list A) : list A :=
  match l with
  | [] => []
  | x :: l' => f i x :: mapi_from f (S i) l'
  end.

(** The body of the loop of [BroadcastMessage], lines 217-239. *)
Definition BroadcastMessage_peer (e : Env) (msg : WalMessage)
                                 (i : nat) (sk : Safekeeper) : Safekeeper :=
  if SafekeeperState_eqb (state sk) SS_IDLE then
    let rc := WriteSocketAsync (size msg) (wr_rc e i) in
    if rc <? 0 then ResetConnection (reconnect e i) sk
    else if rc =? size msg
    then set_state SS_RECV_ACK (set_asyncOffs 0 sk)
    else set_inWriteSet true (set_asyncOffs rc (set_state SS_SEND_WAL sk))
  else sk.

Definition BroadcastMessage (e : Env) (msg : WalMessage) (s : ProxyState) :=
  with_safekeeper (mapi_from (BroadcastMessage_peer e msg) 0 (safekeeper s)) s.

(** [StartReplication], lines 263-297: the command sent and whether the
    primary accepted it. *)
Definition StartReplication_startpos (s : ProxyState) : Z :=
  let startpos := GetAcknowledgedWALPosition s in
  let startpos := if startpos =? 0 then walEnd (serverInfo s) else startpos in
  uint64 (startpos - XLogSegmentOffset startpos (walSegSize (serverInfo s))).

Definition StartReplication (e : Env) (s : ProxyState) : bool * list Output :=
  (repl_ok e,
   [SentStartReplication (StartReplication_startpos s)
                         (timeline (serverInfo s))]).

(** [currMsg->ackMask |= 1 << i] on the queue: [None] when no queued
    message lives at that address any more. *)
Fixpoint ack_message (a : nat) (i : nat) (q : list WalMessage)
  : option (list WalMessage) :=
  match q with
  | [] => None
  | m :: q' =>
      if (addr m =? a)%nat
      then Some (set_ackMask (Z.lor (ackMask m) (shl1 (Z.of_nat i))) m :: q')
      else option_map (cons m) (ack_message a i q')
  end.

Definition find_message (a : nat) (q : list WalMessage) : option WalMessage :=
  find (fun m => (addr m =? a)%nat) q.

Section Handlers.

Variable K : Constants.

(** End of the record as the proxy writes it into the frame (line 366). *)
Definition msg_walEnd (m : WalMessage) : Z :=
  uint64 (walPos m + size m - XLOG_HDR_SIZE K).

(** The loop of lines 451-465 for one [j]. *)
Definition vote_peer (e : Env) (j : nat) (sk : Safekeeper) : Safekeeper :=
  if SafekeeperState_eqb (state sk) SS_VOTE then
    if wr_ok e j
    then set_state SS_WAIT_VERDICT (set_asyncOffs 0 sk)
    else ResetConnection (reconnect e j) sk
  else sk.

(** The [switch] of lines 383-545 for a readable safekeeper [i]. *)
Definition on_readable (e : Env) (i : nat) (sk : Safekeeper) (s : ProxyState)
  : Outcome * list Output :=
  let reset sk := (Running (put_safekeeper i (ResetConnection (reconnect e i) sk) s), []) in
  match state sk with
  | SS_CONNECTING =>
      if so_error e
      then (Running (put_safekeeper i (set_state SS_OFFLINE (set_sock false sk)) s), [])
      else if wr_ok e i
      then (Running (put_safekeeper i (set_asyncOffs 0 (set_state SS_HANDSHAKE sk)) s), [])
      else reset sk
  | SS_HANDSHAKE =>
      let rc := fst (ReadSocketAsync (Z.to_nat (sizeof_info K - asyncOffs sk)) (rd e)) in
      if rc <? 0 then reset sk
      else
        let sk := set_asyncOffs (asyncOffs sk + rc) sk in
        if asyncOffs sk =? sizeof_info K then
          let sk := set_info (rd_info e) sk in
          if negb (protocolVersion (info sk) =? SK_PROTOCOL_VERSION K)
          then reset sk
          else
            let sk := set_ackPos (walEnd (info sk)) (set_state SS_VOTE sk) in
            let m := if CompareNodeId (nodeId (info sk)) (maxNodeId s) >? 0
                     then nodeId (info sk) else maxNodeId s in
            let c := n_connected s + 1 in
            let s := with_connected c m (put_safekeeper i sk s) in
            if c >=? quorum s then
              let m := if c =? quorum s
                       then mkNodeId (uint64 (term m + 1)) (uuid m) else m in
              let s := with_connected c m s in
              (Running (with_safekeeper (mapi_from (vote_peer e) 0 (safekeeper s)) s), [])
            else (Running s, [])
        else (Running (put_safekeeper i sk s), [])
  | SS_WAIT_VERDICT =>
      let rc := fst (ReadSocketAsync (Z.to_nat (sizeof_NodeId - asyncOffs sk)) (rd e)) in
      if rc <? 0 then reset sk
      else
        let sk := set_asyncOffs (asyncOffs sk + rc) sk in
        if asyncOffs sk =? sizeof_NodeId then
          let sk := set_info (set_nodeId (nodeId (rd_info e)) (info sk)) sk in
          if negb (CompareNodeId (nodeId (info sk)) (maxNodeId s) =? 0)
          then (Exit 1, [])
          else
            let sk := set_state SS_IDLE sk in
            let s := with_votes (n_votes s + 1) (put_safekeeper i sk s) in
            if n_votes s =? quorum s then
              let '(ok, out) := StartReplication e s in
              if ok then (Running (with_server true (streaming s) s), out)
              else (Exit 1, out)
            else (Running s, [])
        else (Running (put_safekeeper i sk s), [])
  | SS_RECV_ACK =>
      let '(rc, bytes) := ReadSocketAsync (Z.to_nat (8 - asyncOffs sk)) (rd e) in
      (* the bytes land in the [ackPos] field itself *)
      let sk := set_ackPos
                  (host_value (big_endian K)
                     (poke (host_bytes (big_endian K) (ackPos sk))
                           (Z.to_nat (asyncOffs sk)) bytes)) sk in
      if rc <? 0 then reset sk
      else
        let sk := set_asyncOffs (asyncOffs sk + rc) sk in
        if asyncOffs sk =? 8 then
          match currMsg sk with
          | None => (Fault, [])
          | Some a =>
              match ack_message a i (msgQueue s) with
              | None => (Fault, [])
              | Some q =>
                  let sk := set_asyncOffs 0 (set_state SS_IDLE sk) in
                  let s := with_msgQueue q (put_safekeeper i sk s) in
                  let '(ok, s, out) := HandleSafekeeperResponse e s in
                  if ok then (Running s, out)
                  else (Running (with_server false false s), out)
              end
          end
        else (Running (put_safekeeper i sk s), [])
  | _ => (Exit 1, [])
  end.

(** Lines 547-566 for a writable safekeeper [i]. *)
Definition on_writable (e : Env) (i : nat) (sk : Safekeeper) (s : ProxyState)
  : Outcome * list Output :=
  if negb (SafekeeperState_eqb (state sk) SS_SEND_WAL) then (Exit 1, [])
  else
    match currMsg sk with
    | None => (Fault, [])
    | Some a =>
        match find_message a (msgQueue s) with
        | None => (Fault, [])
        | Some m =>
            let rc := WriteSocketAsync (size m - asyncOffs sk) (wr_rc e i) in
            if rc <? 0
            then (Running (put_safekeeper i (ResetConnection (reconnect e i) sk) s), [])
            else
              let sk := set_asyncOffs (asyncOffs sk + rc) sk in
              if asyncOffs sk =? size m
              then (Running (put_safekeeper i
                      (set_inWriteSet false (set_asyncOffs 0 (set_state SS_RECV_ACK sk))) s), [])
              else (Running (put_safekeeper i sk s), [])
        end
    end.

(** The body of the loop of lines 377-567 for one [i]; [select] reports a
    socket writable only if it is in [writeSet]. *)
Definition handle_peer (ready : nat -> option Ready) (i : nat) (s : ProxyState)
  : Outcome * list Output :=
  match nth_error (safekeeper s) i with
  | None => (Running s, [])
  | Some sk =>
      if negb (sock sk) then (Running s, [])
      else
        match ready i with
        | Some (Readable e) => on_readable e i sk s
        | Some (Writable e) =>
            if inWriteSet sk then on_writable e i sk s else (Running s, [])
        | None => (Running s, [])
        end
  end.

Fixpoint for_peers (ready : nat -> option Ready) (idx : list nat) (s : ProxyState)
  : Outcome * list Output :=
  match idx with
  | [] => (Running s, [])
  | i :: rest =>
      match handle_peer ready i s with
      | (Running s', out) =>
          let '(o, out') := for_peers ready rest s' in (o, out ++ out')
      | r => r
      end
  end.

(** Lines 334-374: a message from the primary. *)
Definition on_server (copybuf : option (list Z)) (e : Env) (s : ProxyState)
  : ProxyState :=
  match copybuf with
  | None | Some [] => with_server false false s
  | Some ((c :: _) as buf) =>
      if c =? 119 (* 'w' *) then
        let rawlen := Z.of_nat (length buf) in
        let pos := fe_recvint64 (skipn (XLOG_HDR_START_POS K) buf) in
        let buf := poke buf (XLOG_HDR_END_POS K)
                        (fe_sendint64 (uint64 (pos + rawlen - XLOG_HDR_SIZE K))) in
        let msg := mkWalMessage (nextAddr s) buf rawlen pos 0 in
        let s := with_nextAddr (S (nextAddr s))
                   (with_msgQueue (msgQueue s ++ [msg]) s) in
        BroadcastMessage e msg s
      else s
  end.

(** One pass of the [while] loop of lines 324-569.  Leaving the loop
    leads through [StopSafekeepers] to the end of [main]. *)
Definition iteration (ev : Event) (s : ProxyState) : Outcome * list Output :=
  if streaming s || negb (match msgQueue s with [] => true | _ => false end) then
    match ev with
    | SelectFailed => (Exit 0, [])
    | ServerReadable copybuf e =>
        if serverInReadSet s then (Running (on_server copybuf e s), [])
        else (Running s, [])
    | PeersReady ready =>
        for_peers ready (seq 0 (length (safekeeper s))) s
    end
  else (Exit 0, []).

Fixpoint run (evs : list Event) (s : ProxyState) : Outcome * list Output :=
  match evs with
  | [] => (Running s, [])
  | ev :: rest =>
      match iteration ev s with
      | (Running s', out) =>
          let '(o, out') := run rest s' in (o, out ++ out')
      | r => r
      end
  end.

End Handlers.

(** The state [BroadcastWalStream] starts its loop in (lines 305-322) for
    [n] safekeepers: static storage is zeroed, the local [maxNodeId] is
    not initialised by the source and is whatever [junk] the stack holds. *)
Definition zero_ServerInfo : ServerInfo :=
  mkServerInfo 0 0 0 0 (mkNodeId 0 (repeat 0 16)) 0.

Definition fresh_safekeeper : Safekeeper :=
  mkSafekeeper false false SS_OFFLINE 0 zero_ServerInfo 0 None.

Definition BroadcastWalStream_start (q : Z) (n : nat) (si : ServerInfo)
           (junk : NodeId) (conn : nat -> Connect) : ProxyState :=
  mkProxy q
          (mapi_from (fun i => ResetConnection (conn i)) 0 (repeat fresh_safekeeper n))
          0 [] si false true 0 0 junk 0.

(* ================================================================== *)
(** * safekeeper_proxy.c: command line of [main] *)
(* ================================================================== *)

Module CLI.

Import String.
Local Open Scope string_scope.

(** Split at the first occurrence of [c] ([strchr], then a NUL written
    over the character found). *)
Fixpoint strchr (c : ascii) (s : string) : option (string * string) :=
  match s with
  | EmptyString => None
  | String x rest =>
      if Ascii.eqb x c then Some (EmptyString, rest)
      else match strchr c rest with
           | Some (before, after) => Some (String x before, after)
           | None => None
           end
  end.

(** The option string and the long options [main] hands to
    [getopt_long] (lines 576-586 and 615). *)
Definition optstring : string := "D:d:E:h:p:U:s:S:nwWvZ:".

Definition long_options : list (string * bool * ascii) :=
  [ ("help", false, "?"%char);
    ("version", false, "V"%char);
    ("dbname", true, "d"%char);
    ("safekeepers", true, "s"%char);
    ("username", true, "U"%char);
    ("no-password", false, "w"%char);
    ("password", false, "W"%char);
    ("verbose", false, "v"%char) ].

Fixpoint optstring_lookup (c : ascii) (opts : string) : option bool :=
  match opts with
  | EmptyString => None
  | String o rest =>
      if Ascii.eqb o c then
        if Ascii.eqb c ":"%char then None
        else Some (match rest with String ":" _ => true | _ => false end)
      else optstring_lookup c rest
  end.

Definition long_lookup (name : string) : option (bool * ascii) :=
  match find (fun o => String.eqb (fst (fst o)) name) long_options with
  | Some (_, has_arg, val) => Some (has_arg, val)
  | None => None
  end.

Inductive Getopt :=
| GetoptEnd (rest : list string)
| GetoptOpt (c : ascii) (optarg : option string) (rest : list string).

(** One call of [getopt_long].
    Modelled from the spec: src/port/getopt_long.c is not among the
    sources.  The specification only names the options; the model keeps
    to the documented contract of the function: options are read left to
    right up to the first argument that is not one, a character absent
    from the option string or a name absent from the table yields ['?'],
    and an option declared with an argument takes the rest of its word
    or the next word. *)
Definition getopt_long (argv : list string) : Getopt :=
  match argv with
  | [] => GetoptEnd []
  | String "-" (String "-" name) :: rest =>
      if String.eqb name "" then GetoptEnd rest
      else
        let '(nm, val) := match strchr "="%char name with
                          | Some (n, v) => (n, Some v)
                          | None => (name, None)
                          end in
        match long_lookup nm with
        | None => GetoptOpt "?"%char None rest
        | Some (true, v) =>
            match val, rest with
            | Some x, _ => GetoptOpt v (Some x) rest
            | None, x :: rest' => GetoptOpt v (Some x) rest'
            | None, [] => GetoptOpt "?"%char None []
            end
        | Some (false, v) =>
            match val with
            | Some _ => GetoptOpt "?"%char None rest
            | None => GetoptOpt v None rest
            end
        end
  | String "-" (String c cluster) :: rest =>
      let rest_cluster :=
        if String.eqb cluster "" then rest else String "-" cluster :: rest in
      match optstring_lookup c optstring with
      | None => GetoptOpt "?"%char None rest_cluster
      | Some false => GetoptOpt c None rest_cluster
      | Some true =>
          if String.eqb cluster "" then
            match rest with
            | x :: rest' => GetoptOpt c (Some x) rest'
            | [] => GetoptOpt "?"%char None []
            end
          else GetoptOpt c (Some cluster) rest
      end
  | _ => GetoptEnd argv
  end.

(** [isspace] in the C locale: blank, tab, newline, vertical tab, form
    feed and carriage return. *)
Definition isspace (c : ascii) : bool :=
  let n := nat_of_ascii c in
  ((n =? 32) || ((9 <=? n) && (n <=? 13)))%nat.

(** [atoi]: optional white space and sign, then decimal digits. *)
Fixpoint atoi_digits (acc : Z) (s : string) : Z :=
  match s with
  | String c rest =>
      let d := (Z.of_nat (nat_of_ascii c) - 48)%Z in
      if ((0 <=? d) && (d <=? 9))%Z then atoi_digits (acc * 10 + d)%Z rest else acc
  | EmptyString => acc
  end.

Fixpoint atoi (s : string) : Z :=
  match s with
  | String c rest =>
      if isspace c then atoi rest
      else if Ascii.eqb c "-"%char then (- atoi_digits 0 rest)%Z
      else if Ascii.eqb c "+"%char then atoi_digits 0 rest
      else atoi_digits 0 s
  | EmptyString => 0%Z
  end.

(** The variables the option loop assigns. *)
Record Options := mkOptions {
  connection_string : option string;
  dbhost : option string;
  dbport : option string;
  safekeepersList : option string;
  dbgetpassword : Z;
  verbose : Z
}.

Definition no_options : Options := mkOptions None None None None 0 0.

(** The [while]/[switch] of lines 615-655: [inl] is the exit status,
    [inr] the options and the words left over. *)
Fixpoint option_loop (fuel : nat) (argv : list string) (o : Options)
  : Z + (Options * list string) :=
  match fuel with
  | O => inl 1
  | S fuel =>
      match getopt_long argv with
      | GetoptEnd rest => inr (o, rest)
      | GetoptOpt c optarg rest =>
          let arg := match optarg with Some a => a | None => "" end in
          if Ascii.eqb c "d"%char then
            option_loop fuel rest
              (mkOptions (Some arg) (dbhost o) (dbport o) (safekeepersList o)
                         (dbgetpassword o) (verbose o))
          else if Ascii.eqb c "h"%char then
            option_loop fuel rest
              (mkOptions (connection_string o) (Some arg) (dbport o)
                         (safekeepersList o) (dbgetpassword o) (verbose o))
          else if Ascii.eqb c "p"%char then
            if (atoi arg <=? 0)%Z then inl 1
            else option_loop fuel rest
              (mkOptions (connection_string o) (dbhost o) (Some arg)
                         (safekeepersList o) (dbgetpassword o) (verbose o))
          else if Ascii.eqb c "s"%char then
            option_loop fuel rest
              (mkOptions (connection_string o) (dbhost o) (dbport o) (Some arg)
                         (dbgetpassword o) (verbose o))
          else if Ascii.eqb c "w"%char then
            option_loop fuel rest
              (mkOptions (connection_string o) (dbhost o) (dbport o)
                         (safekeepersList o) (-1) (verbose o))
          else if Ascii.eqb c "W"%char then
            option_loop fuel rest
              (mkOptions (connection_string o) (dbhost o) (dbport o)
                         (safekeepersList o) 1 (verbose o))
          else if Ascii.eqb c "v"%char then
            option_loop fuel rest
              (mkOptions (connection_string o) (dbhost o) (dbport o)
                         (safekeepersList o) (dbgetpassword o) (verbose o + 1)%Z)
          else inl 1
      end
  end.

(** Every call of [getopt_long] consumes a character of the command
    line, so its size bounds the number of passes. *)
Definition option_fuel (argv : list string) : nat :=
  S (fold_right (fun a n => (S (String.length a) + n)%nat) O argv).

(** The loop of lines 669-690 over the list of safekeepers: [inl] is the
    exit status, [inr] the host/port pairs stored in [safekeeper[]]. *)
Fixpoint parse_safekeepers (fuel : nat) (MAX_SAFEKEEPERS : Z)
         (host : option string) (acc : list (string * string))
  : Z + list (string * string) :=
  match fuel, host with
  | _, None => inr acc
  | O, Some _ => inr acc
  | S fuel, Some h =>
      if String.eqb h "" then inr acc
      else
        match strchr ":"%char h with
        | None => inl 1%Z
        | Some (hostname, port) =>
            let '(port, sep) := match strchr ","%char port with
                                | Some (p, rest) => (p, Some rest)
                                | None => (port, None)
                                end in
            if (Z.of_nat (List.length acc) + 1 >=? MAX_SAFEKEEPERS)%Z then inl 1%Z
            else parse_safekeepers fuel MAX_SAFEKEEPERS sep
                                   (acc ++ [(hostname, port)])
        end
  end.

(** Lines 691-704 on the file-scope [quorum] and the count of
    safekeepers: [inl] is the exit status, [inr] the quorum in force. *)
Definition check_quorum (quorum_ n : Z) : Z + Z :=
  if (n <? 1)%Z then inl 1%Z
  else if (quorum_ =? 0)%Z then inr (Z.quot n 2 + 1)%Z
  else if ((quorum_ <? Z.quot n 2 + 1) || (quorum_ >? n))%Z then inl 1%Z
  else inr quorum_.

Inductive Started :=
| Exits (code : Z)
| Proceeds (quorum_ : Z) (peers : list (string * string)).

(** [main] up to the point where it connects to the primary (lines
    596-704).  [argv] are the words after the program name.  No branch of
    the option loop assigns [quorum], which is therefore still the zero
    of its static storage when line 696 reads it. *)
Definition main (MAX_SAFEKEEPERS : Z) (argv : list string) : Started :=
  let early :=
    match argv with
    | a :: _ =>
        (String.eqb a "--help" || String.eqb a "-?"
         || String.eqb a "-V" || String.eqb a "--version")%bool
    | [] => false
    end in
  if early then Exits 0
  else
    match option_loop (option_fuel argv) argv no_options with
    | inl code => Exits code
    | inr (o, _ :: _) => Exits 1
    | inr (o, []) =>
        let fuel := match safekeepersList o with
                    | Some l => S (String.length l)
                    | None => O
                    end in
        match parse_safekeepers fuel MAX_SAFEKEEPERS (safekeepersList o) [] with
        | inl code => Exits code
        | inr peers =>
            match check_quorum 0 (Z.of_nat (List.length peers)) with
            | inl code => Exits code
            | inr q => Proceeds q peers
            end
        end
    end.

(** Modelled from the spec: safekeeper.h is not among the sources; the
    specification gives the capacity of the safekeeper table as
    "(max 64)". *)
Definition MAX_SAFEKEEPERS : Z := 64.

End CLI.

(* ================================================================== *)
(** * Notions used in the statements *)
(* ================================================================== *)

(** Number of safekeepers whose [ackPos] has reached [lsn]. *)
Definition confirmations (s : ProxyState) (lsn : Z) : Z :=
  Z.of_nat (length (filter (fun sk => lsn <=? ackPos sk) (safekeeper s))).

(** The [currMsg] fields of all sessions, in order. *)
Definition currMsgs (s : ProxyState) : list (option nat) :=
  map currMsg (safekeeper s).

(** The positions of the feedback messages among the outputs. *)
Fixpoint feedback_lsns (out : list Output) : list Z :=
  match out with
  | [] => []
  | SentFeedback lsn _ :: out' => lsn :: feedback_lsns out'
  | SentStartReplication _ _ :: out' => feedback_lsns out'
  end.

(** The start position as the specification words it. *)
Definition startpos_spec (s : ProxyState) : Z :=
  let p := Z.max (GetAcknowledgedWALPosition s) (walEnd (serverInfo s)) in
  p - p mod walSegSize (serverInfo s).

(** Order of the responses after [qsort] with [CompareLsn]. *)
Definition descending : list Z -> Prop := StronglySorted (fun a b => b <= a).


(* ================================================================== *)
(** * Concrete scenarios *)
(* ================================================================== *)

Module Scenario.

(** A little-endian host with the frame layout of the replication
    protocol ('w', three 64-bit fields) and a 64-byte handshake record. *)
Definition K : Constants := mkConstants 25 1 9 64 1 false.

(** The same on a big-endian host. *)
Definition K_be : Constants := mkConstants 25 1 9 64 1 true.

Definition zero_uuid : list Z := repeat 0 16.

Definition id_a : NodeId := mkNodeId 0 (repeat 0 15 ++ [1]).
Definition id_b : NodeId := mkNodeId 0 zero_uuid.

Definition primary (segsz walend : Z) : ServerInfo :=
  mkServerInfo 1 140000 segsz 1 (mkNodeId 0 zero_uuid) walend.

Definition idle_peer (ack : Z) : Safekeeper :=
  mkSafekeeper true false SS_IDLE 0 zero_ServerInfo ack None.

(** Two safekeepers, the default quorum of two, one of them ahead. *)
Definition two_peers : ProxyState :=
  mkProxy 2 [idle_peer 10; idle_peer 5] 0 [] (primary 16777216 0)
          false true 2 2 (mkNodeId 1 zero_uuid) 0.

(** One safekeeper that holds a segment less than the primary. *)
Definition behind : ProxyState :=
  mkProxy 1 [idle_peer 16777216] 0 [] (primary 16777216 33554432)
          false true 0 1 (mkNodeId 1 zero_uuid) 0.

Definition quiet : Env :=
  mkEnv (mkRecv [] false) zero_ServerInfo false (fun _ => true)
        (fun _ => 0) (fun _ => ConnRefused) true true 0.

Definition receiving (bytes : list Z) (failed : bool) (x : ServerInfo) : Env :=
  mkEnv (mkRecv bytes failed) x false (fun _ => true)
        (fun _ => 1000) (fun _ => ConnEstablished) true true 0.

Definition only (i : nat) (r : Ready) : nat -> option Ready :=
  fun j => if (j =? i)%nat then Some r else None.

(** A 'w' frame from the primary: a record of 256 bytes that starts at
    position 0, so that the proxy patches 256 in as its end. *)
Definition wal_frame : list Z :=
  [119] ++ fe_sendint64 0 ++ fe_sendint64 0 ++ fe_sendint64 0 ++ repeat 7 256.

Definition peer_info (walend trm : Z) : ServerInfo :=
  mkServerInfo 1 140000 16777216 1 (mkNodeId trm zero_uuid) walend.

(** One safekeeper, quorum one; the connection is established at once. *)
Definition start1 : ProxyState :=
  BroadcastWalStream_start 1 1 (primary 16777216 0) (mkNodeId 0 zero_uuid)
                           (fun _ => ConnEstablished).

(** The safekeeper reports [walEnd = 255] in its handshake and echoes the
    proposed term; the primary then sends the record. *)
Definition opening : list Event :=
  [ PeersReady (only 0 (Readable (receiving (repeat 0 64) false (peer_info 255 0))));
    PeersReady (only 0 (Readable (receiving (repeat 0 24) false (peer_info 255 1))));
    ServerReadable (Some wal_frame) (receiving [] false zero_ServerInfo) ].

(** The safekeeper acknowledges position 256.  On a little-endian host
    the first byte of that answer, arriving alone, is 0. *)
Definition first_byte : Event :=
  PeersReady (only 0 (Readable (receiving [0] false zero_ServerInfo))).

(** All eight bytes of an acknowledgement of [v] on a little-endian host. *)
Definition whole_ack (v : Z) : Event :=
  PeersReady (only 0 (Readable (receiving (host_bytes false v) false zero_ServerInfo))).

(** On a big-endian host: the first seven bytes of the acknowledgement of
    256 arrive, the connection breaks, the safekeeper is reached again and
    repeats its handshake, now with [walEnd = 256]. *)
Definition seven_bytes : Event :=
  PeersReady (only 0 (Readable (receiving [0; 0; 0; 0; 0; 0; 1] false zero_ServerInfo))).

Definition reconnected : list Event :=
  [ PeersReady (only 0 (Readable (receiving [] true zero_ServerInfo)));
    PeersReady (only 0 (Readable (receiving (repeat 0 64) false (peer_info 256 0)))) ].

(** A session about to receive the last vote of the quorum. *)
Definition last_vote : ProxyState :=
  mkProxy 1 [mkSafekeeper true false SS_WAIT_VERDICT 0 (peer_info 16777216 0)
                          16777216 None]
          0 [] (primary 16777216 33554432) false true 0 1
          (mkNodeId 1 zero_uuid) 0.

Definition echo : Env := receiving (repeat 0 24) false (peer_info 16777216 1).

Import String.

(** A comma-separated list of [n] safekeeper addresses. *)
Fixpoint addresses (n : nat) : String.string :=
  match n with
  | O => String.EmptyString
  | S O => "h:1"%string
  | S n' => String.append "h:1,"%string (addresses n')
  end.

(** Two safekeepers; the second is repeating its handshake while the
    primary is streaming. *)
Definition one_busy : ProxyState :=
  mkProxy 2 [idle_peer 0;
             mkSafekeeper true false SS_HANDSHAKE 0 zero_ServerInfo 0 None]
          0 [] (primary 16777216 0) true true 2 2 (mkNodeId 1 zero_uuid) 0.

Definition arrival : Event :=
  ServerReadable (Some wal_frame) (receiving [] false zero_ServerInfo).




(** The state a run from [start1] reaches, when it is still running. *)
Definition state_after (C : Constants) (evs : list Event) : ProxyState :=
  match run C evs start1 with
  | (Running s, _) => s
  | _ => start1
  end.

Definition still_running (C : Constants) (evs : list Event) : bool :=
  match run C evs start1 with
  | (Running _, _) => true
  | _ => false
  end.

(** Command lines ([argv] after the program name). *)
Definition with_short_quorum : list string :=
  ["-q"; "2"; "-s"; "h1:1,h2:2,h3:3"]%string.

Definition with_long_quorum : list string :=
  ["--quorum=2"; "-s"; "h1:1,h2:2,h3:3"]%string.

Definition without_quorum : list string :=
  ["-s"; "h1:1,h2:2,h3:3"]%string.

Definition three_peers : list (string * string) :=
  [("h1", "1"); ("h2", "2"); ("h3", "3")]%string.

Definition many (n : nat) : list string := ["-s"%string; addresses n].


End Scenario.

(* ================================================================== *)
(** * utils.c: the loops over [recv] and [send] *)
(* ================================================================== *)

Inductive Errno := EINTR | EAGAIN | EOTHER.

(** What one call of [recv] or [send] answers: the bytes handed over
    (none at the end of the stream), the count of bytes taken, or -1 with
    [errno] set ([EWOULDBLOCK] counts as [EAGAIN]). *)
Inductive RecvCall :=
| Received (bs : list Z)
| RecvErr (e : Errno).

Inductive SendCall :=
| Accepted (n : nat)
| SendErr (e : Errno).

(** [ReadSocketAsync], utils.c lines 192-214, against the answers of the
    successive [recv] calls; [buf] is what has been stored so far, its
    length the local [offs].  [recv] is asked for [size - offs] bytes and
    cannot deliver more.  [None]: the answers are used up and the loop
    would call [recv] once more. *)
Fixpoint ReadSocketAsync_calls (calls : list RecvCall) (size : nat)
         (buf : list Z) : option (Z * list Z) :=
  if (size =? length buf)%nat then Some (Z.of_nat (length buf), buf)
  else
    match calls with
    | [] => None
    | Received bs :: rest =>
        ReadSocketAsync_calls rest size (buf ++ firstn (size - length buf) bs)
    | RecvErr EINTR :: rest => ReadSocketAsync_calls rest size buf
    | RecvErr EAGAIN :: _ => Some (Z.of_nat (length buf), buf)
    | RecvErr EOTHER :: _ => Some (-1, buf)
    end.

(** [WriteSocketAsync], utils.c lines 216-238. *)
Fixpoint WriteSocketAsync_calls (calls : list SendCall) (size offs : nat)
  : option Z :=
  if (size =? offs)%nat then Some (Z.of_nat offs)
  else
    match calls with
    | [] => None
    | Accepted n :: rest =>
        WriteSocketAsync_calls rest size (offs + Nat.min n (size - offs))
    | SendErr EINTR :: rest => WriteSocketAsync_calls rest size offs
    | SendErr EAGAIN :: _ => Some (Z.of_nat offs)
    | SendErr EOTHER :: _ => Some (-1)
    end.

(** [WriteSocket], utils.c lines 169-190: [size] counts down; every error
    but [EINTR] ends the loop with [false]. *)
Fixpoint WriteSocket_calls (calls : list SendCall) (size : nat) : option bool :=
  if (size =? 0)%nat then Some true
  else
    match calls with
    | [] => None
    | Accepted n :: rest => WriteSocket_calls rest (size - Nat.min n size)
    | SendErr EINTR :: rest => WriteSocket_calls rest size
    | SendErr _ :: _ => Some false
    end.

Definition recv_interrupted (c : RecvCall) : bool :=
  match c with RecvErr EINTR => true | _ => false end.

Definition send_interrupted (c : SendCall) : bool :=
  match c with SendErr EINTR => true | _ => false end.

(** All bytes the [recv] calls handed over, in order. *)
Fixpoint received (calls : list RecvCall) : list Z :=
  match calls with
  | [] => []
  | Received bs :: rest => bs ++ received rest
  | RecvErr _ :: rest => received rest
  end.

(** All bytes the [send] calls took. *)
Fixpoint accepted (calls : list SendCall) : nat :=
  match calls with
  | [] => O
  | Accepted n :: rest => (n + accepted rest)%nat
  | SendErr _ :: rest => accepted rest
  end.

(** One address of the list [pg_getaddrinfo_all] returns, by what the
    calls of [ConnectSocketAsync] meet on it: [socket] fails;
    [SetSocketOptions] fails on descriptor [fd], having closed it;
    [connect] (after its retries on [EINTR]) succeeds, is in progress
    ([EWOULDBLOCK], [EAGAIN]), or fails with another error. *)
Inductive AddrOutcome :=
| NoSocket
| OptionsFail (fd : Z)
| ConnectOk (fd : Z)
| ConnectInProgress (fd : Z)
| ConnectFail (fd : Z).

Definition PGINVALID_SOCKET : Z := -1.

(** What [ConnectSocketAsync] leaves behind: the value returned, what it
    has stored through [established] ([None]: nothing), and the
    descriptors it has closed, the latest first. *)
Record Connected := mkConnected {
  conn_sock : Z;
  conn_established : option bool;
  conn_closed : list Z
}.

(** The [for] loop of utils.c lines 60-99; [sock] is the local of that
    name, which the [return] after the loop hands back. *)
Fixpoint connect_loop (addrs : list AddrOutcome) (sock : Z) (closed : list Z)
  : Connected :=
  match addrs with
  | [] => mkConnected sock None closed
  | NoSocket :: rest => connect_loop rest PGINVALID_SOCKET closed
  | OptionsFail fd :: rest => connect_loop rest fd (fd :: closed)
  | ConnectOk fd :: _ => mkConnected fd (Some true) closed
  | ConnectInProgress fd :: _ => mkConnected fd (Some false) closed
  | ConnectFail fd :: rest => connect_loop rest fd (fd :: closed)
  end.

(** [ConnectSocketAsync], utils.c lines 33-101; [None] when the name
    cannot be resolved. *)
Definition ConnectSocketAsync (resolved : option (list AddrOutcome)) : Connected :=
  match resolved with
  | None | Some [] => mkConnected (-1) None []
  | Some addrs => connect_loop addrs PGINVALID_SOCKET []
  end.

(** The address gives no connection, established or in progress. *)
Definition no_connection (a : AddrOutcome) : bool :=
  match a with
  | ConnectOk _ | ConnectInProgress _ => false
  | _ => true
  end.

(* ================================================================== *)
(** * Positions as two 32-bit halves *)
(* ================================================================== *)

(** [(uint32) (ptr >> 32)] and [(uint32) ptr], as printed with [%X/%X]
    (safekeeper_proxy.c line 283, walsender.c line 172, zenith_restore.c
    lines 310, 345, 379). *)
Definition lsn_hi (ptr : Z) : Z := uint32 (Z.shiftr ptr 32).
Definition lsn_lo (ptr : Z) : Z := uint32 ptr.

(** [((XLogRecPtr) hi << 32) | lo] (walsender.c line 232,
    zenith_restore.c lines 239, 429, 450). *)
Definition lsn_join (hi lo : Z) : Z := Z.lor (uint64 (Z.shiftl hi 32)) lo.

(* ================================================================== *)
(** * walsender.c: messages to the replication client *)
(* ================================================================== *)

Definition fe_sendint32 (v : Z) : list Z := be_bytes 4 v.
Definition fe_sendint16 (v : Z) : list Z := be_bytes 2 v.
Definition fe_recvint32 (buf : list Z) : Z := be_value (firstn 4 buf).
Definition fe_recvint16 (buf : list Z) : Z := be_value (firstn 2 buf).

(** The answer to the startup packet, lines 126-135. *)
Definition handshake_response : list Z :=
  [82 (* 'R' *)] ++ fe_sendint32 8 ++ fe_sendint32 0
     ++ [90 (* 'Z' *)] ++ fe_sendint32 5 ++ [73 (* 'I' *)].

(** The array of lines 93-108. *)
Definition identifySystemResponseDesc : list Z :=
  [
    84; 0; 0; 0; 111; 0; 4; 115;
    121; 115; 116; 101; 109; 105; 100; 0;
    0; 0; 0; 0; 0; 0; 0; 0;
    0; 25; 255; 255; 255; 255; 255; 255;
    0; 0; 116; 105; 109; 101; 108; 105;
    110; 101; 0; 0; 0; 0; 0; 0;
    0; 0; 0; 0; 23; 0; 4; 255;
    255; 255; 255; 0; 0; 120; 108; 111;
    103; 112; 111; 115; 0; 0; 0; 0;
    0; 0; 0; 0; 0; 0; 25; 255;
    255; 255; 255; 255; 255; 0; 0; 100;
    98; 110; 97; 109; 101; 0; 0; 0;
    0; 0; 0; 0; 0; 0; 0; 25;
    255; 255; 255; 255; 255; 255; 0; 0 ].

(** ["IDENTIFY_SYSTEM"] with its terminating NUL: [sizeof] is 16. *)
Definition IDENTIFY_SYSTEM : list Z :=
  [73; 68; 69; 78; 84; 73; 70; 89; 95; 83; 89; 83; 84; 69; 77; 0].

(** The answer to IDENTIFY_SYSTEM, lines 176-214.  The three buffers
    hold what [sprintf] has printed: the system identifier, the timeline
    and the position. *)
Definition identify_system_response (sysid_buf timeline_buf lsn_buf : list Z)
  : list Z :=
  let sysid_len := Z.of_nat (length sysid_buf) in
  let timeline_len := Z.of_nat (length timeline_buf) in
  let lsn_len := Z.of_nat (length lsn_buf) in
  identifySystemResponseDesc
    ++ [68 (* 'D' *)]
    ++ fe_sendint32 (4 + 2 + 4 + sysid_len + 4 + timeline_len + 4 + lsn_len + 4)
    ++ fe_sendint16 4
    ++ fe_sendint32 sysid_len ++ sysid_buf
    ++ fe_sendint32 timeline_len ++ timeline_buf
    ++ fe_sendint32 lsn_len ++ lsn_buf
    ++ fe_sendint32 (-1)
    ++ [67 (* 'C' *)] ++ fe_sendint32 (4 + Z.of_nat (length IDENTIFY_SYSTEM))
    ++ IDENTIFY_SYSTEM
    ++ [90 (* 'Z' *)] ++ fe_sendint32 5 ++ [73 (* 'I' *)].

(** The answer to START_REPLICATION, lines 236-242. *)
Definition copy_both_response : list Z :=
  [87 (* 'W' *)] ++ fe_sendint32 7 ++ [0; 0; 0].


(** How the reader of a protocol-3 stream cuts it into messages: a type
    byte, then a 32-bit length that counts itself and the body. *)
Fixpoint split_messages (fuel : nat) (bs : list Z) : option (list (Z * list Z)) :=
  match fuel, bs with
  | _, [] => Some []
  | O, _ :: _ => None
  | S fuel, t :: rest =>
      let len := fe_recvint32 rest in
      if (len <? 4) || (Z.of_nat (length rest) <? len) then None
      else
        match split_messages fuel (skipn (Z.to_nat len) rest) with
        | Some ms => Some ((t, firstn (Z.to_nat len - 4) (skipn 4 rest)) :: ms)
        | None => None
        end
  end.

(** The columns of a DataRow body: a 16-bit count, then for each column
    a 32-bit length (all ones for NULL) and that many bytes. *)
Fixpoint parse_columns (n : nat) (bs : list Z) : option (list (option (list Z))) :=
  match n with
  | O => match bs with [] => Some [] | _ => None end
  | S n' =>
      let len := fe_recvint32 bs in
      if (length bs <? 4)%nat then None
      else if len =? 2 ^ 32 - 1 then
        option_map (cons None) (parse_columns n' (skipn 4 bs))
      else if Z.of_nat (length bs) - 4 <? len then None
      else
        option_map (cons (Some (firstn (Z.to_nat len) (skipn 4 bs))))
                   (parse_columns n' (skipn (4 + Z.to_nat len) bs))
  end.

Definition parse_data_row (body : list Z) : option (list (option (list Z))) :=
  if (length body <? 2)%nat then None
  else parse_columns (Z.to_nat (fe_recvint16 body)) (skipn 2 body).

(** A message as the reader sees it. *)
Definition message (t : Z) (body : list Z) : list Z :=
  t :: fe_sendint32 (4 + Z.of_nat (length body)) ++ body.

(* ================================================================== *)
(** * walsender.c: one pass of the send loop with its segment file *)
(* ================================================================== *)

(** The locals the loop of lines 256-333 carries: the position and,
    while a segment file is open, the file offset the next [read]
    starts at (a file is opened at offset 0 and never repositioned). *)
Record WalSenderState := mkWalSender {
  ws_startpos : Z;
  ws_walfile : option Z
}.

(** What a pass meets: the [flushLsn] it sees, whether the segment file
    can be opened, the length that file has on disk, and whether the
    client takes the frame. *)
Record PassEnv := mkPassEnv {
  seen_flushLsn : Z;
  open_ok : bool;
  file_length : Z;
  write_ok : bool
}.

Record Frame := mkFrame {
  fr_dataStart : Z;
  fr_walEnd : Z;
  fr_size : Z
}.

Inductive Pass :=
| Waits                                   (* [startpos >= flushLsn] *)
| Epilogue                                (* [goto Epilogue] *)
| Sends (f : Frame) (st : WalSenderState).

Definition WalSenderPass (MAX_SEND_SIZE walSegSize_ : Z) (e : PassEnv)
           (st : WalSenderState) : Pass :=
  let startpos := ws_startpos st in
  let flushLsn := seen_flushLsn e in
  if startpos >=? flushLsn then Waits
  else
    match (match ws_walfile st with
           | Some pos => Some pos
           | None => if open_ok e then Some 0 else None
           end) with
    | None => Epilogue
    | Some pos =>
        let sz := sendSize MAX_SEND_SIZE flushLsn startpos in
        let got := Z.max 0 (Z.min sz (file_length e - pos)) in   (* read() *)
        if negb (got =? sz) then Epilogue
        else if negb (write_ok e) then Epilogue
        else
          let startpos := uint64 (startpos + sz) in
          Sends (mkFrame (ws_startpos st) flushLsn sz)
                (mkWalSender startpos
                   (if XLogSegmentOffset startpos walSegSize_ =? 0
                    then None else Some (pos + sz)))
    end.

(** The frames of successive passes, until the thread leaves the loop. *)
Fixpoint WalSenderPasses (MAX_SEND_SIZE walSegSize_ : Z) (es : list PassEnv)
         (st : WalSenderState) : list Frame * option WalSenderState :=
  match es with
  | [] => ([], Some st)
  | e :: es' =>
      match WalSenderPass MAX_SEND_SIZE walSegSize_ e st with
      | Waits => WalSenderPasses MAX_SEND_SIZE walSegSize_ es' st
      | Epilogue => ([], None)
      | Sends f st' =>
          let '(fs, r) := WalSenderPasses MAX_SEND_SIZE walSegSize_ es' st' in
          (f :: fs, r)
      end
  end.

(** The open file stands at the segment offset of [startpos]; with no
    file open [startpos] is at a segment boundary. *)
Definition file_tracks_position (walSegSize_ : Z) (st : WalSenderState) : Prop :=
  0 <= ws_startpos st /\
  match ws_walfile st with
  | Some pos => pos = XLogSegmentOffset (ws_startpos st) walSegSize_
  | None => XLogSegmentOffset (ws_startpos st) walSegSize_ = 0
  end.

(** Each frame starts where the one before it ended. *)
Fixpoint contiguous (from : Z) (fs : list Frame) : Prop :=
  match fs with
  | [] => True
  | f :: fs' => fr_dataStart f = from /\ contiguous (from + fr_size f) fs'
  end.

(* ================================================================== *)
(** * walsender.c: the list of active WAL senders *)
(* ================================================================== *)

(** The [next] and [prev] fields of the [WalSender] at each address;
    address 0 is that of the list head [walSenders], which line 36
    links to itself. *)
Record Links := mkLinks { l_next : nat; l_prev : nat }.

Definition Heap := nat -> Links.

Definition set_next (h : Heap) (a v : nat) : Heap :=
  fun x => if (x =? a)%nat then mkLinks v (l_prev (h x)) else h x.

Definition set_prev (h : Heap) (a v : nat) : Heap :=
  fun x => if (x =? a)%nat then mkLinks (l_next (h x)) v else h x.

(** [EnqueueWalSender], lines 45-53, between lock and unlock. *)
Definition EnqueueWalSender (ws : nat) (h : Heap) : Heap :=
  let h := set_next h ws 0 in                   (* ws->next = &walSenders *)
  let h := set_prev h ws (l_prev (h 0%nat)) in  (* ws->prev = walSenders.prev *)
  let h := set_next h (l_prev (h ws)) ws in     (* ws->prev->next = ws *)
  set_prev h 0 ws.                              (* walSenders.prev = ws *)

(** [DequeueWalSender], lines 55-62. *)
Definition DequeueWalSender (ws : nat) (h : Heap) : Heap :=
  let h := set_prev h (l_next (h ws)) (l_prev (h ws)) in  (* ws->next->prev = ws->prev *)
  set_next h (l_prev (h ws)) (l_next (h ws)).             (* ws->prev->next = ws->next *)

(** The nodes [l] are linked in this order between [a] and [b]. *)
Fixpoint chain (h : Heap) (a : nat) (l : list nat) (b : nat) : Prop :=
  match l with
  | [] => l_next (h a) = b /\ l_prev (h b) = a
  | x :: l' => l_next (h a) = x /\ l_prev (h x) = a /\ chain h x l' b
  end.

(** The list of active senders is [l], oldest first: the ring that
    starts and ends at the head. *)
Definition senders (h : Heap) (l : list nat) : Prop :=
  NoDup (0%nat :: l) /\ chain h 0 l 0.

(* ================================================================== *)
(** * zenith_restore.c: names of the files in the bucket *)
(* ================================================================== *)

Module Restore.

Import String.

(** A C string is the list of its characters before the terminating
    NUL; a pointer into it is an offset. *)
Definition cstring := list ascii.

Definition relationdata : cstring :=
  String.list_ascii_of_string "relationdata/"%string.

(** The second argument of the [strspn] of line 471, with its two
    zeros. *)
Definition accepted_digits : cstring :=
  String.list_ascii_of_string "01234567890ABCDEF"%string.

Definition hex_digits : cstring :=
  String.list_ascii_of_string "0123456789ABCDEF"%string.

Definition code (c : ascii) : Z := Z.of_nat (nat_of_ascii c).

(** [strrchr]: the offset of the last occurrence of [c]. *)
Fixpoint strrchr (s : cstring) (c : ascii) : option nat :=
  match s with
  | [] => None
  | x :: rest =>
      match strrchr rest c with
      | Some k => Some (S k)
      | None => if Ascii.eqb x c then Some O else None
      end
  end.

(** [strncmp]: the difference of the first two characters that differ
    among the first [n], a missing character counting as NUL. *)
Fixpoint strncmp (s1 s2 : cstring) (n : nat) {struct n} : Z :=
  match n with
  | O => 0
  | S n' =>
      match s1, s2 with
      | [], [] => 0
      | [], y :: _ => - code y
      | x :: _, [] => code x
      | x :: r1, y :: r2 =>
          if Ascii.eqb x y then strncmp r1 r2 n' else code x - code y
      end
  end.

(** [strspn]: the length of the longest prefix of [s] made of characters
    of [accept]. *)
Fixpoint strspn (s accept : cstring) : nat :=
  match s with
  | [] => O
  | c :: rest =>
      if existsb (Ascii.eqb c) accept then S (strspn rest accept) else O
  end.

(** [split_path], lines 394-414: [*dir] (NULL as [None]) and [*fname]. *)
Definition split_path (path : cstring) : option cstring * cstring :=
  match strrchr path "/"%char with
  | Some sep => (Some (firstn sep path), skipn (S sep) path)
  | None => (None, path)
  end.

(** [parse_reldata_filename], lines 455-480: [None] for [false],
    otherwise the string stored in [*basefname]. *)
Definition parse_reldata_filename (path : cstring) : option cstring :=
  if negb (strncmp path relationdata (List.length relationdata) =? 0) then None
  else
    let fname := skipn (List.length relationdata) path in
    if (List.length fname <? 1 + 16)%nat then None
    else
      let suffix := skipn (List.length fname - 1 - 16) fname in
      if negb (match suffix with
               | c :: _ => Ascii.eqb c "_"%char
               | [] => false
               end) then None
      else if negb (strspn (skipn 1 suffix) accepted_digits =? 16)%nat
      then None
      else
        let basefnamelen := (List.length fname - 1 - 16)%nat in
        Some (firstn basefnamelen fname).

(** The characters the position in a file name may consist of. *)
Definition upper_hex (c : ascii) : Prop := In c hex_digits.

Section Tarballs.

(** [parse_nonreldata_filename] (lines 416-431) rests on [sscanf]; the
    loop below only uses whether it accepts a name and the position it
    then stores. *)
Variable parse_nonreldata_filename : cstring -> option Z.

(** The body of the loop of lines 304-318 on [latest_tarball_ptr] and
    [latest_tarball_name]. *)
Definition consider (endptr : Z) (latest : Z * option cstring) (name : cstring)
  : Z * option cstring :=
  match parse_nonreldata_filename name with
  | Some ptr =>
      if (ptr <? endptr) && (fst latest <? endptr) then (ptr, Some name)
      else latest
  | None => latest
  end.

(** Lines 301-318: the position and the name the loop ends with. *)
Definition latest_tarball (endptr : Z) (filenames : list cstring)
  : Z * option cstring :=
  fold_left (consider endptr) filenames (InvalidXLogRecPtr, None).

(** The tarballs of the listing that lie before [endptr], in the order
    of the listing. *)
Definition candidates (endptr : Z) (filenames : list cstring)
  : list (Z * option cstring) :=
  flat_map (fun name =>
              match parse_nonreldata_filename name with
              | Some ptr => if ptr <? endptr then [(ptr, Some name)] else []
              | None => []
              end) filenames.

End Tarballs.

End Restore.

(* ================================================================== *)
(** * The list of safekeepers on the command line *)
(* ================================================================== *)

Module Usage.

Import String.
Local Open Scope string_scope.

(** The argument of [-s] in the format [usage] gives,
    'host1:port1,host2:port2'. *)
Fixpoint safekeepers_arg (peers : list (string * string)) : string :=
  match peers with
  | [] => ""
  | (host, port) :: rest =>
      match rest with
      | [] => host ++ ":" ++ port
      | _ :: _ => host ++ ":" ++ port ++ "," ++ safekeepers_arg rest
      end
  end.

Definition command_line (peers : list (string * string)) : list string :=
  ["-s"; safekeepers_arg peers].

(** A host name without colon and a port without comma. *)
Definition well_formed (peer : string * string) : Prop :=
  CLI.strchr ":"%char (fst peer) = None /\
  CLI.strchr ","%char (snd peer) = None.

Definition two_peers : list (string * string) :=
  [("alpha", "5454"); ("beta", "5455")].

End Usage.

(* ================================================================== *)
(** * Further scenarios *)
(* ================================================================== *)

(** Two safekeepers, quorum one: the first cannot be reached, the second
    connects at once, completes its handshake and echoes the term. *)
Module Outage.

Definition start2 : ProxyState :=
  BroadcastWalStream_start 1 2 (Scenario.primary 16777216 0)
    (mkNodeId 0 Scenario.zero_uuid)
    (fun i => match i with O => ConnRefused | _ => ConnEstablished end).

Definition handshake : Event :=
  PeersReady (Scenario.only 1
    (Readable (Scenario.receiving (repeat 0 64) false (Scenario.peer_info 255 0)))).

Definition verdict : Event :=
  PeersReady (Scenario.only 1
    (Readable (Scenario.receiving (repeat 0 24) false (Scenario.peer_info 255 1)))).

Definition after (evs : list Event) : ProxyState :=
  match run Scenario.K evs start2 with
  | (Running s, _) => s
  | _ => start2
  end.

Definition output (evs : list Event) : list Output :=
  snd (run Scenario.K evs start2).

End Outage.

(** The number of START_REPLICATION commands among the outputs. *)
Fixpoint start_replications (out : list Output) : nat :=
  match out with
  | [] => O
  | SentStartReplication _ _ :: out' => S (start_replications out')
  | SentFeedback _ _ :: out' => start_replications out'
  end.

(** While a session is reading a handshake record, a verdict or an
    acknowledgement, [asyncOffs] is an offset inside the field that
    [ReadSocketAsync] is pointed at, with at least one byte still to
    come. *)
Definition read_offset_in_bounds (K : Constants) (sk : Safekeeper) : Prop :=
  match state sk with
  | SS_HANDSHAKE => 0 <= asyncOffs sk < sizeof_info K
  | SS_WAIT_VERDICT => 0 <= asyncOffs sk < sizeof_NodeId
  | SS_RECV_ACK => 0 <= asyncOffs sk < 8
  | _ => True
  end.

(** Thirty-two safekeepers and the quorum of seventeen that [main]
    derives for them.  The first seventeen connect at once, complete
    their handshakes in one pass of the loop and echo the proposed term
    in the next; the others are still connecting when the primary sends
    its first record. *)
Module Crowd.

Definition start32 : ProxyState :=
  BroadcastWalStream_start 17 32 (Scenario.primary 16777216 0)
    (mkNodeId 0 Scenario.zero_uuid)
    (fun i => if (i <? 17)%nat then ConnEstablished else ConnPending).



Definition arrival_env : Env := Scenario.receiving [] false zero_ServerInfo.

Definition arrival : Event := ServerReadable (Some Scenario.wal_frame) arrival_env.

Definition after (evs : list Event) : ProxyState :=
  match run Scenario.K evs start32 with
  | (Running s, _) => s
  | _ => start32
  end.

End Crowd.

(** The record of [Scenario.wal_frame] as the proxy queues it: address
    0, the frame with the end position 256 written into it (line 366),
    and an empty mask. *)
Module Flight.
End Flight.

(** The re-streamer with a client that is exactly 4 GiB behind the
    flush position, at a segment boundary, and one that stands 100 bytes
    before the end of a segment with more than [MAX_SEND_SIZE] bytes to
    send; segments of 16 MiB, [MAX_SEND_SIZE] 128 KiB. *)
Module Lagging.

Definition MAX_SEND_SIZE : Z := 131072.
Definition walSegSize_ : Z := 16777216.

Definition far_behind : WalSenderState := mkWalSender 16777216 None.
Definition far_ahead : PassEnv := mkPassEnv (16777216 + 2 ^ 32) true 16777216 true.

Definition near_end : WalSenderState := mkWalSender 16777116 (Some 16777116).
Definition next_segment : PassEnv := mkPassEnv 33554432 true 16777216 true.

End Lagging.

(* ================================================================== *)
(** * Node identifiers *)
(* ================================================================== *)

Lemma memcmp_self (a : list Z) (n : nat) : memcmp a a n = 0.
Proof.
  revert a; induction n as [|n IH]; intros [|x a]; simpl; auto.
  rewrite Z.ltb_irrefl. apply IH.
Qed.

(** Whenever the terms agree the comparison answers "equal", whatever
    the two UUIDs are. *)
Lemma CompareNodeId_same_term (id1 id2 : NodeId) :
  term id1 = term id2 -> CompareNodeId id1 id2 = 0.
Proof.
  intros E. unfold CompareNodeId. rewrite E, Z.ltb_irrefl.
  replace (term id2 >? term id2) with false
    by (symmetry; rewrite Z.gtb_ltb; apply Z.ltb_irrefl).
  apply memcmp_self.
Qed.

(** C3 (the code departs from the claim).  For two identifiers of term 0
    whose UUIDs differ in the last byte, [CompareNodeId] answers 0, while
    the order of the specification (term first, then the two UUIDs byte
    by byte) places the first above the second. *)
Theorem CompareNodeId_misses_uuid :
  CompareNodeId Scenario.id_a Scenario.id_b = 0 /\
  NodeId_order_spec Scenario.id_a Scenario.id_b = 1 /\
  uuid Scenario.id_a <> uuid Scenario.id_b.
Proof.
  repeat split; try reflexivity. discriminate.
Qed.

(* ================================================================== *)
(** * The sorted responses and the quorum position *)
(* ================================================================== *)

Lemma qsort_insert_perm cmp x l : Permutation (qsort_insert cmp x l) (x :: l).
Proof.
  induction l as [|y l IH]; simpl; auto.
  destruct (cmp x y <=? 0); auto.
  rewrite IH. apply perm_swap.
Qed.

Lemma qsort_perm cmp l : Permutation (qsort cmp l) l.
Proof.
  induction l as [|x l IH]; simpl; auto.
  rewrite qsort_insert_perm. auto.
Qed.

Lemma qsort_length cmp l : length (qsort cmp l) = length l.
Proof. apply Permutation_length, qsort_perm. Qed.

Lemma CompareLsn_le x y : (CompareLsn x y <=? 0) = (y <=? x).
Proof.
  unfold CompareLsn.
  destruct (Z.gtb_spec x y); [|destruct (Z.eqb_spec x y)];
    simpl; symmetry; [apply Z.leb_le|apply Z.leb_le|apply Z.leb_gt]; lia.
Qed.

Lemma qsort_insert_descending x l :
  descending l -> descending (qsort_insert CompareLsn x l).
Proof.
  unfold descending. induction 1 as [|y l Hl IH Hy]; simpl.
  - repeat constructor.
  - rewrite CompareLsn_le. destruct (Z.leb_spec y x).
    + constructor; [constructor; auto|].
      constructor; auto.
      rewrite Forall_forall in *. intros z Hz. specialize (Hy z Hz). lia.
    + constructor; auto.
      rewrite Forall_forall in *. intros z Hz.
      apply (Permutation_in _ (qsort_insert_perm _ _ _)) in Hz.
      destruct Hz as [<-|Hz]; [lia|auto].
Qed.

(** [qsort] with [CompareLsn] leaves the responses in descending order. *)
Lemma qsort_descending l : descending (qsort CompareLsn l).
Proof.
  induction l; simpl; [constructor|]. now apply qsort_insert_descending.
Qed.

Lemma descending_nth l i j :
  descending l -> (i <= j < length l)%nat -> nth j l 0 <= nth i l 0.
Proof.
  intros H; revert i j; induction H as [|x l Hl IH Hx]; simpl; intros i j Hij.
  - lia.
  - destruct j as [|j]; destruct i as [|i]; try lia.
    + rewrite Forall_forall in Hx. apply Hx, nth_In. lia.
    + apply IH. lia.
Qed.

Lemma count_ge_perm (v : Z) l l' :
  Permutation l l' ->
  length (filter (fun x => v <=? x) l) = length (filter (fun x => v <=? x) l').
Proof.
  induction 1; simpl; auto.
  - destruct (v <=? x); simpl; auto.
  - destruct (v <=? x), (v <=? y); simpl; auto.
  - congruence.
Qed.

Lemma count_ge_prefix l k :
  descending l -> (k < length l)%nat ->
  (k < length (filter (fun x => (nth k l 0%Z <=? x)%Z) l))%nat.
Proof.
  intros D. revert k. induction D as [|x l Hl IH Hx]; simpl; intros k Hk.
  - lia.
  - destruct k as [|k].
    + rewrite Z.leb_refl. simpl. lia.
    + assert (nth k l 0 <= x) by (rewrite Forall_forall in Hx; apply Hx, nth_In; lia).
      replace (nth k l 0 <=? x) with true by (symmetry; apply Z.leb_le; lia).
      simpl. specialize (IH k). lia.
Qed.

Lemma filter_map_length {A} (f : A -> Z) (p : Z -> bool) (l : list A) :
  length (filter (fun a => p (f a)) l) = length (filter p (map f l)).
Proof.
  induction l as [|a l IH]; simpl; auto. destruct (p (f a)); simpl; auto.
Qed.

(** The position returned is entry [N - Q] of the descending responses,
    that is, the [(N - Q + 1)]-th largest acknowledgement, and at least
    [N - Q + 1] safekeepers have reached it. *)
Lemma GetAcknowledgedWALPosition_rank (s : ProxyState) :
  1 <= quorum s <= n_safekeepers s ->
  GetAcknowledgedWALPosition s =
    nth (Z.to_nat (n_safekeepers s - quorum s))
        (qsort CompareLsn (map ackPos (safekeeper s))) 0 /\
  descending (qsort CompareLsn (map ackPos (safekeeper s))) /\
  Permutation (qsort CompareLsn (map ackPos (safekeeper s)))
              (map ackPos (safekeeper s)) /\
  n_safekeepers s - quorum s + 1 <=
    confirmations s (GetAcknowledgedWALPosition s).
Proof.
  intros Hq. split; [reflexivity|]. split; [apply qsort_descending|].
  split; [apply qsort_perm|].
  unfold confirmations, GetAcknowledgedWALPosition, n_safekeepers in *.
  set (l := map ackPos (safekeeper s)).
  set (k := Z.to_nat (Z.of_nat (length (safekeeper s)) - quorum s)).
  rewrite (filter_map_length ackPos (fun x => nth k (qsort CompareLsn l) 0 <=? x)).
  fold l.
  rewrite <- (count_ge_perm _ _ _ (qsort_perm CompareLsn l)).
  assert (Hk : (k < length (qsort CompareLsn l))%nat).
  { rewrite qsort_length. unfold l. rewrite length_map. unfold k. lia. }
  pose proof (count_ge_prefix _ k (qsort_descending l) Hk). unfold k in *. lia.
Qed.

Lemma filter_none {A} (f : A -> bool) (l : list A) :
  (forall x, In x l -> f x = false) -> filter f l = [].
Proof.
  induction l as [|x l IH]; simpl; intros H; auto.
  rewrite (H x) by auto. auto.
Qed.

Lemma count_ge_nth (v : Z) l k :
  descending l -> (k < length (filter (fun x => (v <=? x)%Z) l))%nat ->
  v <= nth k l 0.
Proof.
  intros D; revert k; induction D as [|x l Hl IH Hx]; simpl; intros k Hk.
  - lia.
  - destruct (Z.leb_spec v x) as [Hv|Hv]; simpl in Hk.
    + destruct k as [|k]; [assumption|]. apply IH. lia.
    + exfalso. rewrite filter_none in Hk; [simpl in Hk; lia|].
      rewrite Forall_forall in Hx.
      intros y Hy. specialize (Hx y Hy). apply Z.leb_gt. lia.
Qed.

Lemma count_ge_mono (v : Z) (l l' : list Z) :
  Forall2 Z.le l l' ->
  (length (filter (fun x => (v <=? x)%Z) l) <=
   length (filter (fun x => (v <=? x)%Z) l'))%nat.
Proof.
  induction 1 as [|x y l l' Hxy H IH]; simpl; auto.
  destruct (Z.leb_spec v x), (Z.leb_spec v y); simpl; lia.
Qed.

(** Rank statistics follow the acknowledgements upwards: if no
    safekeeper's [ackPos] is lower in [s'] than in [s], the quorum
    position is not lower either. *)
Lemma GetAcknowledgedWALPosition_monotone (s s' : ProxyState) :
  quorum s' = quorum s ->
  1 <= quorum s <= n_safekeepers s ->
  Forall2 (fun a b => ackPos a <= ackPos b) (safekeeper s) (safekeeper s') ->
  GetAcknowledgedWALPosition s <= GetAcknowledgedWALPosition s'.
Proof.
  intros Eq Hq H.
  assert (Hlen : length (safekeeper s') = length (safekeeper s))
    by (symmetry; eapply Forall2_length; eauto).
  unfold GetAcknowledgedWALPosition, n_safekeepers in *. rewrite Eq, Hlen.
  set (l := map ackPos (safekeeper s)).
  set (l' := map ackPos (safekeeper s')).
  set (k := Z.to_nat (Z.of_nat (length (safekeeper s)) - quorum s)).
  assert (Hk : (k < length (qsort CompareLsn l))%nat).
  { rewrite qsort_length. unfold l. rewrite length_map. unfold k. lia. }
  apply count_ge_nth; [apply qsort_descending|].
  rewrite (count_ge_perm _ _ _ (qsort_perm CompareLsn l')).
  pose proof (count_ge_prefix _ k (qsort_descending l) Hk) as Hc.
  rewrite (count_ge_perm _ _ _ (qsort_perm CompareLsn l)) in Hc.
  assert (F : Forall2 Z.le l l').
  { unfold l, l'. clear -H. induction H; simpl; constructor; auto. }
  pose proof (count_ge_mono (nth k (qsort CompareLsn l) 0) l l' F). lia.
Qed.

(** C2 (the code departs from the claim).  With two safekeepers and the
    quorum of two that [main] derives for them, acknowledgements 10 and 5
    make [GetAcknowledgedWALPosition] return 10, the first largest as the
    rank [N - Q + 1 = 1] says; yet a single safekeeper has confirmed 10,
    and the highest position that two have confirmed is 5. *)
Theorem GetAcknowledgedWALPosition_two_peers :
  CLI.check_quorum 0 (n_safekeepers Scenario.two_peers)
    = inr (quorum Scenario.two_peers) /\
  map ackPos (safekeeper Scenario.two_peers) = [10; 5] /\
  GetAcknowledgedWALPosition Scenario.two_peers = 10 /\
  confirmations Scenario.two_peers 10 = 1 /\
  confirmations Scenario.two_peers 5 = 2 /\
  confirmations Scenario.two_peers 10 < quorum Scenario.two_peers.
Proof.
  repeat split; reflexivity.
Qed.

(* ================================================================== *)
(** * The re-streamer's send size *)
(* ================================================================== *)

Lemma sendSize_mod (MAX flushLsn startpos : Z) :
  0 <= startpos <= flushLsn -> flushLsn < 2 ^ 64 ->
  sendSize MAX flushLsn startpos = Z.min ((flushLsn - startpos) mod 2 ^ 32) MAX.
Proof.
  intros H1 H2. unfold sendSize, uint32, uint64.
  rewrite (Z.mod_small (flushLsn - startpos) (2 ^ 64)) by lia. reflexivity.
Qed.

(** C8 (the code departs from the claim).  A client stands at a segment
    boundary exactly 4 GiB behind the flush position.  The exact minimum
    of the distance and [MAX_SEND_SIZE] is [MAX_SEND_SIZE], but the cast
    to [uint32] of line 304 is applied before the minimum and leaves 0:
    the pass reads nothing, emits a frame without payload and leaves
    [startpos] where it was, so every further pass does the same,
    however many there are.  And 100 bytes before the end of a segment,
    with the flush position in the next one, the size asked for is
    [MAX_SEND_SIZE] again, the segment file has 100 bytes left, [read]
    comes back short and the pass goes to [Epilogue] with nothing
    emitted. *)
Theorem sendSize_is_not_the_exact_minimum :
  Z.min (seen_flushLsn Lagging.far_ahead - ws_startpos Lagging.far_behind)
        Lagging.MAX_SEND_SIZE = Lagging.MAX_SEND_SIZE /\
  sendSize Lagging.MAX_SEND_SIZE (seen_flushLsn Lagging.far_ahead)
           (ws_startpos Lagging.far_behind) = 0 /\
  WalSenderPass Lagging.MAX_SEND_SIZE Lagging.walSegSize_
                Lagging.far_ahead Lagging.far_behind
  = Sends (mkFrame 16777216 (16777216 + 2 ^ 32) 0) Lagging.far_behind /\
  (forall n,
      WalSenderPasses Lagging.MAX_SEND_SIZE Lagging.walSegSize_
                      (repeat Lagging.far_ahead n) Lagging.far_behind
      = (repeat (mkFrame 16777216 (16777216 + 2 ^ 32) 0) n,
         Some Lagging.far_behind)) /\
  Z.min (seen_flushLsn Lagging.next_segment - ws_startpos Lagging.near_end)
        Lagging.MAX_SEND_SIZE = Lagging.MAX_SEND_SIZE /\
  file_length Lagging.next_segment
  - XLogSegmentOffset (ws_startpos Lagging.near_end) Lagging.walSegSize_ = 100 /\
  WalSenderPass Lagging.MAX_SEND_SIZE Lagging.walSegSize_
                Lagging.next_segment Lagging.near_end = Epilogue.
Proof.
  assert (P : WalSenderPass Lagging.MAX_SEND_SIZE Lagging.walSegSize_
                            Lagging.far_ahead Lagging.far_behind
              = Sends (mkFrame 16777216 (16777216 + 2 ^ 32) 0) Lagging.far_behind)
    by (vm_compute; reflexivity).
  split; [vm_compute; reflexivity|]. split; [vm_compute; reflexivity|].
  split; [exact P|]. split.
  - induction n as [|n IH]; [reflexivity|].
    cbn [repeat WalSenderPasses]. rewrite P, IH. reflexivity.
  - repeat split; vm_compute; reflexivity.
Qed.

(* ================================================================== *)
(** * The command line *)
(* ================================================================== *)

(** Lines 696-704 by themselves: a zero [quorum] is replaced by the
    majority, any other value has to lie between the majority and the
    number of safekeepers. *)
Lemma check_quorum_spec (q n : Z) :
  1 <= n ->
  (q = 0 -> CLI.check_quorum q n = inr (Z.quot n 2 + 1)) /\
  (q <> 0 -> Z.quot n 2 + 1 <= q <= n -> CLI.check_quorum q n = inr q) /\
  (q <> 0 -> ~ (Z.quot n 2 + 1 <= q <= n) -> CLI.check_quorum q n = inl 1).
Proof.
  intros Hn. unfold CLI.check_quorum.
  destruct (Z.ltb_spec n 1); [lia|].
  destruct (Z.eqb_spec q 0); repeat split; intros; try lia; try reflexivity.
  - destruct (Z.ltb_spec q (Z.quot n 2 + 1)); simpl; [lia|].
    destruct (Z.gtb_spec q n); [lia|reflexivity].
  - destruct (Z.ltb_spec q (Z.quot n 2 + 1)); simpl; [reflexivity|].
    destruct (Z.gtb_spec q n); [reflexivity|lia].
Qed.

(** Whatever the command line, the quorum [main] goes on with is the
    majority of the safekeepers listed: there is no way to give it. *)
Lemma main_quorum_is_majority (M : Z) argv q peers :
  CLI.main M argv = CLI.Proceeds q peers ->
  q = Z.quot (Z.of_nat (length peers)) 2 + 1.
Proof.
  unfold CLI.main. destruct argv as [|a argv'].
  - simpl. discriminate.
  - match goal with |- (if ?b then _ else _) = _ -> _ => destruct b end;
      [discriminate|].
    destruct (CLI.option_loop _ _ _) as [c|[o [|w ws]]]; try discriminate.
    destruct (CLI.parse_safekeepers _ _ _ _) as [c|ps]; try discriminate.
    unfold CLI.check_quorum.
    destruct (Z.of_nat (length ps) <? 1); try discriminate.
    simpl. intros H; inversion H; subst. reflexivity.
Qed.

(** C9 (the code departs from the claim).  [-q 2] and [--quorum=2] in
    front of three safekeepers end in exit status 1, because neither the
    option string nor the table of long options knows the option that
    [usage] advertises; the same list without it is accepted with the
    majority 2.  A list of 64 addresses is refused and one of 63 accepted,
    for a table declared with the 64 entries of the specification. *)
Theorem main_has_no_quorum_option :
  CLI.main CLI.MAX_SAFEKEEPERS Scenario.with_short_quorum = CLI.Exits 1 /\
  CLI.main CLI.MAX_SAFEKEEPERS Scenario.with_long_quorum = CLI.Exits 1 /\
  CLI.main CLI.MAX_SAFEKEEPERS Scenario.without_quorum
    = CLI.Proceeds 2 Scenario.three_peers /\
  CLI.optstring_lookup "q"%char CLI.optstring = None /\
  CLI.main CLI.MAX_SAFEKEEPERS (Scenario.many 64) = CLI.Exits 1 /\
  (exists peers,
      CLI.main CLI.MAX_SAFEKEEPERS (Scenario.many 63) = CLI.Proceeds 32 peers /\
      length peers = 63%nat).
Proof.
  repeat split; try reflexivity.
  eexists. split; vm_compute; reflexivity.
Qed.

(* ================================================================== *)
(** * Start of streaming *)
(* ================================================================== *)

Lemma replace_nth_length {A} i (x : A) l : length (replace_nth i x l) = length l.
Proof.
  revert i; induction l as [|y l IH]; intros [|i]; simpl; auto.
Qed.

Lemma map_replace_nth {A B} (f : A -> B) i x y l :
  nth_error l i = Some y -> f x = f y ->
  map f (replace_nth i x l) = map f l.
Proof.
  revert i; induction l as [|z l IH]; intros [|i]; simpl; try discriminate.
  - intros [= ->] ->. reflexivity.
  - intros H E. f_equal. eauto.
Qed.

Lemma nth_error_replace_nth {A} i j (x : A) l :
  nth_error (replace_nth i x l) j =
    if (j =? i)%nat then option_map (fun _ => x) (nth_error l j)
    else nth_error l j.
Proof.
  revert i j; induction l as [|y l IH]; intros [|i] [|j]; simpl; auto.
  destruct (j =? i)%nat; reflexivity.
Qed.

Lemma qsort_in_range (P : Z -> Prop) l k :
  P 0 -> Forall P l -> P (nth k (qsort CompareLsn l) 0).
Proof.
  intros H0 Hl.
  destruct (Nat.lt_ge_cases k (length (qsort CompareLsn l))) as [Hk|Hk].
  - rewrite Forall_forall in Hl. apply Hl.
    apply (Permutation_in _ (qsort_perm CompareLsn l)), nth_In, Hk.
  - rewrite nth_overflow; auto.
Qed.

Lemma GetAcknowledgedWALPosition_range (s : ProxyState) :
  Forall (fun sk => 0 <= ackPos sk < 2 ^ 64) (safekeeper s) ->
  0 <= GetAcknowledgedWALPosition s < 2 ^ 64.
Proof.
  intros H. unfold GetAcknowledgedWALPosition.
  apply (qsort_in_range (fun v => 0 <= v < 2 ^ 64)); [lia|].
  rewrite Forall_map. exact H.
Qed.

(** The position passed to START_REPLICATION, without the wrap-around
    of the 64-bit subtraction. *)
Lemma StartReplication_startpos_eq (s : ProxyState) :
  0 < walSegSize (serverInfo s) ->
  0 <= walEnd (serverInfo s) < 2 ^ 64 ->
  Forall (fun sk => 0 <= ackPos sk < 2 ^ 64) (safekeeper s) ->
  StartReplication_startpos s =
    let p := if GetAcknowledgedWALPosition s =? 0
             then walEnd (serverInfo s) else GetAcknowledgedWALPosition s in
    p - p mod walSegSize (serverInfo s).
Proof.
  intros Hseg Hend Hack.
  pose proof (GetAcknowledgedWALPosition_range s Hack) as Hq.
  unfold StartReplication_startpos, XLogSegmentOffset, uint64. cbv zeta.
  set (p := if GetAcknowledgedWALPosition s =? 0 then _ else _).
  assert (0 <= p < 2 ^ 64) by (unfold p; destruct (_ =? 0); lia).
  pose proof (Z.mod_pos_bound p _ Hseg).
  assert (p mod walSegSize (serverInfo s) <= p) by (apply Z.mod_le; lia).
  apply Z.mod_small. lia.
Qed.

Lemma StartReplication_startpos_put i sk' sk v (s : ProxyState) :
  nth_error (safekeeper s) i = Some sk -> ackPos sk' = ackPos sk ->
  StartReplication_startpos (with_votes v (put_safekeeper i sk' s))
    = StartReplication_startpos s.
Proof.
  intros Hnth E.
  unfold StartReplication_startpos, GetAcknowledgedWALPosition, n_safekeepers.
  cbn [safekeeper with_votes put_safekeeper with_safekeeper quorum serverInfo].
  rewrite replace_nth_length.
  rewrite (map_replace_nth ackPos i _ sk) by auto.
  reflexivity.
Qed.

(** C1, counterexample.  A safekeeper that has acknowledged one segment
    while the primary stands at the end of the second: streaming starts
    at the safekeeper's position, not at the greater of the two. *)
Lemma StartReplication_not_max :
  StartReplication_startpos Scenario.behind = 16777216 /\
  startpos_spec Scenario.behind = 33554432 /\
  StartReplication_startpos Scenario.behind <> startpos_spec Scenario.behind /\
  snd (handle_peer Scenario.K (Scenario.only 0 (Readable Scenario.echo)) 0
                   Scenario.last_vote)
    = [SentStartReplication 16777216 1] /\
  startpos_spec Scenario.last_vote = 33554432.
Proof.
  repeat split; try reflexivity. vm_compute. discriminate.
Qed.

(** C1, amended.  When the read that completes a safekeeper's verdict
    makes [n_votes] equal to the quorum, the proxy sends
    START_REPLICATION at [startpos - startpos mod segSize], where
    [startpos] is [GetAcknowledgedWALPosition()] if that is not zero and
    [serverInfo.walEnd] if it is. *)
Theorem StartReplication_on_last_vote
        (K : Constants) (ready : nat -> option Ready) (i : nat) (e : Env)
        (sk : Safekeeper) (s : ProxyState) :
  nth_error (safekeeper s) i = Some sk ->
  sock sk = true ->
  state sk = SS_WAIT_VERDICT ->
  ready i = Some (Readable e) ->
  0 <= fst (ReadSocketAsync (Z.to_nat (sizeof_NodeId - asyncOffs sk)) (rd e)) ->
  asyncOffs sk + fst (ReadSocketAsync (Z.to_nat (sizeof_NodeId - asyncOffs sk)) (rd e))
    = sizeof_NodeId ->
  CompareNodeId (nodeId (rd_info e)) (maxNodeId s) = 0 ->
  n_votes s + 1 = quorum s ->
  0 < walSegSize (serverInfo s) ->
  0 <= walEnd (serverInfo s) < 2 ^ 64 ->
  Forall (fun sk => 0 <= ackPos sk < 2 ^ 64) (safekeeper s) ->
  snd (handle_peer K ready i s) =
    [SentStartReplication
       (let startpos := if GetAcknowledgedWALPosition s =? 0
                        then walEnd (serverInfo s)
                        else GetAcknowledgedWALPosition s in
        startpos - startpos mod walSegSize (serverInfo s))
       (timeline (serverInfo s))].
Proof.
  intros Hnth Hsock Hst Hr Hrc Hfull Hcmp Hvotes Hseg Hend Hack.
  rewrite <- (StartReplication_startpos_eq s Hseg Hend Hack).
  unfold handle_peer. rewrite Hnth, Hsock, Hr. simpl.
  unfold on_readable. rewrite Hst.
  destruct (Z.ltb_spec (fst (ReadSocketAsync (Z.to_nat (sizeof_NodeId - asyncOffs sk)) (rd e))) 0);
    [lia|].
  cbn [asyncOffs set_asyncOffs]. rewrite Hfull, Z.eqb_refl.
  cbn [info set_info nodeId set_nodeId]. rewrite Hcmp. cbn [Z.eqb negb].
  cbn [n_votes with_votes quorum put_safekeeper with_safekeeper].
  rewrite Hvotes, Z.eqb_refl.
  unfold StartReplication.
  destruct (repl_ok e); cbn [snd];
    rewrite (StartReplication_startpos_put i _ sk) by (auto; reflexivity);
    reflexivity.
Qed.

Lemma StartReplication_on_last_vote_witness :
  snd (handle_peer Scenario.K (Scenario.only 0 (Readable Scenario.echo)) 0
                   Scenario.last_vote)
  = [SentStartReplication
       (let startpos :=
          if GetAcknowledgedWALPosition Scenario.last_vote =? 0
          then walEnd (serverInfo Scenario.last_vote)
          else GetAcknowledgedWALPosition Scenario.last_vote in
        startpos - startpos mod walSegSize (serverInfo Scenario.last_vote))
       (timeline (serverInfo Scenario.last_vote))].
Proof.
  apply (StartReplication_on_last_vote Scenario.K
           (Scenario.only 0 (Readable Scenario.echo)) 0 Scenario.echo
           (mkSafekeeper true false SS_WAIT_VERDICT 0
              (Scenario.peer_info 16777216 0) 16777216 None)
           Scenario.last_vote);
    try (repeat constructor); vm_compute; try reflexivity;
    try discriminate; split; try reflexivity; discriminate.
Defined.

(* ================================================================== *)
(** * Facts about the handlers *)
(* ================================================================== *)

Ltac break_match :=
  match goal with
  | |- context [match ?x with _ => _ end] => destruct x eqn:?
  | H : context [match ?x with _ => _ end] |- _ => destruct x eqn:?
  end.

Ltac inv_pair :=
  match goal with
  | H : (_, _) = (_, _) |- _ => inversion H; subst; clear H
  end.

Lemma currMsg_ResetConnection c sk : currMsg (ResetConnection c sk) = currMsg sk.
Proof.
  revert sk; induction c; intros sk; simpl;
    destruct (SafekeeperState_eqb (state sk) SS_OFFLINE); simpl; auto;
    rewrite IHc; reflexivity.
Qed.

Lemma ackPos_ResetConnection c sk : ackPos (ResetConnection c sk) = ackPos sk.
Proof.
  revert sk; induction c; intros sk; simpl;
    destruct (SafekeeperState_eqb (state sk) SS_OFFLINE); simpl; auto;
    rewrite IHc; reflexivity.
Qed.

Lemma map_mapi_from {A B} (g : A -> B) (f : nat -> A -> A) k l :
  (forall j x, g (f j x) = g x) -> map g (mapi_from f k l) = map g l.
Proof.
  intros H; revert k; induction l as [|x l IH]; intros k; simpl; auto.
  rewrite H, IH. reflexivity.
Qed.

Lemma currMsg_BroadcastMessage_peer e msg j sk :
  currMsg (BroadcastMessage_peer e msg j sk) = currMsg sk.
Proof.
  unfold BroadcastMessage_peer. repeat break_match; simpl; auto.
  apply currMsg_ResetConnection.
Qed.

Lemma currMsg_vote_peer e j sk : currMsg (vote_peer e j sk) = currMsg sk.
Proof.
  unfold vote_peer. repeat break_match; simpl; auto.
  apply currMsg_ResetConnection.
Qed.

(** [BroadcastMessage] hands the message to the idle sessions without
    storing it in any of them. *)
Lemma BroadcastMessage_currMsgs e msg s :
  currMsgs (BroadcastMessage e msg s) = currMsgs s.
Proof.
  unfold currMsgs, BroadcastMessage. simpl.
  apply map_mapi_from. intros. apply currMsg_BroadcastMessage_peer.
Qed.

Lemma currMsgs_put i sk' sk s :
  nth_error (safekeeper s) i = Some sk -> currMsg sk' = currMsg sk ->
  currMsgs (put_safekeeper i sk' s) = currMsgs s.
Proof.
  intros. unfold currMsgs. simpl. eapply map_replace_nth; eauto.
Qed.

Lemma HandleSafekeeperResponse_safekeeper e s ok s' out :
  HandleSafekeeperResponse e s = (ok, s', out) -> safekeeper s' = safekeeper s.
Proof.
  unfold HandleSafekeeperResponse. repeat break_match; intros; inv_pair; reflexivity.
Qed.

Section Invariants.

Variable K : Constants.

Lemma on_readable_currMsgs e i sk s s' out :
  nth_error (safekeeper s) i = Some sk ->
  on_readable K e i sk s = (Running s', out) -> currMsgs s' = currMsgs s.
Proof.
  intros Hnth. unfold on_readable. cbv zeta.
  repeat break_match; intros; inv_pair;
    try match goal with
        | H : HandleSafekeeperResponse _ _ = _ |- _ =>
            apply HandleSafekeeperResponse_safekeeper in H;
            unfold currMsgs; simpl; rewrite H; simpl; fold (currMsgs s)
        end;
    try (unfold currMsgs; simpl; rewrite map_mapi_from
           by (intros; apply currMsg_vote_peer));
    try (eapply (map_replace_nth currMsg); [eassumption|]);
    try (eapply currMsgs_put; [eassumption|]);
    simpl; rewrite ?currMsg_ResetConnection; reflexivity.
Qed.

Lemma on_writable_currMsgs e i sk s s' out :
  nth_error (safekeeper s) i = Some sk ->
  on_writable e i sk s = (Running s', out) -> currMsgs s' = currMsgs s.
Proof.
  intros Hnth. unfold on_writable. cbv zeta.
  repeat break_match; intros; inv_pair;
    (eapply currMsgs_put; [eassumption|]);
    simpl; rewrite ?currMsg_ResetConnection; reflexivity.
Qed.

Lemma on_server_currMsgs copybuf e s :
  currMsgs (on_server K copybuf e s) = currMsgs s.
Proof.
  unfold on_server. repeat break_match; try reflexivity.
  rewrite BroadcastMessage_currMsgs. reflexivity.
Qed.

(** Induction principles: a property of the proxy state kept by the
    three handlers is kept by a pass of the loop and by a run. *)
Lemma for_peers_invariant (P : ProxyState -> Prop) :
  (forall e i sk s s' out, P s -> nth_error (safekeeper s) i = Some sk ->
      on_readable K e i sk s = (Running s', out) -> P s') ->
  (forall e i sk s s' out, P s -> nth_error (safekeeper s) i = Some sk ->
      on_writable e i sk s = (Running s', out) -> P s') ->
  forall ready idx s s' out,
    P s -> for_peers K ready idx s = (Running s', out) -> P s'.
Proof.
  intros Hr Hw ready idx. induction idx as [|i idx IH]; simpl; intros s s' out HP.
  - intros; inv_pair; assumption.
  - destruct (handle_peer K ready i s) as [[s1| |] out1] eqn:Hh; try discriminate.
    destruct (for_peers K ready idx s1) as [o out2] eqn:Hf.
    intros; inv_pair. eapply IH; [|eassumption].
    unfold handle_peer in Hh. repeat break_match; try inv_pair; eauto.
Qed.

Lemma iteration_invariant (P : ProxyState -> Prop) :
  (forall e i sk s s' out, P s -> nth_error (safekeeper s) i = Some sk ->
      on_readable K e i sk s = (Running s', out) -> P s') ->
  (forall e i sk s s' out, P s -> nth_error (safekeeper s) i = Some sk ->
      on_writable e i sk s = (Running s', out) -> P s') ->
  (forall copybuf e s, P s -> P (on_server K copybuf e s)) ->
  forall ev s s' out, P s -> iteration K ev s = (Running s', out) -> P s'.
Proof.
  intros Hr Hw Hs ev s s' out HP. unfold iteration.
  destruct (streaming s || _); [|discriminate].
  destruct ev as [|copybuf e|ready]; [discriminate| |].
  - destruct (serverInReadSet s); intros; inv_pair; auto.
  - apply for_peers_invariant; auto.
Qed.


(** No pass of the loop assigns a [currMsg] field. *)
Lemma iteration_currMsgs ev s s' out :
  iteration K ev s = (Running s', out) -> currMsgs s' = currMsgs s.
Proof.
  apply (iteration_invariant (fun x => currMsgs x = currMsgs s)); auto.
  - intros * HP Hn H. rewrite <- HP. eapply on_readable_currMsgs; eauto.
  - intros * HP Hn H. rewrite <- HP. eapply on_writable_currMsgs; eauto.
  - intros * HP. rewrite <- HP. apply on_server_currMsgs.
Qed.


End Invariants.

(* ================================================================== *)
(** * Feedback to the primary *)
(* ================================================================== *)

Lemma be_bytes_length n v : length (be_bytes n v) = n.
Proof. induction n; simpl; auto. Qed.

Lemma be_value_acc (bs : list Z) (acc : Z) :
  fold_left (fun a b => a * 256 + b) bs acc
  = acc * 256 ^ Z.of_nat (length bs) + be_value bs.
Proof.
  unfold be_value. revert acc. induction bs as [|b bs IH]; intros acc.
  - simpl. lia.
  - cbn [fold_left length]. rewrite IH, (IH (0 * 256 + b)).
    rewrite Nat2Z.inj_succ, Z.pow_succ_r by lia. ring.
Qed.

Lemma be_value_bytes (n : nat) (v : Z) :
  be_value (be_bytes n v) = v mod 256 ^ Z.of_nat n.
Proof.
  induction n as [|n IH].
  - simpl. now rewrite Z.mod_1_r.
  - cbn [be_bytes]. unfold be_value. cbn [fold_left].
    rewrite be_value_acc, IH, be_bytes_length.
    rewrite Nat2Z.inj_succ, Z.pow_succ_r by lia.
    rewrite (Z.mul_comm 256), Z.rem_mul_r by lia. ring.
Qed.

(** Encoding and decoding a 64-bit position on the wire is the identity. *)
Lemma fe_recvint64_sendint64 (v : Z) :
  0 <= v < 2 ^ 64 -> fe_recvint64 (fe_sendint64 v) = v.
Proof.
  intros H. unfold fe_recvint64, fe_sendint64.
  rewrite firstn_all2 by (rewrite be_bytes_length; lia).
  rewrite be_value_bytes. apply Z.mod_small. exact H.
Qed.

(** An acknowledgement read in one piece leaves in [ackPos] the value
    the safekeeper sent, on either byte order; only a read that stops
    part-way leaves something else there. *)
Lemma whole_read_stores_value (be : bool) (old v : Z) :
  0 <= v < 2 ^ 64 ->
  host_value be (poke (host_bytes be old) 0 (host_bytes be v)) = v.
Proof.
  intros H.
  assert (E : poke (host_bytes be old) 0 (host_bytes be v) = host_bytes be v).
  { unfold poke. rewrite firstn_O. cbn [app].
    rewrite skipn_all2, app_nil_r; [reflexivity|].
    unfold host_bytes. destruct be; rewrite ?length_rev, !be_bytes_length; lia. }
  rewrite E. unfold host_value, host_bytes.
  destruct be; rewrite ?rev_involutive, be_value_bytes; apply Z.mod_small; exact H.
Qed.

Lemma SendFeedback_length blockpos t rr : length (SendFeedback blockpos t rr) = 34%nat.
Proof.
  unfold SendFeedback, fe_sendint64.
  rewrite !length_app, !be_bytes_length. reflexivity.
Qed.

Lemma feedback_lsns_app out1 out2 :
  feedback_lsns (out1 ++ out2) = feedback_lsns out1 ++ feedback_lsns out2.
Proof.
  induction out1 as [|[? ?|? ?] out1 IH]; simpl; auto. rewrite IH. reflexivity.
Qed.

Lemma Forall_nth_error {A} (P : A -> Prop) l i x :
  Forall P l -> nth_error l i = Some x -> P x.
Proof.
  intros H Hn. rewrite Forall_forall in H. apply H.
  eapply nth_error_In. eassumption.
Qed.

Lemma currMsgs_start q n si junk conn :
  Forall (fun c => c = None) (currMsgs (BroadcastWalStream_start q n si junk conn)).
Proof.
  unfold currMsgs. cbn [safekeeper BroadcastWalStream_start].
  rewrite map_mapi_from by (intros; apply currMsg_ResetConnection).
  apply Forall_forall. intros c Hc. apply in_map_iff in Hc.
  destruct Hc as (sk & <- & Hsk). apply repeat_spec in Hsk. subst sk. reflexivity.
Qed.

Lemma currMsg_of_session s i sk :
  Forall (fun c => c = None) (currMsgs s) ->
  nth_error (safekeeper s) i = Some sk -> currMsg sk = None.
Proof.
  intros Hall Hn.
  apply (Forall_nth_error _ _ i (currMsg sk) Hall).
  unfold currMsgs. rewrite nth_error_map, Hn. reflexivity.
Qed.

Section NullCurrMsg.

Variable K : Constants.

(** With a null [currMsg] the handler of a readable socket never gets as
    far as [HandleSafekeeperResponse]: whatever it returns, it has sent
    no feedback. *)
Lemma on_readable_no_feedback e i sk s :
  currMsg sk = None -> feedback_lsns (snd (on_readable K e i sk s)) = [].
Proof.
  intros Hc. unfold on_readable, StartReplication. cbv zeta.
  destruct (state sk); try (repeat break_match; reflexivity).
  destruct (ReadSocketAsync _ _) as [rc bytes].
  cbn [currMsg set_asyncOffs set_ackPos]. rewrite Hc.
  repeat break_match; reflexivity.
Qed.

Lemma on_writable_no_output e i sk s : snd (on_writable e i sk s) = [].
Proof.
  unfold on_writable. cbv zeta. repeat break_match; reflexivity.
Qed.

Lemma handle_peer_no_feedback ready i s :
  Forall (fun c => c = None) (currMsgs s) ->
  feedback_lsns (snd (handle_peer K ready i s)) = [].
Proof.
  intros Hall. unfold handle_peer.
  destruct (nth_error (safekeeper s) i) as [sk|] eqn:Hn; [|reflexivity].
  destruct (sock sk); cbn [negb]; [|reflexivity].
  destruct (ready i) as [[e|e]|]; [| |reflexivity].
  - apply on_readable_no_feedback. eapply currMsg_of_session; eassumption.
  - destruct (inWriteSet sk); [|reflexivity].
    rewrite on_writable_no_output. reflexivity.
Qed.

Lemma handle_peer_currMsgs ready i s s' out :
  handle_peer K ready i s = (Running s', out) -> currMsgs s' = currMsgs s.
Proof.
  unfold handle_peer.
  destruct (nth_error (safekeeper s) i) as [sk|] eqn:Hn;
    [|intros; inv_pair; reflexivity].
  destruct (sock sk); cbn [negb]; [|intros; inv_pair; reflexivity].
  destruct (ready i) as [[e|e]|]; [| |intros; inv_pair; reflexivity].
  - apply on_readable_currMsgs. exact Hn.
  - destruct (inWriteSet sk); [|intros; inv_pair; reflexivity].
    apply on_writable_currMsgs. exact Hn.
Qed.

Lemma for_peers_no_feedback ready idx s :
  Forall (fun c => c = None) (currMsgs s) ->
  feedback_lsns (snd (for_peers K ready idx s)) = [].
Proof.
  revert s. induction idx as [|i idx IH]; intros s Hall; [reflexivity|].
  cbn [for_peers].
  pose proof (handle_peer_no_feedback ready i s Hall) as H1.
  destruct (handle_peer K ready i s) as [[s1| |] out1] eqn:Hh;
    cbn [snd] in *; try exact H1.
  assert (Hall1 : Forall (fun c => c = None) (currMsgs s1))
    by (rewrite (handle_peer_currMsgs _ _ _ _ _ Hh); exact Hall).
  specialize (IH s1 Hall1).
  destruct (for_peers K ready idx s1) as [o out2]. cbn [snd] in *.
  rewrite feedback_lsns_app, H1, IH. reflexivity.
Qed.

Lemma iteration_no_feedback ev s :
  Forall (fun c => c = None) (currMsgs s) ->
  feedback_lsns (snd (iteration K ev s)) = [].
Proof.
  intros Hall. unfold iteration.
  destruct (streaming s || _); [|reflexivity].
  destruct ev as [|copybuf e|ready]; [reflexivity| |].
  - destruct (serverInReadSet s); reflexivity.
  - apply for_peers_no_feedback. exact Hall.
Qed.

Lemma run_no_feedback evs s :
  Forall (fun c => c = None) (currMsgs s) ->
  feedback_lsns (snd (run K evs s)) = [].
Proof.
  revert s. induction evs as [|ev evs IH]; intros s Hall; [reflexivity|].
  cbn [run].
  pose proof (iteration_no_feedback ev s Hall) as H1.
  destruct (iteration K ev s) as [[s1| |] out1] eqn:Hh;
    cbn [snd] in *; try exact H1.
  assert (Hall1 : Forall (fun c => c = None) (currMsgs s1))
    by (rewrite (iteration_currMsgs _ _ _ _ _ Hh); exact Hall).
  specialize (IH s1 Hall1).
  destruct (run K evs s1) as [o out2]. cbn [snd] in *.
  rewrite feedback_lsns_app, H1, IH. reflexivity.
Qed.

End NullCurrMsg.

(** C6 (the code departs from the claim).  No status update is ever
    sent to the primary: on every run of the loop from the start of
    [BroadcastWalStream], whatever the events and however the run ends,
    the output holds no feedback.  On the run in which one safekeeper
    (quorum 1) reports 255 in its handshake, echoes the term, receives
    the primary's record and acknowledges 256, the session is awaiting
    that acknowledgement with [lastAckPos] 0 and the quorum position
    already at 255; the claim has a status update follow the
    acknowledgement, but the complete acknowledgement dereferences the
    null [currMsg] at line 527, three lines before the call of
    [HandleSafekeeperResponse], and START_REPLICATION remains the only
    thing the primary was ever sent. *)
Theorem no_feedback_follows_an_acknowledgement :
  (forall K q n si junk conn evs,
      feedback_lsns
        (snd (run K evs (BroadcastWalStream_start q n si junk conn))) = []) /\
  Scenario.still_running Scenario.K Scenario.opening = true /\
  map state (safekeeper (Scenario.state_after Scenario.K Scenario.opening))
    = [SS_RECV_ACK] /\
  lastAckPos (Scenario.state_after Scenario.K Scenario.opening) = 0 /\
  GetAcknowledgedWALPosition (Scenario.state_after Scenario.K Scenario.opening)
    = 255 /\
  run Scenario.K (Scenario.opening ++ [Scenario.whole_ack 256]) Scenario.start1
    = (Fault, [SentStartReplication 0 1]).
Proof.
  split.
  - intros. apply run_no_feedback. apply currMsgs_start.
  - repeat split; vm_compute; reflexivity.
Qed.

(* ================================================================== *)
(** * Acknowledgement bits and pruning *)
(* ================================================================== *)

Lemma shl1_small (n : Z) : 0 <= n < 32 -> shl1 n = 2 ^ n.
Proof.
  intros Hn. unfold shl1. rewrite Z.mod_small by lia. apply Z.shiftl_1_l.
Qed.





Lemma testbit_set_same (mask : Z) (i : nat) :
  (i < 32)%nat ->
  Z.testbit (Z.lor mask (shl1 (Z.of_nat i))) (Z.of_nat i) = true.
Proof.
  intros Hi. rewrite shl1_small by lia.
  rewrite Z.lor_spec, Z.pow2_bits_eqb by lia.
  rewrite Z.eqb_refl. apply orb_true_r.
Qed.




Section Pruning.

Variable K : Constants.











End Pruning.



Section Kept.

Variable K : Constants.



End Kept.


(* ================================================================== *)
(** * The acknowledgement path on concrete runs *)
(* ================================================================== *)

(** C7 (the code departs from the claim).  One safekeeper, idle after
    its vote; the primary's record is broadcast to it and the session
    moves to [SS_RECV_ACK], but its [currMsg] is still null while the
    record sits in the queue; the complete acknowledgement then
    dereferences that null pointer (line 527).  No handler assigns the
    field at all: [BroadcastMessage_currMsgs], [run_currMsgs]. *)
Theorem BroadcastMessage_does_not_set_currMsg :
  map state (safekeeper (Scenario.state_after Scenario.K (firstn 2 Scenario.opening)))
    = [SS_IDLE] /\
  Scenario.still_running Scenario.K Scenario.opening = true /\
  map state (safekeeper (Scenario.state_after Scenario.K Scenario.opening))
    = [SS_RECV_ACK] /\
  map addr (msgQueue (Scenario.state_after Scenario.K Scenario.opening)) = [0%nat] /\
  currMsgs (Scenario.state_after Scenario.K Scenario.opening) = [None] /\
  fst (run Scenario.K (Scenario.opening ++ [Scenario.whole_ack 256]) Scenario.start1)
    = Fault.
Proof.
  repeat split; vm_compute; reflexivity.
Qed.

(** C4 (the code departs from the claim).  The safekeeper reports 255 in
    its handshake and then acknowledges 256: what it delivers does not
    decrease.  On a little-endian host the first byte of the
    acknowledgement, read alone into the [ackPos] field, leaves 0 there,
    and the quorum position falls from 255 to 0.  On a big-endian host
    seven bytes leave 511 there; when the connection then breaks and the
    safekeeper repeats its handshake with 256, the quorum position falls
    from 511 to 256. *)
Theorem quorum_lsn_follows_partial_reads :
  Scenario.still_running Scenario.K (Scenario.opening ++ [Scenario.first_byte]) = true /\
  GetAcknowledgedWALPosition (Scenario.state_after Scenario.K Scenario.opening) = 255 /\
  GetAcknowledgedWALPosition
    (Scenario.state_after Scenario.K (Scenario.opening ++ [Scenario.first_byte])) = 0 /\
  Scenario.still_running Scenario.K_be
    (Scenario.opening ++ [Scenario.seven_bytes] ++ Scenario.reconnected) = true /\
  GetAcknowledgedWALPosition (Scenario.state_after Scenario.K_be Scenario.opening) = 255 /\
  GetAcknowledgedWALPosition
    (Scenario.state_after Scenario.K_be (Scenario.opening ++ [Scenario.seven_bytes])) = 511 /\
  GetAcknowledgedWALPosition
    (Scenario.state_after Scenario.K_be
       (Scenario.opening ++ [Scenario.seven_bytes] ++ Scenario.reconnected)) = 256.
Proof.
  repeat split; vm_compute; reflexivity.
Qed.

(* ================================================================== *)
(** * The socket loops of utils.c *)
(* ================================================================== *)

Lemma ReadSocketAsync_calls_inv calls size buf0 rc buf :
  (length buf0 <= size)%nat ->
  ReadSocketAsync_calls calls size buf0 = Some (rc, buf) ->
  (length buf <= size)%nat /\
  (rc = -1 \/ rc = Z.of_nat (length buf)) /\
  exists more, buf = buf0 ++ more /\ exists rest, received calls = more ++ rest.
Proof.
  revert buf0. induction calls as [|c calls IH]; intros buf0 Hlen; simpl.
  - destruct (Nat.eqb_spec size (length buf0)); [|discriminate].
    intros [= <- <-]. split; [lia|]. split; [auto|].
    exists []. rewrite app_nil_r. split; auto. exists []. reflexivity.
  - destruct (Nat.eqb_spec size (length buf0)).
    + intros [= <- <-]. split; [lia|]. split; [auto|].
      exists []. rewrite app_nil_r. split; auto. eexists. reflexivity.
    + destruct c as [bs|[]].
      * intros H. apply IH in H.
        2:{ rewrite length_app, length_firstn. lia. }
        destruct H as (H1 & H2 & more & -> & rest & Hr).
        split; [exact H1|]. split; [exact H2|].
        exists (firstn (size - length buf0) bs ++ more).
        rewrite <- app_assoc. split; [reflexivity|].
        destruct (Nat.le_gt_cases (length bs) (size - length buf0)) as [Hb|Hb].
        -- rewrite firstn_all2 by exact Hb. exists rest.
           rewrite Hr, app_assoc. reflexivity.
        -- (* the buffer is full after this call: nothing more is stored *)
           assert (Hfull : length (buf0 ++ firstn (size - length buf0) bs) = size).
           { rewrite length_app, length_firstn. lia. }
           assert (more = []).
           { rewrite length_app, Hfull in H1. destruct more; [reflexivity|].
             simpl in H1. lia. }
           subst more. rewrite app_nil_r.
           exists (skipn (size - length buf0) bs ++ received calls).
           rewrite app_assoc, firstn_skipn. reflexivity.
      * intros H. apply IH in H; [|exact Hlen].
        destruct H as (H1 & H2 & more & -> & rest & Hr). eauto 10.
      * intros [= <- <-]. split; [lia|]. split; [auto|].
        exists []. rewrite app_nil_r. split; auto. eexists. reflexivity.
      * intros [= <- <-]. split; [lia|]. split; [auto|].
        exists []. rewrite app_nil_r. split; auto. eexists. reflexivity.
Qed.

(** X1.  Whenever [ReadSocketAsync] returns, it returns -1 or the number
    of bytes it has stored; that number never exceeds the size asked
    for, and the bytes stored are the first bytes the socket delivered,
    in order. *)
Theorem ReadSocketAsync_stores_prefix (calls : list RecvCall) (size : nat)
        (rc : Z) (buf : list Z) :
  ReadSocketAsync_calls calls size [] = Some (rc, buf) ->
  (length buf <= size)%nat /\
  (rc = -1 \/ rc = Z.of_nat (length buf)) /\
  buf = firstn (length buf) (received calls).
Proof.
  intros H. apply ReadSocketAsync_calls_inv in H; [|simpl; lia].
  destruct H as (H1 & H2 & more & E & rest & Hr). simpl in E. subst more.
  split; [exact H1|]. split; [exact H2|].
  rewrite Hr, firstn_app, Nat.sub_diag, firstn_O, app_nil_r, firstn_all.
  reflexivity.
Qed.

Lemma ReadSocketAsync_stores_prefix_witness :
  (length [1; 2; 3] <= 4)%nat /\
  (3 = -1 \/ 3 = Z.of_nat (length [1; 2; 3])) /\
  [1; 2; 3] = firstn (length [1; 2; 3])
                (received [Received [1; 2]; RecvErr EINTR; Received [3];
                           RecvErr EAGAIN]).
Proof.
  apply (ReadSocketAsync_stores_prefix
           [Received [1; 2]; RecvErr EINTR; Received [3]; RecvErr EAGAIN]
           4 3 [1; 2; 3]).
  reflexivity.
Defined.

(** X2.  An interrupted call is simply repeated: dropping the [EINTR]
    answers from the history of calls changes the result of none of
    [ReadSocketAsync], [WriteSocketAsync] and [WriteSocket]. *)
Theorem EINTR_is_retried :
  (forall calls size buf,
      ReadSocketAsync_calls (filter (fun c => negb (recv_interrupted c)) calls) size buf
      = ReadSocketAsync_calls calls size buf) /\
  (forall calls size offs,
      WriteSocketAsync_calls (filter (fun c => negb (send_interrupted c)) calls) size offs
      = WriteSocketAsync_calls calls size offs) /\
  (forall calls size,
      WriteSocket_calls (filter (fun c => negb (send_interrupted c)) calls) size
      = WriteSocket_calls calls size).
Proof.
  split; [|split].
  - induction calls as [|[bs|[]] calls IH]; intros size buf; simpl;
      destruct (size =? length buf)%nat eqn:E; try reflexivity;
      try (rewrite IH; reflexivity).
    rewrite IH. destruct calls; simpl; rewrite E; reflexivity.
  - induction calls as [|[n|[]] calls IH]; intros size offs; simpl;
      destruct (size =? offs)%nat eqn:E; try reflexivity;
      try (rewrite IH; reflexivity).
    rewrite IH. destruct calls; simpl; rewrite E; reflexivity.
  - induction calls as [|[n|[]] calls IH]; intros size; simpl;
      destruct (size =? 0)%nat eqn:E; try reflexivity;
      try (rewrite IH; reflexivity).
    rewrite IH. destruct calls; simpl; rewrite E; reflexivity.
Qed.

(** X3.  [ReadSocketAsync] does not notice the end of the stream: a
    [recv] that returns 0 while bytes are missing is followed by another
    [recv], so answers of 0 are skipped, and against a peer that has
    closed the connection the loop never returns. *)
Theorem ReadSocketAsync_spins_at_end_of_stream (size : nat) (buf : list Z) :
  (length buf < size)%nat ->
  (forall n calls,
      ReadSocketAsync_calls (repeat (Received []) n ++ calls) size buf
      = ReadSocketAsync_calls calls size buf) /\
  (forall n, ReadSocketAsync_calls (repeat (Received []) n) size buf = None).
Proof.
  intros Hlt.
  assert (E : (size =? length buf)%nat = false) by (apply Nat.eqb_neq; lia).
  assert (S1 : forall n calls,
             ReadSocketAsync_calls (repeat (Received []) n ++ calls) size buf
             = ReadSocketAsync_calls calls size buf).
  { induction n as [|n IH]; intros calls; simpl; [reflexivity|].
    rewrite E, firstn_nil, app_nil_r. apply IH. }
  split; [exact S1|].
  intros n. rewrite <- (app_nil_r (repeat _ n)), S1. simpl. rewrite E. reflexivity.
Qed.

Lemma ReadSocketAsync_spins_at_end_of_stream_witness :
  (forall n calls,
      ReadSocketAsync_calls (repeat (Received []) n ++ calls) 8 [1; 2; 3]
      = ReadSocketAsync_calls calls 8 [1; 2; 3]) /\
  (forall n, ReadSocketAsync_calls (repeat (Received []) n) 8 [1; 2; 3] = None).
Proof.
  apply (ReadSocketAsync_spins_at_end_of_stream 8 [1; 2; 3]). simpl. lia.
Defined.

Lemma ReadSocketAsync_chunks chunks (failed : bool) size buf :
  (length buf <= size)%nat ->
  ReadSocketAsync_calls
    (map Received chunks ++ [RecvErr (if failed then EOTHER else EAGAIN)]) size buf
  = Some (if (size <=? length (buf ++ concat chunks))%nat
          then (Z.of_nat size, firstn size (buf ++ concat chunks))
          else if failed then (-1, buf ++ concat chunks)
               else (Z.of_nat (length (buf ++ concat chunks)), buf ++ concat chunks)).
Proof.
  revert buf. induction chunks as [|bs chunks IH]; intros buf Hlen; simpl.
  - rewrite app_nil_r.
    destruct (Nat.eqb_spec size (length buf)) as [->|Hne].
    + rewrite Nat.leb_refl, firstn_all. reflexivity.
    + replace (size <=? length buf)%nat with false
        by (symmetry; apply Nat.leb_gt; lia).
      destruct failed; reflexivity.
  - destruct (Nat.eqb_spec size (length buf)) as [->|Hne].
    + replace (length buf <=? length (buf ++ bs ++ concat chunks))%nat with true
        by (symmetry; apply Nat.leb_le; rewrite length_app; lia).
      rewrite firstn_app, Nat.sub_diag, firstn_O, app_nil_r, firstn_all.
      reflexivity.
    + rewrite IH by (rewrite length_app, length_firstn; lia).
      destruct (Nat.le_gt_cases (length bs) (size - length buf)) as [Hb|Hb].
      * rewrite firstn_all2 by exact Hb. rewrite <- !app_assoc. reflexivity.
      * (* this chunk fills the buffer *)
        assert (L1 : length (buf ++ firstn (size - length buf) bs) = size)
          by (rewrite length_app, length_firstn; lia).
        replace (size <=? length ((buf ++ firstn (size - length buf) bs) ++ concat chunks))%nat
          with true by (symmetry; apply Nat.leb_le; rewrite length_app; lia).
        replace (size <=? length (buf ++ bs ++ concat chunks))%nat
          with true by (symmetry; apply Nat.leb_le; rewrite !length_app; lia).
        f_equal. f_equal.
        rewrite firstn_app, L1, Nat.sub_diag, firstn_O, app_nil_r.
        rewrite <- L1 at 1. rewrite firstn_all.
        rewrite (firstn_app size buf), (firstn_all2 buf) by lia.
        rewrite firstn_app.
        replace (size - length buf - length bs)%nat with O by lia.
        rewrite firstn_O, app_nil_r. reflexivity.
Qed.

(** X4.  The summary of a read that the proxy's handlers work with
    agrees with the loop: when [recv] delivers the chunks of [avail] and
    then blocks or fails, the loop returns exactly what
    [ReadSocketAsync size {avail; err}] says. *)
Theorem ReadSocketAsync_calls_summary (chunks : list (list Z)) (failed : bool)
        (size : nat) :
  ReadSocketAsync_calls
    (map Received chunks ++ [RecvErr (if failed then EOTHER else EAGAIN)]) size []
  = Some (ReadSocketAsync size (mkRecv (concat chunks) failed)).
Proof.
  rewrite ReadSocketAsync_chunks by (simpl; lia).
  unfold ReadSocketAsync. simpl.
  destruct (size <=? length (concat chunks))%nat; [reflexivity|].
  destruct failed; reflexivity.
Qed.

Lemma WriteSocket_calls_true calls size :
  WriteSocket_calls calls size = Some true -> (size <= accepted calls)%nat.
Proof.
  revert size. induction calls as [|[n|e] calls IH]; intros size; simpl;
    destruct (Nat.eqb_spec size 0); try lia; try discriminate.
  - intros H. apply IH in H. lia.
  - destruct e; try discriminate. apply IH.
Qed.

Lemma WriteSocket_calls_false calls size :
  WriteSocket_calls calls size = Some false ->
  exists e, In (SendErr e) calls /\ e <> EINTR.
Proof.
  revert size. induction calls as [|[n|e] calls IH]; intros size; simpl;
    destruct (Nat.eqb_spec size 0); try discriminate.
  - intros H. destruct (IH _ H) as (e & ? & ?). eauto.
  - destruct e.
    + intros H. destruct (IH _ H) as (e & ? & ?). eauto.
    + intros _. exists EAGAIN. split; [auto|discriminate].
    + intros _. exists EOTHER. split; [auto|discriminate].
Qed.

(** X5.  [WriteSocket] answers [true] only when [send] has taken all
    [size] bytes, and [false] only after a [send] error other than
    [EINTR]; on the non-blocking sockets of the proxy a full send buffer
    ([EAGAIN]) is such an error, also after part of the data has gone. *)
Theorem WriteSocket_all_or_error (calls : list SendCall) (size : nat) :
  (WriteSocket_calls calls size = Some true -> (size <= accepted calls)%nat) /\
  (WriteSocket_calls calls size = Some false ->
     exists e, In (SendErr e) calls /\ e <> EINTR) /\
  (forall n, (n < size)%nat ->
     WriteSocket_calls (Accepted n :: SendErr EAGAIN :: calls) size = Some false).
Proof.
  split; [apply WriteSocket_calls_true|]. split; [apply WriteSocket_calls_false|].
  intros n Hn. simpl.
  destruct (Nat.eqb_spec size 0); [lia|].
  destruct (Nat.eqb_spec (size - Nat.min n size) 0); [lia|reflexivity].
Qed.

(* ================================================================== *)
(** * Positions as two halves *)
(* ================================================================== *)

Lemma lor_shiftl_add (hi lo : Z) :
  0 <= hi -> 0 <= lo < 2 ^ 32 ->
  Z.lor (Z.shiftl hi 32) lo = hi * 2 ^ 32 + lo.
Proof.
  intros Hhi Hlo. rewrite Z.shiftl_mul_pow2 by lia.
  rewrite <- Z.lxor_lor, <- Z.add_nocarry_lxor; auto.
  all: apply Z.bits_inj'; intros n Hn; rewrite Z.land_spec, Z.bits_0;
    destruct (Z.lt_ge_cases n 32).
  all: try (rewrite Z.mul_pow2_bits_low by lia; reflexivity).
  all: rewrite <- (Z.mod_small lo (2 ^ 32)) by lia;
    rewrite Z.mod_pow2_bits_high by lia; apply andb_false_r.
Qed.

(** X6.  Splitting a 64-bit position into the two halves that are
    printed as [%X/%X] and joining them again as the readers do gives the
    position back; and the halves of a joined pair are the pair. *)
Theorem lsn_halves_round_trip :
  (forall ptr, 0 <= ptr < 2 ^ 64 -> lsn_join (lsn_hi ptr) (lsn_lo ptr) = ptr) /\
  (forall hi lo, 0 <= hi < 2 ^ 32 -> 0 <= lo < 2 ^ 32 ->
     lsn_hi (lsn_join hi lo) = hi /\ lsn_lo (lsn_join hi lo) = lo /\
     0 <= lsn_join hi lo < 2 ^ 64).
Proof.
  assert (J : forall hi lo, 0 <= hi < 2 ^ 32 -> 0 <= lo < 2 ^ 32 ->
                lsn_join hi lo = hi * 2 ^ 32 + lo).
  { intros hi lo Hhi Hlo. unfold lsn_join, uint64.
    rewrite Z.mod_small by (rewrite Z.shiftl_mul_pow2 by lia; lia).
    apply lor_shiftl_add; lia. }
  split.
  - intros ptr H. unfold lsn_hi, lsn_lo, uint32.
    rewrite Z.shiftr_div_pow2 by lia.
    assert (0 <= ptr / 2 ^ 32 < 2 ^ 32).
    { split; [apply Z.div_pos; lia|].
      apply Z.div_lt_upper_bound; lia. }
    rewrite (Z.mod_small (ptr / 2 ^ 32)) by lia.
    rewrite J by (try lia; apply Z.mod_pos_bound; lia).
    pose proof (Z.div_mod ptr (2 ^ 32)). lia.
  - intros hi lo Hhi Hlo. rewrite J by assumption.
    unfold lsn_hi, lsn_lo, uint32. rewrite Z.shiftr_div_pow2 by lia.
    replace ((hi * 2 ^ 32 + lo) / 2 ^ 32) with hi
      by (apply Z.div_unique with lo; lia).
    rewrite (Z.mod_small hi) by lia.
    replace ((hi * 2 ^ 32 + lo) mod 2 ^ 32) with lo
      by (apply Z.mod_unique with hi; lia).
    repeat split; lia.
Qed.

(* ================================================================== *)
(** * The messages of the re-streamer *)
(* ================================================================== *)

Lemma fe_recvint32_sendint32 (v : Z) (rest : list Z) :
  0 <= v < 2 ^ 32 -> fe_recvint32 (fe_sendint32 v ++ rest) = v.
Proof.
  intros H. unfold fe_recvint32, fe_sendint32.
  rewrite firstn_app, be_bytes_length, Nat.sub_diag, firstn_O, app_nil_r.
  rewrite firstn_all2 by (rewrite be_bytes_length; lia).
  rewrite be_value_bytes. apply Z.mod_small. exact H.
Qed.

Lemma fe_recvint64_app (v : Z) (rest : list Z) :
  0 <= v < 2 ^ 64 -> fe_recvint64 (fe_sendint64 v ++ rest) = v.
Proof.
  intros H. unfold fe_recvint64, fe_sendint64.
  rewrite firstn_app, be_bytes_length, Nat.sub_diag, firstn_O, app_nil_r.
  rewrite firstn_all2 by (rewrite be_bytes_length; lia).
  rewrite be_value_bytes. apply Z.mod_small. exact H.
Qed.

Lemma skipn_app_exact {A} (l1 l2 : list A) n :
  n = length l1 -> skipn n (l1 ++ l2) = l2.
Proof.
  intros ->. rewrite skipn_app, Nat.sub_diag, skipn_all. reflexivity.
Qed.

Lemma firstn_app_exact {A} (l1 l2 : list A) n :
  n = length l1 -> firstn n (l1 ++ l2) = l1.
Proof.
  intros ->. rewrite firstn_app, Nat.sub_diag, firstn_O, app_nil_r, firstn_all.
  reflexivity.
Qed.

Lemma split_messages_message fuel t body rest :
  4 + Z.of_nat (length body) < 2 ^ 32 ->
  split_messages (S fuel) (message t body ++ rest)
  = option_map (cons (t, body)) (split_messages fuel rest).
Proof.
  intros Hlen. unfold message. cbn [app split_messages].
  rewrite <- app_assoc, fe_recvint32_sendint32 by lia.
  replace (4 + Z.of_nat (length body) <? 4) with false
    by (symmetry; apply Z.ltb_ge; lia).
  replace (Z.of_nat (length (fe_sendint32 (4 + Z.of_nat (length body)) ++ body ++ rest))
           <? 4 + Z.of_nat (length body)) with false.
  2:{ symmetry; apply Z.ltb_ge. unfold fe_sendint32.
      rewrite !length_app, be_bytes_length. lia. }
  cbn [orb].
  rewrite (app_assoc (fe_sendint32 _) body rest).
  rewrite skipn_app_exact.
  2:{ unfold fe_sendint32. rewrite length_app, be_bytes_length. lia. }
  rewrite <- app_assoc.
  rewrite (skipn_app_exact (fe_sendint32 _))
    by (unfold fe_sendint32; rewrite be_bytes_length; reflexivity).
  rewrite firstn_app_exact by lia.
  destruct (split_messages fuel rest); reflexivity.
Qed.

Lemma parse_columns_some n (col rest : list Z) :
  Z.of_nat (length col) < 2 ^ 32 - 1 ->
  parse_columns (S n) (fe_sendint32 (Z.of_nat (length col)) ++ col ++ rest)
  = option_map (cons (Some col)) (parse_columns n rest).
Proof.
  intros Hlen. cbn [parse_columns].
  rewrite fe_recvint32_sendint32 by lia.
  replace (length (fe_sendint32 (Z.of_nat (length col)) ++ col ++ rest) <? 4)%nat
    with false.
  2:{ symmetry; apply Nat.ltb_ge. unfold fe_sendint32.
      rewrite length_app, be_bytes_length. lia. }
  replace (Z.of_nat (length col) =? 2 ^ 32 - 1) with false
    by (symmetry; apply Z.eqb_neq; lia).
  replace (Z.of_nat (length (fe_sendint32 (Z.of_nat (length col)) ++ col ++ rest)) - 4
           <? Z.of_nat (length col)) with false.
  2:{ symmetry; apply Z.ltb_ge. unfold fe_sendint32.
      rewrite !length_app, be_bytes_length. lia. }
  rewrite Nat2Z.id.
  rewrite (skipn_app_exact (fe_sendint32 _))
    by (unfold fe_sendint32; rewrite be_bytes_length; reflexivity).
  rewrite firstn_app_exact by reflexivity.
  rewrite (app_assoc (fe_sendint32 _) col rest).
  rewrite skipn_app_exact
    by (unfold fe_sendint32; rewrite length_app, be_bytes_length; lia).
  reflexivity.
Qed.

(** X7.  The messages the re-streamer builds by hand are well framed.
    The answer to the startup packet is AuthenticationOk followed by
    ReadyForQuery, the answer to START_REPLICATION is a CopyBothResponse
    without columns, and the answer to IDENTIFY_SYSTEM cuts into a
    RowDescription, a DataRow, CommandComplete "IDENTIFY_SYSTEM" and
    ReadyForQuery, the DataRow holding exactly the system identifier,
    the timeline, the position and a NULL. *)
Theorem identify_system_response_decodes (sysid_buf timeline_buf lsn_buf : list Z) :
  (length sysid_buf < 32)%nat ->
  (length timeline_buf < 32)%nat ->
  (length lsn_buf < 32)%nat ->
  split_messages 2 handshake_response = Some [(82, [0; 0; 0; 0]); (90, [73])] /\
  split_messages 1 copy_both_response = Some [(87, [0; 0; 0])] /\
  exists row,
    split_messages 4 (identify_system_response sysid_buf timeline_buf lsn_buf)
    = Some [(84, skipn 5 identifySystemResponseDesc); (68, row);
            (67, IDENTIFY_SYSTEM); (90, [73])] /\
    parse_data_row row
    = Some [Some sysid_buf; Some timeline_buf; Some lsn_buf; None].
Proof.
  intros Hs Ht Hl.
  split; [reflexivity|]. split; [reflexivity|].
  set (row := fe_sendint16 4
                ++ fe_sendint32 (Z.of_nat (length sysid_buf)) ++ sysid_buf
                ++ fe_sendint32 (Z.of_nat (length timeline_buf)) ++ timeline_buf
                ++ fe_sendint32 (Z.of_nat (length lsn_buf)) ++ lsn_buf
                ++ fe_sendint32 (-1)).
  assert (Lrow : Z.of_nat (length row)
                 = 2 + 4 + Z.of_nat (length sysid_buf) + 4
                   + Z.of_nat (length timeline_buf) + 4
                   + Z.of_nat (length lsn_buf) + 4).
  { unfold row, fe_sendint16, fe_sendint32.
    rewrite !length_app, !be_bytes_length. lia. }
  exists row. split.
  - assert (E : identify_system_response sysid_buf timeline_buf lsn_buf
                = message 84 (skipn 5 identifySystemResponseDesc)
                    ++ message 68 row
                    ++ message 67 IDENTIFY_SYSTEM
                    ++ message 90 [73] ++ []).
    { unfold identify_system_response, message. cbv zeta.
      replace (4 + Z.of_nat (length row))
        with (4 + 2 + 4 + Z.of_nat (length sysid_buf) + 4
              + Z.of_nat (length timeline_buf) + 4
              + Z.of_nat (length lsn_buf) + 4) by lia.
      unfold row. cbn [app]. rewrite <- !app_assoc. cbn [app].
      reflexivity. }
    rewrite E.
    rewrite split_messages_message by (vm_compute; reflexivity).
    rewrite split_messages_message by lia.
    rewrite split_messages_message by (vm_compute; reflexivity).
    rewrite split_messages_message by (vm_compute; reflexivity).
    reflexivity.
  - unfold parse_data_row.
    replace (length row <? 2)%nat with false
      by (symmetry; apply Nat.ltb_ge; lia).
    unfold row.
    replace (fe_recvint16 (fe_sendint16 4 ++ _)) with 4 by reflexivity.
    change (skipn 2 (fe_sendint16 4 ++ ?x)) with x.
    change (Z.to_nat 4) with 4%nat.
    rewrite parse_columns_some by lia.
    rewrite parse_columns_some by lia.
    rewrite parse_columns_some by lia.
    reflexivity.
Qed.

Lemma identify_system_response_decodes_witness :
  split_messages 2 handshake_response = Some [(82, [0; 0; 0; 0]); (90, [73])] /\
  split_messages 1 copy_both_response = Some [(87, [0; 0; 0])] /\
  exists row,
    split_messages 4 (identify_system_response [55] [49] [48; 47; 48])
    = Some [(84, skipn 5 identifySystemResponseDesc); (68, row);
            (67, IDENTIFY_SYSTEM); (90, [73])] /\
    parse_data_row row = Some [Some [55]; Some [49]; Some [48; 47; 48]; None].
Proof.
  apply (identify_system_response_decodes [55] [49] [48; 47; 48]); simpl; lia.
Defined.




(* ================================================================== *)
(** * The send loop and its segment file *)
(* ================================================================== *)

Lemma sendSize_bounds (MAX flushLsn startpos : Z) :
  0 <= startpos < flushLsn -> flushLsn < 2 ^ 64 ->
  sendSize MAX flushLsn startpos <= MAX /\
  sendSize MAX flushLsn startpos <= flushLsn - startpos.
Proof.
  intros H1 H2. rewrite sendSize_mod by lia.
  pose proof (Z.mod_le (flushLsn - startpos) (2 ^ 32) ltac:(lia) ltac:(lia)).
  lia.
Qed.

Lemma segment_offset_advance (seg p sz : Z) :
  0 < seg -> 0 <= p -> 0 <= sz -> p mod seg + sz <= seg ->
  (p + sz) mod seg = if p mod seg + sz =? seg then 0 else p mod seg + sz.
Proof.
  intros Hseg Hp Hsz Hle.
  pose proof (Z.mod_pos_bound p seg Hseg).
  pose proof (Z.div_mod p seg ltac:(lia)) as D.
  destruct (Z.eqb_spec (p mod seg + sz) seg) as [E|E].
  - symmetry. apply Z.mod_unique with (p / seg + 1); lia.
  - symmetry. apply Z.mod_unique with (p / seg); lia.
Qed.

(** What a pass that sends has done. *)
Lemma WalSenderPass_sends (MAX seg : Z) (e : PassEnv) (st st' : WalSenderState)
      (f : Frame) :
  0 < seg ->
  file_length e <= seg ->
  seen_flushLsn e < 2 ^ 64 ->
  file_tracks_position seg st ->
  WalSenderPass MAX seg e st = Sends f st' ->
  fr_dataStart f = ws_startpos st /\
  fr_walEnd f = seen_flushLsn e /\
  0 <= fr_size f <= MAX /\
  fr_dataStart f + fr_size f <= fr_walEnd f /\
  XLogSegmentOffset (fr_dataStart f) seg + fr_size f <= seg /\
  ws_startpos st' = ws_startpos st + fr_size f /\
  file_tracks_position seg st'.
Proof.
  intros Hseg Hlen Hflush [Hpos Htrack]. unfold WalSenderPass. cbv zeta.
  destruct (Z.geb_spec (ws_startpos st) (seen_flushLsn e)) as [|Hlt];
    [discriminate|].
  set (sz := sendSize MAX (seen_flushLsn e) (ws_startpos st)).
  destruct (sendSize_bounds MAX (seen_flushLsn e) (ws_startpos st)
              ltac:(lia) Hflush) as [B1 B2]. fold sz in B1, B2.
  assert (P : forall pos,
             pos = XLogSegmentOffset (ws_startpos st) seg ->
             (if negb (Z.max 0 (Z.min sz (file_length e - pos)) =? sz)
              then Epilogue
              else if negb (write_ok e) then Epilogue
                   else Sends (mkFrame (ws_startpos st) (seen_flushLsn e) sz)
                          (mkWalSender (uint64 (ws_startpos st + sz))
                             (if XLogSegmentOffset (uint64 (ws_startpos st + sz)) seg =? 0
                              then None else Some (pos + sz))))
             = Sends f st' ->
             fr_dataStart f = ws_startpos st /\
             fr_walEnd f = seen_flushLsn e /\
             0 <= fr_size f <= MAX /\
             fr_dataStart f + fr_size f <= fr_walEnd f /\
             XLogSegmentOffset (fr_dataStart f) seg + fr_size f <= seg /\
             ws_startpos st' = ws_startpos st + fr_size f /\
             file_tracks_position seg st').
  { intros pos Epos.
    destruct (Z.eqb_spec (Z.max 0 (Z.min sz (file_length e - pos))) sz) as [Eg|];
      [|discriminate].
    destruct (write_ok e); [|discriminate]. cbn [negb].
    intros [= <- <-]. cbn [fr_dataStart fr_walEnd fr_size ws_startpos ws_walfile].
    unfold XLogSegmentOffset in *.
    pose proof (Z.mod_pos_bound (ws_startpos st) seg Hseg) as Hm.
    assert (Hsz : 0 <= sz) by lia.
    assert (Hfit : ws_startpos st mod seg + sz <= seg) by lia.
    assert (Ew : uint64 (ws_startpos st + sz) = ws_startpos st + sz)
      by (apply Z.mod_small; lia).
    rewrite Ew.
    do 5 (split; [lia|]).
    split; [reflexivity|].
    unfold file_tracks_position, XLogSegmentOffset. cbn [ws_startpos ws_walfile].
    split; [lia|].
    pose proof (segment_offset_advance seg (ws_startpos st) sz
                  Hseg Hpos Hsz Hfit) as Ea.
    destruct (Z.eqb_spec (ws_startpos st mod seg + sz) seg) as [E1|E1];
      rewrite Ea.
    - reflexivity.
    - destruct (Z.eqb_spec (ws_startpos st mod seg + sz) 0) as [E0|E0]; lia. }
  destruct (ws_walfile st) as [pos|].
  - apply P. exact Htrack.
  - destruct (open_ok e); [|discriminate]. apply P. rewrite Htrack. reflexivity.
Qed.

(** X9.  Started at a segment boundary, the send loop emits frames that
    follow each other without gap or overlap; each frame carries at most
    [MAX_SEND_SIZE] bytes that lie inside one segment and below the
    flush position it reports, and the open file stays at the segment
    offset of the position. *)
Theorem WalSenderPasses_contiguous (MAX seg : Z) (es : list PassEnv)
        (st : WalSenderState) :
  0 < seg ->
  Forall (fun e => file_length e <= seg /\ seen_flushLsn e < 2 ^ 64) es ->
  file_tracks_position seg st ->
  contiguous (ws_startpos st) (fst (WalSenderPasses MAX seg es st)) /\
  Forall (fun f => 0 <= fr_size f <= MAX /\
                   fr_dataStart f + fr_size f <= fr_walEnd f /\
                   XLogSegmentOffset (fr_dataStart f) seg + fr_size f <= seg)
         (fst (WalSenderPasses MAX seg es st)) /\
  (forall st', snd (WalSenderPasses MAX seg es st) = Some st' ->
               file_tracks_position seg st').
Proof.
  intros Hseg Hes. revert st.
  induction Hes as [|e es [He1 He2] Hes IH]; intros st Htrack; cbn [WalSenderPasses].
  - simpl. split; [exact I|]. split; [constructor|]. intros st' [= <-]. exact Htrack.
  - destruct (WalSenderPass MAX seg e st) as [| |f st1] eqn:Hp.
    + apply IH. exact Htrack.
    + simpl. split; [exact I|]. split; [constructor|]. discriminate.
    + destruct (WalSenderPass_sends _ _ _ _ _ _ Hseg He1 He2 Htrack Hp)
        as (F1 & F2 & F3 & F4 & F5 & F6 & F7).
      specialize (IH st1 F7).
      destruct (WalSenderPasses MAX seg es st1) as [fs r]. cbn [fst snd] in *.
      destruct IH as (I1 & I2 & I3).
      split; [|split; [|exact I3]].
      * simpl. split; [exact F1|]. rewrite <- F6. exact I1.
      * constructor; auto.
Qed.

Lemma WalSenderPasses_contiguous_witness :
  contiguous 0
    (fst (WalSenderPasses 8 16
            [mkPassEnv 12 true 16 true; mkPassEnv 12 true 16 true;
             mkPassEnv 20 true 16 true]
            (mkWalSender 0 None))) /\
  Forall (fun f => 0 <= fr_size f <= 8 /\
                   fr_dataStart f + fr_size f <= fr_walEnd f /\
                   XLogSegmentOffset (fr_dataStart f) 16 + fr_size f <= 16)
         (fst (WalSenderPasses 8 16
                 [mkPassEnv 12 true 16 true; mkPassEnv 12 true 16 true;
                  mkPassEnv 20 true 16 true]
                 (mkWalSender 0 None))) /\
  (forall st', snd (WalSenderPasses 8 16
                      [mkPassEnv 12 true 16 true; mkPassEnv 12 true 16 true;
                       mkPassEnv 20 true 16 true]
                      (mkWalSender 0 None)) = Some st' ->
               file_tracks_position 16 st').
Proof.
  apply (WalSenderPasses_contiguous 8 16
           [mkPassEnv 12 true 16 true; mkPassEnv 12 true 16 true;
            mkPassEnv 20 true 16 true]
           (mkWalSender 0 None)).
  - lia.
  - repeat constructor; simpl; lia.
  - split; [simpl; lia|reflexivity].
Defined.

(** X10.  The size of a read does not take the end of the segment into
    account.  When the bytes between [startpos] and the flush position,
    capped at [MAX_SEND_SIZE], reach beyond the end of the open segment,
    [read] comes back short and the thread leaves the loop instead of
    going on in the next segment. *)
Theorem WalSenderPass_stops_at_segment_end (MAX seg : Z) (e : PassEnv)
        (st : WalSenderState) :
  0 < seg ->
  file_length e <= seg ->
  file_tracks_position seg st ->
  ws_startpos st < seen_flushLsn e ->
  seg < XLogSegmentOffset (ws_startpos st) seg
        + sendSize MAX (seen_flushLsn e) (ws_startpos st) ->
  WalSenderPass MAX seg e st = Epilogue.
Proof.
  intros Hseg Hlen [Hpos Htrack] Hlt Hover. unfold WalSenderPass. cbv zeta.
  destruct (Z.geb_spec (ws_startpos st) (seen_flushLsn e)); [lia|].
  set (sz := sendSize MAX (seen_flushLsn e) (ws_startpos st)) in *.
  assert (P : forall pos, pos = XLogSegmentOffset (ws_startpos st) seg ->
                negb (Z.max 0 (Z.min sz (file_length e - pos)) =? sz) = true).
  { intros pos ->. apply negb_true_iff, Z.eqb_neq.
    unfold XLogSegmentOffset in *.
    pose proof (Z.mod_pos_bound (ws_startpos st) seg Hseg). lia. }
  destruct (ws_walfile st) as [pos|].
  - rewrite (P pos Htrack). reflexivity.
  - destruct (open_ok e); [|reflexivity].
    rewrite (P 0) by (symmetry; exact Htrack). reflexivity.
Qed.

Lemma WalSenderPass_stops_at_segment_end_witness :
  WalSenderPass 131072 16777216 (mkPassEnv 33554432 true 16777216 true)
                (mkWalSender 16777116 (Some 16777116)) = Epilogue.
Proof.
  apply (WalSenderPass_stops_at_segment_end 131072 16777216
           (mkPassEnv 33554432 true 16777216 true)
           (mkWalSender 16777116 (Some 16777116))).
  - lia.
  - simpl. lia.
  - split; [simpl; lia|reflexivity].
  - simpl. lia.
  - vm_compute. reflexivity.
Defined.

(* ================================================================== *)
(** * The list of active WAL senders *)
(* ================================================================== *)

Lemma chain_frame (h h' : Heap) a l b :
  chain h a l b ->
  (forall n, In n (a :: l) -> l_next (h' n) = l_next (h n)) ->
  (forall n, In n (l ++ [b]) -> l_prev (h' n) = l_prev (h n)) ->
  chain h' a l b.
Proof.
  revert a. induction l as [|x l IH]; intros a; simpl.
  - intros [H1 H2] Hn Hp. rewrite Hn, Hp by auto. auto.
  - intros (H1 & H2 & H3) Hn Hp. rewrite Hn, Hp by auto.
    split; [auto|]. split; [auto|]. apply IH; auto.
Qed.

Lemma last_default {A} (l : list A) (x a b : A) :
  last (x :: l) a = last (x :: l) b.
Proof.
  revert x. induction l as [|y l IH]; intros x; [reflexivity|].
  change (last (y :: l) a = last (y :: l) b). apply IH.
Qed.

Lemma last_cons {A} (l : list A) (x a : A) : last (x :: l) a = last l x.
Proof.
  destruct l as [|y l]; [reflexivity|].
  change (last (y :: l) a = last (y :: l) x). apply last_default.
Qed.

Lemma chain_ends (h : Heap) a l b :
  chain h a l b -> l_prev (h b) = last l a /\ l_next (h a) = hd b l.
Proof.
  revert a. induction l as [|x l IH]; intros a; simpl.
  - tauto.
  - intros (H1 & H2 & H3). split; [|exact H1].
    destruct (IH x H3) as [E _]. rewrite E. symmetry. apply last_cons.
Qed.

Lemma chain_around (h : Heap) a l1 ws l2 b :
  chain h a (l1 ++ ws :: l2) b ->
  l_prev (h ws) = last l1 a /\ l_next (h ws) = hd b l2.
Proof.
  revert a. induction l1 as [|x l1 IH]; intros a; simpl.
  - intros (H1 & H2 & H3). split; [exact H2|]. apply (chain_ends _ _ _ _ H3).
  - intros (H1 & H2 & H3). destruct (IH x H3) as [E1 E2].
    split; [|exact E2]. rewrite E1. symmetry. apply last_cons.
Qed.

Lemma last_in {A} (l : list A) (a : A) : In (last l a) (a :: l).
Proof.
  revert a. induction l as [|x l IH]; intros a; [left; reflexivity|].
  rewrite last_cons. right. apply IH.
Qed.

Lemma hd_in {A} (l : list A) (b : A) : In (hd b l) (l ++ [b]).
Proof. destruct l; simpl; auto. Qed.

Lemma Enqueue_chain (h : Heap) ws t a l :
  ws <> 0%nat -> ws <> t ->
  l_prev (h 0%nat) = t -> t = last l a ->
  NoDup (a :: l) -> ~ In 0%nat l -> ~ In ws (a :: l) ->
  chain h a l 0 ->
  chain (EnqueueWalSender ws h) a (l ++ [ws]) 0.
Proof.
  intros Hws0 Hwst Ht.
  assert (N : forall x, l_next (EnqueueWalSender ws h x)
                        = if (x =? t)%nat then ws
                          else if (x =? ws)%nat then 0%nat else l_next (h x)).
  { intros x. unfold EnqueueWalSender, set_next, set_prev. cbv zeta.
    destruct ws as [|w]; [contradiction|].
    cbn [Nat.eqb]. rewrite !Nat.eqb_refl. cbn [l_next l_prev].
    rewrite Ht.
    destruct (Nat.eqb_spec x 0), (Nat.eqb_spec x t), (Nat.eqb_spec x (S w));
      subst; cbn [l_next l_prev]; try reflexivity; try contradiction;
      try congruence. }
  assert (P : forall x, l_prev (EnqueueWalSender ws h x)
                        = if (x =? 0)%nat then ws
                          else if (x =? ws)%nat then t else l_prev (h x)).
  { intros x. unfold EnqueueWalSender, set_next, set_prev. cbv zeta.
    destruct ws as [|w]; [contradiction|].
    cbn [Nat.eqb]. rewrite !Nat.eqb_refl. cbn [l_next l_prev].
    rewrite Ht.
    destruct (Nat.eqb_spec x 0), (Nat.eqb_spec x t), (Nat.eqb_spec x (S w));
      subst; cbn [l_next l_prev]; try reflexivity; try contradiction;
      try congruence. }
  revert a. induction l as [|x l IH]; intros a Hlast Hnd H0 Hin Hch;
    cbn [chain app] in *.
  - destruct Hch as [H1 H2]. cbn [last] in Hlast. subst a.
    rewrite !N, !P, !Nat.eqb_refl.
    destruct (Nat.eqb_spec ws t); [congruence|].
    destruct (Nat.eqb_spec ws 0); [contradiction|]. auto.
  - destruct Hch as (H1 & H2 & H3). rewrite last_cons in Hlast.
    pose proof (proj1 (NoDup_cons_iff _ _) Hnd) as [Hni Hnd'].
    assert (a <> t).
    { intros E. apply Hni. rewrite E.
      pose proof (last_in l x) as Hl. rewrite <- Hlast in Hl. exact Hl. }
    assert (a <> ws) by (intros ->; apply Hin; left; reflexivity).
    assert (x <> 0%nat) by (intros ->; apply H0; left; reflexivity).
    assert (x <> ws) by (intros ->; apply Hin; right; left; reflexivity).
    rewrite N, P.
    destruct (Nat.eqb_spec a t); [contradiction|].
    destruct (Nat.eqb_spec a ws); [contradiction|].
    destruct (Nat.eqb_spec x 0); [contradiction|].
    destruct (Nat.eqb_spec x ws); [contradiction|].
    split; [exact H1|]. split; [exact H2|].
    apply IH; auto.
    + intros Hx. apply H0. right. exact Hx.
    + intros Hx. apply Hin. right. exact Hx.
Qed.

Lemma Enqueue_senders (h : Heap) (l : list nat) (ws : nat) :
  senders h l -> ~ In ws (0%nat :: l) ->
  senders (EnqueueWalSender ws h) (l ++ [ws]).
Proof.
  intros [Hnd Hch] Hin.
  assert (Hws0 : ws <> 0%nat) by (intros ->; apply Hin; left; reflexivity).
  destruct (chain_ends _ _ _ _ Hch) as [Et Eh].
  assert (Hwst : ws <> last l 0%nat).
  { intros E. apply Hin. rewrite E. apply last_in. }
  pose proof Hnd as Hnd0.
  apply NoDup_cons_iff in Hnd as [H0 Hl].
  split.
  - constructor.
    + rewrite in_app_iff. simpl. intros [?|[?|[]]]; [contradiction|congruence].
    + apply NoDup_app; auto.
      * repeat constructor. simpl. tauto.
      * intros x Hx. simpl. intros [<-|[]]. apply Hin. right. exact Hx.
  - eapply Enqueue_chain; eauto.
Qed.

(** X11.  [EnqueueWalSender] puts a sender that is not yet in the list
    behind all others and keeps the ring of [next] and [prev] links
    intact; the head's [next] is the head itself exactly when the list
    is empty, which is the test [StopWalSenders] loops on, and it is
    not after an enqueue. *)
Theorem EnqueueWalSender_appends (h : Heap) (l : list nat) (ws : nat) :
  senders h l ->
  ~ In ws (0%nat :: l) ->
  senders (EnqueueWalSender ws h) (l ++ [ws]) /\
  (l_next (h 0%nat) = 0%nat <-> l = []) /\
  l_next (EnqueueWalSender ws h 0%nat) <> 0%nat.
Proof.
  intros Hs Hin.
  assert (Hws0 : ws <> 0%nat) by (intros ->; apply Hin; left; reflexivity).
  pose proof (Enqueue_senders h l ws Hs Hin) as S1.
  destruct Hs as [Hnd Hch].
  apply NoDup_cons_iff in Hnd as [H0 Hl].
  split; [exact S1|]. split.
  - destruct (chain_ends _ _ _ _ Hch) as [_ Eh]. rewrite Eh.
    destruct l as [|x l]; simpl; [tauto|].
    split; [|discriminate]. intros E.
    exfalso. apply H0. left. exact E.
  - destruct S1 as [_ Hch'].
    destruct (chain_ends _ _ _ _ Hch') as [_ Eh']. rewrite Eh'.
    destruct l as [|x l]; simpl; [exact Hws0|].
    intros E. apply H0. left. exact E.
Qed.

Lemma EnqueueWalSender_appends_witness :
  senders (EnqueueWalSender 7 (fun _ => mkLinks 0 0)) ([] ++ [7%nat]) /\
  (l_next ((fun _ => mkLinks 0 0) 0%nat) = 0%nat <-> @nil nat = []) /\
  l_next (EnqueueWalSender 7 (fun _ => mkLinks 0 0) 0%nat) <> 0%nat.
Proof.
  apply (EnqueueWalSender_appends (fun _ => mkLinks 0 0) [] 7).
  - split; [repeat constructor; simpl; tauto|]. simpl. auto.
  - simpl. intros [H|[]]. discriminate.
Defined.

Lemma Dequeue_chain (h : Heap) ws p n a l1 l2 b :
  l_prev (h ws) = p -> l_next (h ws) = n -> ws <> n ->
  p = last l1 a -> n = hd b l2 ->
  NoDup (a :: l1 ++ ws :: l2) -> ~ In b (l1 ++ ws :: l2) ->
  chain h a (l1 ++ ws :: l2) b ->
  chain (DequeueWalSender ws h) a (l1 ++ l2) b.
Proof.
  intros Hp Hn Hwn.
  assert (N : forall x, l_next (DequeueWalSender ws h x)
                        = if (x =? p)%nat then n else l_next (h x)).
  { intros x. unfold DequeueWalSender, set_next, set_prev. cbv zeta. cbn.
    rewrite Hn, Hp.
    destruct (Nat.eqb_spec ws n); [contradiction|]. cbn. rewrite Hp, Hn.
    destruct (Nat.eqb_spec x p), (Nat.eqb_spec x n); subst; cbn; reflexivity. }
  assert (P : forall x, l_prev (DequeueWalSender ws h x)
                        = if (x =? n)%nat then p else l_prev (h x)).
  { intros x. unfold DequeueWalSender, set_next, set_prev. cbv zeta. cbn.
    rewrite Hn, Hp.
    destruct (Nat.eqb_spec ws n); [contradiction|]. cbn. rewrite Hp, Hn.
    destruct (Nat.eqb_spec x p), (Nat.eqb_spec x n); subst; cbn; reflexivity. }
  revert a. induction l1 as [|x l1 IH]; intros a Hlast Hhd Hnd Hb Hch;
    cbn [chain app] in *.
  - destruct Hch as (H1 & H2 & H3). cbn [last] in Hlast.
    apply NoDup_cons_iff in Hnd as [Ha Hnd1].
    apply NoDup_cons_iff in Hnd1 as [Hw Hnd2].
    destruct l2 as [|y l2]; cbn [chain hd] in *.
    + destruct H3 as [H4 H5]. rewrite N, P, Hlast, Hhd, !Nat.eqb_refl. auto.
    + destruct H3 as (H4 & H5 & H6).
      rewrite N, P, Hlast, Hhd, !Nat.eqb_refl.
      split; [reflexivity|]. split; [reflexivity|].
      apply (chain_frame h); auto.
      * intros m Hm. rewrite N.
        destruct (Nat.eqb_spec m p) as [E|]; [|reflexivity].
        exfalso. apply Ha. rewrite <- Hlast, <- E. right. exact Hm.
      * intros m Hm. rewrite P.
        destruct (Nat.eqb_spec m n) as [E|]; [|reflexivity].
        exfalso. rewrite Hhd in E. subst m.
        apply in_app_or in Hm. destruct Hm as [Hm|[Hm|[]]].
        -- apply NoDup_cons_iff in Hnd2 as [Hy _]. contradiction.
        -- apply Hb. right. left. symmetry. exact Hm.
  - destruct Hch as (H1 & H2 & H3). rewrite last_cons in Hlast.
    apply NoDup_cons_iff in Hnd as [Ha Hnd1].
    assert (a <> p).
    { intros E. apply Ha. rewrite E, Hlast.
      pose proof (last_in l1 x) as Hl. destruct Hl as [Hl|Hl]; [left; exact Hl|].
      right. apply in_or_app. left. exact Hl. }
    assert (x <> n).
    { intros E. pose proof (hd_in l2 b) as Hh. rewrite <- Hhd, <- E in Hh.
      apply in_app_or in Hh. destruct Hh as [Hh|[Hh|[]]].
      - apply NoDup_cons_iff in Hnd1 as [Hx _]. apply Hx.
        apply in_or_app. right. right. exact Hh.
      - apply Hb. left. symmetry. exact Hh. }
    rewrite N, P.
    destruct (Nat.eqb_spec a p); [contradiction|].
    destruct (Nat.eqb_spec x n); [contradiction|].
    split; [exact H1|]. split; [exact H2|].
    apply IH; auto.
    intros Hx. apply Hb. right. exact Hx.
Qed.

Lemma Dequeue_senders (h : Heap) (l1 l2 : list nat) (ws : nat) :
  senders h (l1 ++ ws :: l2) -> senders (DequeueWalSender ws h) (l1 ++ l2).
Proof.
  intros [Hnd Hch].
  destruct (chain_around _ _ _ _ _ _ Hch) as [Ep En].
  pose proof Hnd as Hnd0.
  apply NoDup_cons_iff in Hnd as [H0 Hl].
  split.
  - constructor.
    + intros Hin. apply H0. apply in_app_or in Hin.
      apply in_or_app. simpl. tauto.
    + apply NoDup_remove_1 in Hl. exact Hl.
  - apply (Dequeue_chain h ws (l_prev (h ws)) (l_next (h ws)) 0 l1 l2 0);
      auto.
    apply NoDup_remove_2 in Hl.
    intros E. rewrite En in E.
    pose proof (hd_in l2 0%nat) as Hh. rewrite <- E in Hh.
    apply in_app_or in Hh. destruct Hh as [Hh|[Hh|[]]].
    + apply Hl. apply in_or_app. auto.
    + apply H0. apply in_or_app. right. left. symmetry. exact Hh.
Qed.

(** X12.  [DequeueWalSender] takes a sender out of the list wherever it
    stands and leaves the others linked in their order; a sender that
    is enqueued and dequeued again leaves the list as it was, and after
    the only sender is dequeued the head points to itself, so that
    [StopWalSenders] leaves its loop. *)
Theorem DequeueWalSender_removes (h : Heap) (l1 l2 : list nat) (ws : nat) :
  senders h (l1 ++ ws :: l2) ->
  senders (DequeueWalSender ws h) (l1 ++ l2) /\
  (forall ws', ~ In ws' (0%nat :: l1 ++ ws :: l2) ->
               senders (DequeueWalSender ws' (EnqueueWalSender ws' h))
                       (l1 ++ ws :: l2)) /\
  (l1 ++ l2 = [] -> l_next (DequeueWalSender ws h 0%nat) = 0%nat).
Proof.
  intros Hs. split; [apply Dequeue_senders; exact Hs|]. split.
  - intros ws' Hin.
    pose proof (Enqueue_senders h (l1 ++ ws :: l2) ws' Hs Hin) as S1.
    apply Dequeue_senders in S1. rewrite app_nil_r in S1. exact S1.
  - intros E. apply Dequeue_senders in Hs. rewrite E in Hs.
    destruct Hs as [_ [Hn _]]. exact Hn.
Qed.

Lemma DequeueWalSender_removes_witness :
  senders (DequeueWalSender 7 (EnqueueWalSender 7 (fun _ => mkLinks 0 0)))
          ([] ++ []) /\
  (forall ws', ~ In ws' (0%nat :: [] ++ 7%nat :: []) ->
               senders (DequeueWalSender ws'
                          (EnqueueWalSender ws'
                             (EnqueueWalSender 7 (fun _ => mkLinks 0 0))))
                       ([] ++ 7%nat :: [])) /\
  ([] ++ [] = @nil nat ->
   l_next (DequeueWalSender 7 (EnqueueWalSender 7 (fun _ => mkLinks 0 0)) 0%nat)
   = 0%nat).
Proof.
  apply (DequeueWalSender_removes (EnqueueWalSender 7 (fun _ => mkLinks 0 0))
                                  [] [] 7).
  split; [repeat constructor; simpl; intuition discriminate|].
  simpl. auto.
Defined.

(* ================================================================== *)
(** * Names of the files in the bucket *)
(* ================================================================== *)

Lemma strrchr_none_notin (s : Restore.cstring) (c : ascii) :
  Restore.strrchr s c = None -> ~ In c s.
Proof.
  induction s as [|x s IH]; simpl; [tauto|].
  destruct (Restore.strrchr s c) as [k|]; [discriminate|].
  destruct (Ascii.eqb_spec x c); [discriminate|].
  intros _ [E|Hin]; [contradiction|]. apply IH; auto.
Qed.

Lemma strrchr_notin_none (s : Restore.cstring) (c : ascii) :
  ~ In c s -> Restore.strrchr s c = None.
Proof.
  induction s as [|x s IH]; simpl; [reflexivity|].
  intros Hn. rewrite IH by tauto.
  destruct (Ascii.eqb_spec x c); [|reflexivity].
  exfalso. apply Hn. left. assumption.
Qed.

Lemma strrchr_some (s : Restore.cstring) (c : ascii) (k : nat) :
  Restore.strrchr s c = Some k ->
  s = firstn k s ++ c :: skipn (S k) s /\ ~ In c (skipn (S k) s).
Proof.
  revert k. induction s as [|x s IH]; intros k; simpl; [discriminate|].
  destruct (Restore.strrchr s c) as [k'|] eqn:E.
  - intros [= <-]. destruct (IH k' eq_refl) as [E1 E2].
    split; [|exact E2]. cbn [firstn app]. f_equal. exact E1.
  - destruct (Ascii.eqb_spec x c) as [->|]; [|discriminate].
    intros [= <-]. split; [reflexivity|].
    apply strrchr_none_notin. exact E.
Qed.

Lemma strrchr_app (dir fname : Restore.cstring) (c : ascii) :
  ~ In c fname -> Restore.strrchr (dir ++ c :: fname) c = Some (length dir).
Proof.
  intros Hn. induction dir as [|x dir IH]; simpl.
  - rewrite strrchr_notin_none by assumption. rewrite Ascii.eqb_refl. reflexivity.
  - rewrite IH. reflexivity.
Qed.

(** X13.  [split_path] cuts a path at its last slash: the directory, a
    slash and the file name make up the path again, the file name holds
    no slash, and any directory and slash-free name joined by a slash
    are given back as they were; a path without a slash is a bare file
    name with no directory.  (A path that ends in a slash therefore has
    the empty file name, where basename(1) would answer the last
    component.) *)
Theorem split_path_round_trip :
  (forall dir fname, ~ In "/"%char fname ->
     Restore.split_path (dir ++ "/"%char :: fname) = (Some dir, fname)) /\
  (forall path, ~ In "/"%char path -> Restore.split_path path = (None, path)) /\
  (forall path dir fname,
     Restore.split_path path = (Some dir, fname) ->
     path = dir ++ "/"%char :: fname /\ ~ In "/"%char fname) /\
  (forall path fname,
     Restore.split_path path = (None, fname) ->
     fname = path /\ ~ In "/"%char path).
Proof.
  unfold Restore.split_path. split; [|split; [|split]].
  - intros dir fname Hn. rewrite strrchr_app by assumption.
    rewrite firstn_app_exact by reflexivity.
    replace (dir ++ "/"%char :: fname) with ((dir ++ ["/"%char]) ++ fname)
      by (rewrite <- app_assoc; reflexivity).
    rewrite skipn_app_exact by (rewrite length_app; simpl; lia).
    reflexivity.
  - intros path Hn. rewrite strrchr_notin_none by assumption. reflexivity.
  - intros path dir fname.
    destruct (Restore.strrchr path "/"%char) as [k|] eqn:E; [|discriminate].
    destruct (strrchr_some _ _ _ E) as [E1 E2].
    intros [= <- <-]. split; [exact E1|exact E2].
  - intros path fname.
    destruct (Restore.strrchr path "/"%char) as [k|] eqn:E; [discriminate|].
    intros [= <-]. split; [reflexivity|].
    apply strrchr_none_notin. exact E.
Qed.

Lemma code_inj (x y : ascii) : Restore.code x = Restore.code y -> x = y.
Proof.
  unfold Restore.code. intros E. apply Nat2Z.inj in E.
  rewrite <- (ascii_nat_embedding x), <- (ascii_nat_embedding y), E.
  reflexivity.
Qed.

Lemma strncmp_prefix (p r : Restore.cstring) :
  Restore.strncmp (p ++ r) p (length p) = 0.
Proof.
  induction p as [|x p IH]; simpl; [reflexivity|].
  rewrite Ascii.eqb_refl. exact IH.
Qed.

Lemma strncmp_zero (p s : Restore.cstring) :
  Forall (fun c => Restore.code c <> 0) p ->
  Restore.strncmp s p (length p) = 0 -> s = p ++ skipn (length p) s.
Proof.
  intros Hp. revert s. induction Hp as [|y p Hy Hp IH]; intros s; simpl.
  - reflexivity.
  - destruct s as [|x s]; [lia|].
    destruct (Ascii.eqb_spec x y) as [->|Hne].
    + intros E. f_equal. apply IH. exact E.
    + intros E. exfalso. apply Hne. apply code_inj. lia.
Qed.

Lemma strspn_all (l accept : Restore.cstring) :
  Forall (fun c => existsb (Ascii.eqb c) accept = true) l ->
  Restore.strspn l accept = length l.
Proof.
  induction 1 as [|c l Hc Hl IH]; simpl; [reflexivity|].
  rewrite Hc, IH. reflexivity.
Qed.

Lemma strspn_full (l accept : Restore.cstring) :
  Restore.strspn l accept = length l ->
  Forall (fun c => existsb (Ascii.eqb c) accept = true) l.
Proof.
  induction l as [|c l IH]; simpl; [constructor|].
  destruct (existsb (Ascii.eqb c) accept) eqn:E; [|discriminate].
  intros [= H]. constructor; auto.
Qed.

Lemma accepted_digits_upper_hex (c : ascii) :
  existsb (Ascii.eqb c) Restore.accepted_digits = true <-> Restore.upper_hex c.
Proof.
  rewrite existsb_exists. unfold Restore.upper_hex. split.
  - intros [x [Hin E]]. apply Ascii.eqb_eq in E. subst x.
    cbv [Restore.accepted_digits String.list_ascii_of_string In] in Hin.
    cbv [Restore.hex_digits String.list_ascii_of_string In].
    intuition.
  - intros Hin. exists c. split; [|apply Ascii.eqb_refl].
    cbv [Restore.hex_digits String.list_ascii_of_string In] in Hin.
    cbv [Restore.accepted_digits String.list_ascii_of_string In].
    intuition.
Qed.

Lemma relationdata_no_NUL :
  Forall (fun c => Restore.code c <> 0) Restore.relationdata.
Proof. repeat constructor; discriminate. Qed.

(** X14.  [parse_reldata_filename] accepts exactly the names of the
    form relationdata/BASE_XXXXXXXXXXXXXXXX with sixteen digits out of
    0-9 and A-F (small letters are refused), and then stores BASE,
    whatever it contains. *)
Theorem parse_reldata_filename_spec (path base : Restore.cstring) :
  Restore.parse_reldata_filename path = Some base <->
  exists hex,
    path = Restore.relationdata ++ base ++ "_"%char :: hex /\
    length hex = 16%nat /\ Forall Restore.upper_hex hex.
Proof.
  unfold Restore.parse_reldata_filename. split.
  - destruct (Z.eqb_spec (Restore.strncmp path Restore.relationdata
                            (length Restore.relationdata)) 0) as [E|];
      [|discriminate].
    cbn [negb].
    apply (strncmp_zero _ _ relationdata_no_NUL) in E.
    set (fname := skipn (length Restore.relationdata) path) in *.
    destruct (Nat.ltb_spec (length fname) (1 + 16)) as [|Hlen]; [discriminate|].
    set (k := (length fname - 1 - 16)%nat).
    destruct (skipn k fname) as [|c rest] eqn:Es; [discriminate|].
    destruct (Ascii.eqb_spec c "_"%char) as [->|]; [|discriminate].
    cbn [negb skipn].
    destruct (Nat.eqb_spec (Restore.strspn rest Restore.accepted_digits) 16)
      as [E16|]; [|discriminate].
    cbn [negb]. intros [= <-]. exists rest.
    assert (Lr : length rest = 16%nat).
    { apply (f_equal (@length ascii)) in Es. rewrite length_skipn in Es.
      simpl in Es. lia. }
    split; [|split; [exact Lr|]].
    + rewrite E at 1. f_equal.
      rewrite <- (firstn_skipn k fname) at 1. rewrite Es. reflexivity.
    + rewrite <- Lr in E16. apply strspn_full in E16.
      eapply Forall_impl; [|exact E16].
      intros c. apply accepted_digits_upper_hex.
  - intros (hex & -> & Lh & Hh).
    rewrite strncmp_prefix. cbn [Z.eqb negb].
    rewrite skipn_app_exact by reflexivity.
    assert (Lf : length (base ++ "_"%char :: hex) = (length base + 17)%nat)
      by (rewrite length_app; simpl; lia).
    rewrite Lf.
    destruct (Nat.ltb_spec (length base + 17) (1 + 16)); [lia|].
    replace (length base + 17 - 1 - 16)%nat with (length base) by lia.
    rewrite skipn_app_exact by reflexivity.
    rewrite firstn_app_exact by reflexivity.
    cbn [skipn]. rewrite Ascii.eqb_refl. cbn [negb].
    rewrite strspn_all, Lh; [reflexivity|].
    eapply Forall_impl; [|exact Hh].
    intros c. apply accepted_digits_upper_hex.
Qed.

Lemma consider_below parse endptr latest name :
  fst latest < endptr -> fst (Restore.consider parse endptr latest name) < endptr.
Proof.
  intros H. unfold Restore.consider.
  destruct (parse name) as [ptr|]; [|exact H].
  destruct (Z.ltb_spec ptr endptr); simpl; [|exact H].
  destruct (fst latest <? endptr); simpl; auto.
Qed.

Lemma fold_consider parse endptr filenames latest :
  fst latest < endptr ->
  fold_left (Restore.consider parse endptr) filenames latest
  = last (Restore.candidates parse endptr filenames) latest.
Proof.
  revert latest. induction filenames as [|name rest IH]; intros latest H;
    [reflexivity|].
  cbn [fold_left]. rewrite IH by (apply consider_below; exact H).
  unfold Restore.candidates. cbn [flat_map].
  fold (Restore.candidates parse endptr rest).
  unfold Restore.consider.
  destruct (parse name) as [ptr|]; [|reflexivity].
  destruct (Z.ltb_spec ptr endptr); [|reflexivity].
  replace (fst latest <? endptr) with true by (symmetry; apply Z.ltb_lt; exact H).
  cbn [andb app]. symmetry. apply last_cons.
Qed.

Lemma sorted_last_max (l : list Z) :
  StronglySorted Z.le l -> forall d x, In x l -> x <= last l d.
Proof.
  induction 1 as [|a l Hs IH Ha]; intros d x; [contradiction|].
  rewrite last_cons. intros [<-|Hin].
  - destruct (last_in l a) as [E|Hl]; [rewrite <- E; lia|].
    rewrite Forall_forall in Ha. apply Ha. exact Hl.
  - apply IH. exact Hin.
Qed.

(** X15.  The loop over the listing keeps the LAST tarball whose
    position lies before the end position, not the one with the highest
    position; the two agree when the listing is in ascending order of
    position.  With no tarball before the end position the loop ends
    with the invalid position and no name. *)
Theorem latest_tarball_is_last_listed
        (parse : Restore.cstring -> option Z) (endptr : Z)
        (filenames : list Restore.cstring) :
  InvalidXLogRecPtr < endptr ->
  Restore.latest_tarball parse endptr filenames
  = last (Restore.candidates parse endptr filenames) (InvalidXLogRecPtr, None) /\
  (StronglySorted Z.le (map fst (Restore.candidates parse endptr filenames)) ->
   forall c, In c (Restore.candidates parse endptr filenames) ->
             fst c <= fst (Restore.latest_tarball parse endptr filenames)).
Proof.
  intros Hend.
  assert (E : Restore.latest_tarball parse endptr filenames
              = last (Restore.candidates parse endptr filenames)
                     (InvalidXLogRecPtr, None))
    by (apply fold_consider; exact Hend).
  split; [exact E|].
  intros Hs c Hc. rewrite E.
  set (l := Restore.candidates parse endptr filenames) in *.
  assert (M : forall d, fst (last l d) = last (map fst l) (fst d)).
  { clear. induction l as [|a l IH]; intros d; [reflexivity|].
    cbn [map]. rewrite !last_cons. apply IH. }
  rewrite M. apply sorted_last_max; [exact Hs|].
  apply in_map. exact Hc.
Qed.

Lemma latest_tarball_is_last_listed_witness :
  Restore.latest_tarball (fun name => Some (Z.of_nat (length name))) 4
                         [["c"; "c"; "c"]; ["a"]; ["b"; "b"]]%char
  = last (Restore.candidates (fun name => Some (Z.of_nat (length name))) 4
                             [["c"; "c"; "c"]; ["a"]; ["b"; "b"]]%char)
         (InvalidXLogRecPtr, None) /\
  (StronglySorted Z.le
     (map fst (Restore.candidates (fun name => Some (Z.of_nat (length name))) 4
                                  [["c"; "c"; "c"]; ["a"]; ["b"; "b"]]%char)) ->
   forall c,
     In c (Restore.candidates (fun name => Some (Z.of_nat (length name))) 4
                              [["c"; "c"; "c"]; ["a"]; ["b"; "b"]]%char) ->
     fst c <= fst (Restore.latest_tarball
                     (fun name => Some (Z.of_nat (length name))) 4
                     [["c"; "c"; "c"]; ["a"]; ["b"; "b"]]%char)).
Proof.
  apply (latest_tarball_is_last_listed
           (fun name => Some (Z.of_nat (length name))) 4
           [["c"; "c"; "c"]; ["a"]; ["b"; "b"]]%char).
  reflexivity.
Defined.

(* ================================================================== *)
(** * The list of safekeepers on the command line *)
(* ================================================================== *)

Lemma strchr_append (c : ascii) (a b : String.string) :
  CLI.strchr c a = None ->
  CLI.strchr c (String.append a (String.String c b)) = Some (a, b).
Proof.
  induction a as [|x a IH]; simpl.
  - intros _. rewrite Ascii.eqb_refl. reflexivity.
  - destruct (Ascii.eqb x c); [discriminate|].
    destruct (CLI.strchr c a) as [[u v]|]; [discriminate|].
    intros _. rewrite IH by reflexivity. reflexivity.
Qed.

Lemma string_length_append (a b : String.string) :
  String.length (String.append a b) = (String.length a + String.length b)%nat.
Proof. induction a as [|x a IH]; simpl; [reflexivity|]. rewrite IH. reflexivity. Qed.

Lemma append_colon_not_empty (a b : String.string) :
  String.eqb (String.append a (String.String ":"%char b)) String.EmptyString = false.
Proof. destruct a; reflexivity. Qed.

Lemma parse_safekeepers_done fuel M acc :
  CLI.parse_safekeepers fuel M None acc = inr acc.
Proof. destruct fuel; reflexivity. Qed.

Lemma parse_safekeepers_arg (M : Z) (peers : list (String.string * String.string)) :
  Forall Usage.well_formed peers ->
  forall fuel acc,
    (String.length (Usage.safekeepers_arg peers) < fuel)%nat ->
    Z.of_nat (length acc + length peers) < M ->
    CLI.parse_safekeepers fuel M (Some (Usage.safekeepers_arg peers)) acc
    = inr (acc ++ peers).
Proof.
  induction 1 as [|[host port] rest [Hh Hp] Hrest IH]; intros fuel acc Hfuel Hn.
  - destruct fuel as [|fuel]; [simpl in Hfuel; lia|].
    simpl. rewrite app_nil_r. reflexivity.
  - destruct fuel as [|fuel]; [lia|].
    simpl in Hh, Hp.
    assert (Hroom : (Z.of_nat (length acc) + 1 >=? M) = false).
    { destruct (Z.geb_spec (Z.of_nat (length acc) + 1) M); [|reflexivity].
      simpl in Hn. lia. }
    destruct rest as [|peer rest'].
    + cbn [Usage.safekeepers_arg CLI.parse_safekeepers].
      change (String.append (String.String ":"%char String.EmptyString) port)
        with (String.String ":"%char port).
      rewrite append_colon_not_empty, strchr_append by assumption.
      rewrite Hp, Hroom. apply parse_safekeepers_done.
    + cbn [CLI.parse_safekeepers].
      change (Usage.safekeepers_arg ((host, port) :: peer :: rest'))
        with (String.append host
                (String.String ":"%char
                   (String.append port
                      (String.String ","%char
                         (Usage.safekeepers_arg (peer :: rest')))))).
      change (Usage.safekeepers_arg ((host, port) :: peer :: rest'))
        with (String.append host
                (String.String ":"%char
                   (String.append port
                      (String.String ","%char
                         (Usage.safekeepers_arg (peer :: rest')))))) in Hfuel.
      rewrite append_colon_not_empty, strchr_append by assumption.
      rewrite strchr_append by assumption.
      rewrite Hroom. rewrite IH.
      * rewrite <- app_assoc. reflexivity.
      * rewrite string_length_append in Hfuel. cbn [String.length] in Hfuel.
        rewrite string_length_append in Hfuel. cbn [String.length] in Hfuel.
        lia.
      * rewrite length_app. simpl in *. lia.
Qed.

(** X16.  A list of safekeepers written as [usage] describes it is read
    back as it was written: for host names without colon and ports
    without comma, at least one and fewer than [MAX_SAFEKEEPERS] of
    them, [main] goes on with exactly these pairs, in order, and with
    the majority as quorum. *)
Theorem main_reads_safekeepers (M : Z) (peers : list (String.string * String.string)) :
  Forall Usage.well_formed peers ->
  peers <> [] ->
  Z.of_nat (length peers) < M ->
  CLI.main M (Usage.command_line peers)
  = CLI.Proceeds (Z.quot (Z.of_nat (length peers)) 2 + 1) peers.
Proof.
  intros Hwf Hne Hn.
  unfold CLI.main, Usage.command_line.
  remember (Usage.safekeepers_arg peers) as l eqn:El.
  match goal with
  | |- context [CLI.option_loop ?f ?a ?o] =>
      change (CLI.option_loop f a o)
        with (@inr Z _ (CLI.mkOptions None None None (Some l) 0 0,
                        @nil String.string))
  end.
  cbn [String.eqb Ascii.eqb Bool.eqb orb CLI.safekeepersList].
  subst l.
  rewrite (parse_safekeepers_arg M peers Hwf) by (simpl; lia).
  cbn [app]. unfold CLI.check_quorum.
  destruct (Z.ltb_spec (Z.of_nat (length peers)) 1) as [H1|H1].
  - destruct peers; [contradiction|simpl in H1; lia].
  - reflexivity.
Qed.

Lemma main_reads_safekeepers_witness :
  CLI.main 64 (Usage.command_line Usage.two_peers)
  = CLI.Proceeds (Z.quot (Z.of_nat (length Usage.two_peers)) 2 + 1)
                 Usage.two_peers.
Proof.
  apply (main_reads_safekeepers 64 Usage.two_peers).
  - repeat constructor.
  - discriminate.
  - simpl. lia.
Defined.

(* ================================================================== *)
(** * Runs of the loop, session by session *)
(* ================================================================== *)

Lemma Forall_replace_nth {A} (P : A -> Prop) i x l :
  Forall P l -> P x -> Forall P (replace_nth i x l).
Proof.
  intros Hl Hx. revert i. induction Hl as [|y l Hy Hl IH]; intros [|i]; simpl;
    constructor; auto.
Qed.

Lemma Forall_mapi_from {A} (P : A -> Prop) f k l :
  (forall j x, P x -> P (f j x)) -> Forall P l -> Forall P (mapi_from f k l).
Proof.
  intros Hf Hl. revert k. induction Hl as [|y l Hy Hl IH]; intros k; simpl;
    constructor; auto.
Qed.

Lemma nth_error_mapi_from {A} (f : nat -> A -> A) k l i :
  nth_error (mapi_from f k l) i = option_map (f (k + i)%nat) (nth_error l i).
Proof.
  revert k i. induction l as [|x l IH]; intros k [|i]; simpl; auto.
  - rewrite Nat.add_0_r. reflexivity.
  - rewrite IH. replace (S k + i)%nat with (k + S i)%nat by lia. reflexivity.
Qed.

Section Relations.

Variable K : Constants.

(** A relation between the state before, the state after and the output
    that holds across every handler holds across a pass and a run. *)
Variable R : ProxyState -> ProxyState -> list Output -> Prop.

Hypothesis R_refl : forall s, R s s [].
Hypothesis R_trans : forall s1 s2 s3 o1 o2,
    R s1 s2 o1 -> R s2 s3 o2 -> R s1 s3 (o1 ++ o2).
Hypothesis R_readable : forall e i sk s s' out,
    nth_error (safekeeper s) i = Some sk -> sock sk = true ->
    on_readable K e i sk s = (Running s', out) -> R s s' out.
Hypothesis R_writable : forall e i sk s s' out,
    nth_error (safekeeper s) i = Some sk -> sock sk = true ->
    inWriteSet sk = true ->
    on_writable e i sk s = (Running s', out) -> R s s' out.
Hypothesis R_server : forall copybuf e s,
    serverInReadSet s = true -> R s (on_server K copybuf e s) [].

Lemma for_peers_relation ready idx s s' out :
  for_peers K ready idx s = (Running s', out) -> R s s' out.
Proof.
  revert s s' out. induction idx as [|i idx IH]; simpl; intros s s' out.
  - intros; inv_pair; apply R_refl.
  - destruct (handle_peer K ready i s) as [[s1| |] out1] eqn:Hh; try discriminate.
    destruct (for_peers K ready idx s1) as [o out2] eqn:Hf.
    intros; inv_pair. apply R_trans with s1; [|apply IH; assumption].
    unfold handle_peer in Hh.
    destruct (nth_error (safekeeper s) i) as [sk|] eqn:Hn;
      [|inv_pair; apply R_refl].
    destruct (sock sk) eqn:Hs; cbn [negb] in Hh; [|inv_pair; apply R_refl].
    destruct (ready i) as [[e|e]|]; [eauto| |inv_pair; apply R_refl].
    destruct (inWriteSet sk) eqn:Hw; [eauto|inv_pair; apply R_refl].
Qed.

Lemma iteration_relation ev s s' out :
  iteration K ev s = (Running s', out) -> R s s' out.
Proof.
  unfold iteration.
  destruct (streaming s || _); [|discriminate].
  destruct ev as [|copybuf e|ready]; [discriminate| |].
  - destruct (serverInReadSet s) eqn:E; intros; inv_pair; auto.
  - apply for_peers_relation.
Qed.

Lemma run_relation evs s s' out :
  run K evs s = (Running s', out) -> R s s' out.
Proof.
  revert s s' out. induction evs as [|ev evs IH]; simpl; intros s s' out.
  - intros; inv_pair; apply R_refl.
  - destruct (iteration K ev s) as [[s1| |] out1] eqn:Hh; try discriminate.
    destruct (run K evs s1) as [o out2] eqn:Hf.
    intros; inv_pair. apply R_trans with s1; [|apply IH; assumption].
    eapply iteration_relation. eassumption.
Qed.

End Relations.

Lemma vote_peer_offline e j sk :
  state sk = SS_OFFLINE -> vote_peer e j sk = sk.
Proof. intros H. unfold vote_peer. rewrite H. reflexivity. Qed.

Lemma BroadcastMessage_peer_offline e msg j sk :
  state sk = SS_OFFLINE -> BroadcastMessage_peer e msg j sk = sk.
Proof. intros H. unfold BroadcastMessage_peer. rewrite H. reflexivity. Qed.

(** X17.  A safekeeper that has gone offline is never tried again: as
    long as the loop runs, no handler touches a session in [SS_OFFLINE];
    it is not reconnected, and the [ackPos] it held when the connection
    was lost goes on counting in the quorum position. *)
Theorem offline_session_is_left_alone (K : Constants) (evs : list Event)
        (s s' : ProxyState) (out : list Output) (i : nat) (sk : Safekeeper) :
  nth_error (safekeeper s) i = Some sk ->
  state sk = SS_OFFLINE ->
  run K evs s = (Running s', out) ->
  nth_error (safekeeper s') i = Some sk.
Proof.
  intros Hi Hoff Hrun. revert Hi.
  apply (run_relation K
           (fun s s' _ => nth_error (safekeeper s) i = Some sk ->
                          nth_error (safekeeper s') i = Some sk))
    with (evs := evs) (out := out); auto.
  - intros e j skj s0 s0' out0 Hn Hs Hr Hi.
    destruct (Nat.eqb_spec i j) as [->|Hne].
    + rewrite Hn in Hi. injection Hi as ->.
      unfold on_readable in Hr. rewrite Hoff in Hr. discriminate.
    + apply Nat.eqb_neq in Hne.
      unfold on_readable in Hr. cbv zeta in Hr.
      repeat break_match; try discriminate; inv_pair;
        try match goal with
            | H : HandleSafekeeperResponse _ _ = _ |- _ =>
                apply HandleSafekeeperResponse_safekeeper in H; simpl; rewrite H
            end;
        simpl;
        rewrite ?nth_error_mapi_from, ?nth_error_replace_nth, ?Hne, ?Hi;
        simpl; rewrite ?vote_peer_offline by assumption; reflexivity.
  - intros e j skj s0 s0' out0 Hn Hs Hw Hr Hi.
    destruct (Nat.eqb_spec i j) as [->|Hne].
    + rewrite Hn in Hi. injection Hi as ->.
      unfold on_writable in Hr. rewrite Hoff in Hr. discriminate.
    + apply Nat.eqb_neq in Hne.
      unfold on_writable in Hr. cbv zeta in Hr.
      repeat break_match; try discriminate; inv_pair; simpl;
        rewrite ?nth_error_replace_nth, ?Hne, ?Hi; reflexivity.
  - intros copybuf e s0 _ Hi. unfold on_server.
    repeat break_match; simpl; try assumption.
    rewrite nth_error_mapi_from, Hi. simpl.
    rewrite BroadcastMessage_peer_offline by assumption. reflexivity.
Qed.

Lemma offline_session_is_left_alone_witness :
  nth_error (safekeeper (Outage.after [Outage.handshake; Outage.verdict])) 0
  = Some fresh_safekeeper.
Proof.
  apply (offline_session_is_left_alone Scenario.K
           [Outage.handshake; Outage.verdict] Outage.start2
           (Outage.after [Outage.handshake; Outage.verdict])
           (Outage.output [Outage.handshake; Outage.verdict]) 0 fresh_safekeeper).
  - reflexivity.
  - reflexivity.
  - vm_compute. reflexivity.
Defined.

Lemma Forall_mapi_from2 {A} (P Q : A -> Prop) f k l :
  (forall j x, Q x -> P (f j x)) -> Forall Q l -> Forall P (mapi_from f k l).
Proof.
  intros Hf Hl. revert k. induction Hl as [|y l Hy Hl IH]; intros k; simpl;
    constructor; auto.
Qed.

(* ================================================================== *)
(** * Before the quorum of votes *)
(* ================================================================== *)

Lemma HandleSafekeeperResponse_votes e s ok s' out :
  HandleSafekeeperResponse e s = (ok, s', out) ->
  quorum s' = quorum s /\ n_votes s' = n_votes s.
Proof.
  unfold HandleSafekeeperResponse. repeat break_match; intros; inv_pair; auto.
Qed.

Lemma ack_message_nil a i : ack_message a i [] = None.
Proof. reflexivity. Qed.

Lemma run_before_quorum K evs s s' out :
  (n_votes s < quorum s -> serverInReadSet s = false /\ msgQueue s = []) ->
  run K evs s = (Running s', out) ->
  quorum s' = quorum s /\ n_votes s <= n_votes s' /\
  (n_votes s' < quorum s' ->
   serverInReadSet s' = false /\ msgQueue s' = [] /\ out = []).
Proof.
  intros Hs Hrun. revert Hs.
  apply (run_relation K
           (fun s s' out =>
              (n_votes s < quorum s ->
               serverInReadSet s = false /\ msgQueue s = []) ->
              quorum s' = quorum s /\ n_votes s <= n_votes s' /\
              (n_votes s' < quorum s' ->
               serverInReadSet s' = false /\ msgQueue s' = [] /\ out = [])))
    with (evs := evs) (out := out); auto.
  - intros s0 H. repeat split; try lia; try apply H; assumption.
  - intros s1 s2 s3 o1 o2 H12 H23 H1.
    destruct (H12 H1) as (Q12 & N12 & J2).
    assert (H2 : n_votes s2 < quorum s2 ->
                 serverInReadSet s2 = false /\ msgQueue s2 = [])
      by (intros Hlt; destruct (J2 Hlt) as (? & ? & ?); auto).
    destruct (H23 H2) as (Q23 & N23 & J3).
    split; [congruence|]. split; [lia|].
    intros Hlt. destruct (J3 Hlt) as (A & B & ->).
    destruct (J2 ltac:(lia)) as (_ & _ & ->). auto.
  - intros e j sk s0 s0' out0 Hn Hsock Hr H.
    unfold on_readable in Hr. cbv zeta in Hr.
    destruct (state sk) eqn:E; try discriminate.
    + (* SS_CONNECTING *)
      repeat break_match; try discriminate; inv_pair; simpl;
        (split; [reflexivity|]); (split; [lia|]);
        intros Hlt; destruct (H Hlt); auto.
    + (* SS_HANDSHAKE *)
      repeat break_match; try discriminate; inv_pair; simpl;
        (split; [reflexivity|]); (split; [lia|]);
        intros Hlt; destruct (H Hlt); auto.
    + (* SS_WAIT_VERDICT *)
      unfold StartReplication in Hr.
      repeat break_match; try discriminate; repeat inv_pair; simpl in *;
        (split; [reflexivity|]); (split; [lia|]);
        intros Hlt;
        try (exfalso;
             match goal with
             | Hq : (_ =? _) = true |- _ => apply Z.eqb_eq in Hq; lia
             end);
        destruct (H ltac:(lia)); auto.
    + (* SS_RECV_ACK *)
      destruct (Z_lt_dec (n_votes s0) (quorum s0)) as [Hlt|Hge].
      * destruct (H Hlt) as [Hf Hq]. rewrite Hq in Hr.
        repeat break_match; try discriminate; inv_pair; simpl;
          (split; [reflexivity|]); (split; [lia|]); intros _; auto.
      * repeat break_match; try discriminate; inv_pair;
          try match goal with
              | Hh : HandleSafekeeperResponse _ _ = _ |- _ =>
                  apply HandleSafekeeperResponse_votes in Hh;
                  simpl in Hh; destruct Hh as [Hh1 Hh2]
              end;
          simpl; rewrite ?Hh1, ?Hh2;
          (split; [reflexivity|]); (split; [lia|]); intros Hlt; lia.
  - intros e j sk s0 s0' out0 Hn Hsock Hw Hr H.
    unfold on_writable in Hr. cbv zeta in Hr.
    repeat break_match; try discriminate; inv_pair; simpl;
      (split; [reflexivity|]); (split; [lia|]);
      intros Hlt; destruct (H Hlt); auto.
  - intros copybuf e s0 Hin H.
    assert (Q : quorum (on_server K copybuf e s0) = quorum s0
                /\ n_votes (on_server K copybuf e s0) = n_votes s0).
    { unfold on_server. repeat break_match; simpl; auto. }
    destruct Q as [Q1 Q2]. rewrite Q1, Q2.
    split; [reflexivity|]. split; [lia|].
    intros Hlt. destruct (H Hlt) as [Hf _]. congruence.
Qed.

(** X19.  The proxy takes no WAL from the primary before the quorum has
    voted: while fewer than [quorum] verdicts have come in, the
    primary's socket is not in [readSet], the message queue is empty and
    nothing at all has been sent to the primary, neither
    START_REPLICATION nor feedback. *)
Theorem no_WAL_before_quorum (K : Constants) (q : Z) (n : nat)
        (si : ServerInfo) (junk : NodeId) (conn : nat -> Connect)
        (evs : list Event) (s : ProxyState) (out : list Output) :
  run K evs (BroadcastWalStream_start q n si junk conn) = (Running s, out) ->
  n_votes s < q ->
  quorum s = q /\ serverInReadSet s = false /\ msgQueue s = [] /\ out = [].
Proof.
  intros Hrun Hlt.
  destruct (run_before_quorum K evs (BroadcastWalStream_start q n si junk conn)
              s out (fun _ => conj eq_refl eq_refl) Hrun) as (Q & N & J).
  simpl in Q. split; [exact Q|]. apply J. lia.
Qed.

Lemma no_WAL_before_quorum_witness :
  quorum (Outage.after [Outage.handshake]) = 1 /\
  serverInReadSet (Outage.after [Outage.handshake]) = false /\
  msgQueue (Outage.after [Outage.handshake]) = [] /\
  Outage.output [Outage.handshake] = [].
Proof.
  apply (no_WAL_before_quorum Scenario.K 1 2
           (Scenario.primary 16777216 0) (mkNodeId 0 Scenario.zero_uuid)
           (fun i => match i with O => ConnRefused | _ => ConnEstablished end)
           [Outage.handshake]
           (Outage.after [Outage.handshake])
           (Outage.output [Outage.handshake])).
  - vm_compute. reflexivity.
  - vm_compute. reflexivity.
Defined.

(* ================================================================== *)
(** * A record from the primary *)
(* ================================================================== *)

Lemma length_poke (buf src : list Z) offs :
  (offs + length src <= length buf)%nat -> length (poke buf offs src) = length buf.
Proof.
  intros H. unfold poke. rewrite !length_app, length_firstn, length_skipn. lia.
Qed.

Lemma skipn_poke (buf src : list Z) offs :
  (offs + length src <= length buf)%nat ->
  skipn offs (poke buf offs src) = src ++ skipn (offs + length src) buf.
Proof.
  intros H. unfold poke. apply skipn_app_exact. rewrite length_firstn. lia.
Qed.

Lemma firstn_poke (buf src : list Z) offs :
  (offs + length src <= length buf)%nat ->
  firstn offs (poke buf offs src) = firstn offs buf.
Proof.
  intros H. unfold poke. apply firstn_app_exact. rewrite length_firstn. lia.
Qed.

Lemma skipn_poke_after (buf src : list Z) offs :
  (offs + length src <= length buf)%nat ->
  skipn (offs + length src) (poke buf offs src) = skipn (offs + length src) buf.
Proof.
  intros H. unfold poke. rewrite app_assoc. apply skipn_app_exact.
  rewrite length_app, length_firstn. lia.
Qed.

(** X20.  A 'w' record from the primary is queued once, unacknowledged,
    with the start position read from its header; the proxy overwrites
    the eight bytes at [XLOG_HDR_END_POS] and nothing else, and what it
    writes there decodes to start position plus length minus
    [XLOG_HDR_SIZE] (modulo 2^64), the end of the record that a
    safekeeper is to acknowledge. *)
Theorem on_server_stamps_walEnd (K : Constants) (e : Env) (s : ProxyState)
        (rest : list Z) :
  let buf := 119 :: rest in
  (XLOG_HDR_END_POS K + 8 <= length buf)%nat ->
  exists m,
    msgQueue (on_server K (Some buf) e s) = msgQueue s ++ [m] /\
    size m = Z.of_nat (length buf) /\
    walPos m = fe_recvint64 (skipn (XLOG_HDR_START_POS K) buf) /\
    ackMask m = 0 /\
    length (data m) = length buf /\
    fe_recvint64 (skipn (XLOG_HDR_END_POS K) (data m)) = msg_walEnd K m /\
    firstn (XLOG_HDR_END_POS K) (data m) = firstn (XLOG_HDR_END_POS K) buf /\
    skipn (XLOG_HDR_END_POS K + 8) (data m) = skipn (XLOG_HDR_END_POS K + 8) buf.
Proof.
  intros buf Hlen.
  set (pos := fe_recvint64 (skipn (XLOG_HDR_START_POS K) buf)).
  set (v := uint64 (pos + Z.of_nat (length buf) - XLOG_HDR_SIZE K)).
  assert (L8 : length (fe_sendint64 v) = 8%nat) by apply be_bytes_length.
  assert (Hv : 0 <= v < 2 ^ 64) by (apply Z.mod_pos_bound; lia).
  exists (mkWalMessage (nextAddr s) (poke buf (XLOG_HDR_END_POS K) (fe_sendint64 v))
                       (Z.of_nat (length buf)) pos 0).
  cbn [size walPos ackMask data].
  split; [reflexivity|]. split; [reflexivity|]. split; [reflexivity|].
  split; [reflexivity|].
  split; [apply length_poke; rewrite L8; exact Hlen|].
  split.
  - rewrite skipn_poke by (rewrite L8; exact Hlen).
    rewrite fe_recvint64_app by exact Hv. reflexivity.
  - split.
    + apply firstn_poke. rewrite L8. exact Hlen.
    + rewrite <- L8. apply skipn_poke_after. rewrite L8. exact Hlen.
Qed.

Lemma on_server_stamps_walEnd_witness :
  let buf := 119 :: skipn 1 Scenario.wal_frame in
  exists m,
    msgQueue (on_server Scenario.K (Some buf) Scenario.quiet Scenario.one_busy)
    = msgQueue Scenario.one_busy ++ [m] /\
    size m = Z.of_nat (length buf) /\
    walPos m = fe_recvint64 (skipn (XLOG_HDR_START_POS Scenario.K) buf) /\
    ackMask m = 0 /\
    length (data m) = length buf /\
    fe_recvint64 (skipn (XLOG_HDR_END_POS Scenario.K) (data m))
    = msg_walEnd Scenario.K m /\
    firstn (XLOG_HDR_END_POS Scenario.K) (data m)
    = firstn (XLOG_HDR_END_POS Scenario.K) buf /\
    skipn (XLOG_HDR_END_POS Scenario.K + 8) (data m)
    = skipn (XLOG_HDR_END_POS Scenario.K + 8) buf.
Proof.
  apply (on_server_stamps_walEnd Scenario.K Scenario.quiet Scenario.one_busy
                                  (skipn 1 Scenario.wal_frame)).
  simpl. lia.
Defined.

(* ================================================================== *)
(** * The position a quorum has confirmed *)
(* ================================================================== *)

(** X21.  What [GetAcknowledgedWALPosition] returns is a rank statistic:
    at least N - Q + 1 safekeepers have confirmed it and at most N - Q
    have confirmed anything beyond it.  When the number of safekeepers
    is odd and the quorum is the majority (N = 2Q - 1, what [main]
    derives for an odd N), that is exactly the highest position a
    quorum has confirmed. *)
Theorem quorum_position_is_a_rank (s : ProxyState) :
  1 <= quorum s <= n_safekeepers s ->
  n_safekeepers s - quorum s + 1 <= confirmations s (GetAcknowledgedWALPosition s) /\
  (forall lsn, GetAcknowledgedWALPosition s < lsn ->
               confirmations s lsn <= n_safekeepers s - quorum s) /\
  (n_safekeepers s = 2 * quorum s - 1 ->
   quorum s <= confirmations s (GetAcknowledgedWALPosition s) /\
   forall lsn, GetAcknowledgedWALPosition s < lsn ->
               confirmations s lsn < quorum s).
Proof.
  intros Hq.
  destruct (GetAcknowledgedWALPosition_rank s Hq) as (_ & _ & _ & Hlow).
  assert (Hhigh : forall lsn, GetAcknowledgedWALPosition s < lsn ->
                    confirmations s lsn <= n_safekeepers s - quorum s).
  { intros lsn Hl.
    destruct (Z_le_gt_dec (confirmations s lsn) (n_safekeepers s - quorum s))
      as [|Hgt]; [assumption|exfalso].
    unfold confirmations, GetAcknowledgedWALPosition, n_safekeepers in *.
    set (l := map ackPos (safekeeper s)) in *.
    set (k := Z.to_nat (Z.of_nat (length (safekeeper s)) - quorum s)) in *.
    rewrite (filter_map_length ackPos (fun x => lsn <=? x)) in Hgt. fold l in Hgt.
    rewrite <- (count_ge_perm _ _ _ (qsort_perm CompareLsn l)) in Hgt.
    assert (Hk : (k < length (filter (fun x => (lsn <=? x)%Z) (qsort CompareLsn l)))%nat)
      by (unfold k; lia).
    pose proof (count_ge_nth lsn _ k (qsort_descending l) Hk). lia. }
  split; [exact Hlow|]. split; [exact Hhigh|].
  intros Hodd. split; [lia|].
  intros lsn Hl. specialize (Hhigh lsn Hl). lia.
Qed.

Lemma quorum_position_is_a_rank_witness :
  n_safekeepers Scenario.two_peers - quorum Scenario.two_peers + 1
  <= confirmations Scenario.two_peers
       (GetAcknowledgedWALPosition Scenario.two_peers) /\
  (forall lsn, GetAcknowledgedWALPosition Scenario.two_peers < lsn ->
               confirmations Scenario.two_peers lsn
               <= n_safekeepers Scenario.two_peers - quorum Scenario.two_peers) /\
  (n_safekeepers Scenario.two_peers = 2 * quorum Scenario.two_peers - 1 ->
   quorum Scenario.two_peers
   <= confirmations Scenario.two_peers
        (GetAcknowledgedWALPosition Scenario.two_peers) /\
   forall lsn, GetAcknowledgedWALPosition Scenario.two_peers < lsn ->
               confirmations Scenario.two_peers lsn < quorum Scenario.two_peers).
Proof.
  apply (quorum_position_is_a_rank Scenario.two_peers).
  vm_compute. split; intros H; discriminate H.
Defined.

(* ================================================================== *)
(** * Releasing acknowledged records *)
(* ================================================================== *)




(* ================================================================== *)
(** * The status update *)
(* ================================================================== *)

Lemma skipn_fe_sendint64 (v : Z) (rest : list Z) (n : nat) :
  skipn (S (S (S (S (S (S (S (S n)))))))) (fe_sendint64 v ++ rest) = skipn n rest.
Proof.
  rewrite skipn_app.
  rewrite skipn_all2 by (unfold fe_sendint64; rewrite be_bytes_length; lia).
  unfold fe_sendint64. rewrite be_bytes_length.
  replace (S (S (S (S (S (S (S (S n))))))) - 8)%nat with n by lia.
  reflexivity.
Qed.

Lemma nth_fe_sendint64 (v : Z) (rest : list Z) (n : nat) (d : Z) :
  nth (S (S (S (S (S (S (S (S n)))))))) (fe_sendint64 v ++ rest) d = nth n rest d.
Proof.
  rewrite app_nth2 by (unfold fe_sendint64; rewrite be_bytes_length; lia).
  unfold fe_sendint64. rewrite be_bytes_length.
  replace (S (S (S (S (S (S (S (S n))))))) - 8)%nat with n by lia.
  reflexivity.
Qed.

(** X23.  The buffer [SendFeedback] hands to [PQputCopyData] is a
    Standby Status Update that reads back as it was meant: 'r', the
    position as both write and flush position, the invalid position as
    apply position, the send time, and the reply flag, in 34 bytes. *)
Theorem SendFeedback_decodes (blockpos now_ : Z) (replyRequested : bool) :
  0 <= blockpos < 2 ^ 64 ->
  0 <= now_ < 2 ^ 64 ->
  let replybuf := SendFeedback blockpos now_ replyRequested in
  length replybuf = 34%nat /\
  nth 0 replybuf 0 = 114 /\
  fe_recvint64 (skipn 1 replybuf) = blockpos /\
  fe_recvint64 (skipn 9 replybuf) = blockpos /\
  fe_recvint64 (skipn 17 replybuf) = InvalidXLogRecPtr /\
  fe_recvint64 (skipn 25 replybuf) = now_ /\
  nth 33 replybuf 0 = (if replyRequested then 1 else 0).
Proof.
  intros Hb Hn replybuf. unfold replybuf.
  split; [apply SendFeedback_length|].
  unfold SendFeedback. cbn [app].
  change (skipn 1 (114 :: ?l)) with l.
  change (skipn 9 (114 :: ?l)) with (skipn 8 l).
  change (skipn 17 (114 :: ?l)) with (skipn 16 l).
  change (skipn 25 (114 :: ?l)) with (skipn 24 l).
  change (nth 33 (114 :: ?l) 0) with (nth 32 l 0).
  change (nth 0 (114 :: ?l) 0) with 114.
  rewrite !skipn_fe_sendint64, !nth_fe_sendint64. cbn [skipn nth].
  split; [reflexivity|].
  split; [apply fe_recvint64_app; exact Hb|].
  split; [apply fe_recvint64_app; exact Hb|].
  split; [apply fe_recvint64_app; unfold InvalidXLogRecPtr; lia|].
  split; [apply fe_recvint64_app; exact Hn|].
  reflexivity.
Qed.

Lemma SendFeedback_decodes_witness :
  let replybuf := SendFeedback 256 7 false in
  length replybuf = 34%nat /\
  nth 0 replybuf 0 = 114 /\
  fe_recvint64 (skipn 1 replybuf) = 256 /\
  fe_recvint64 (skipn 9 replybuf) = 256 /\
  fe_recvint64 (skipn 17 replybuf) = InvalidXLogRecPtr /\
  fe_recvint64 (skipn 25 replybuf) = 7 /\
  nth 33 replybuf 0 = (if false then 1 else 0).
Proof.
  apply (SendFeedback_decodes 256 7 false); lia.
Defined.

(* ================================================================== *)
(** * The start of replication *)
(* ================================================================== *)

Lemma start_replications_app o1 o2 :
  start_replications (o1 ++ o2) = (start_replications o1 + start_replications o2)%nat.
Proof.
  induction o1 as [|[? ?|? ?] o1 IH]; simpl; auto.
Qed.

Lemma HandleSafekeeperResponse_no_start e s ok s' out :
  HandleSafekeeperResponse e s = (ok, s', out) -> start_replications out = O.
Proof.
  unfold HandleSafekeeperResponse. repeat break_match; intros; inv_pair; reflexivity.
Qed.

Lemma run_start_replications K evs s s' out :
  run K evs s = (Running s', out) ->
  quorum s' = quorum s /\ n_votes s <= n_votes s' /\
  (start_replications out <= 1)%nat /\
  ((1 <= start_replications out)%nat ->
   n_votes s < quorum s /\ quorum s <= n_votes s').
Proof.
  apply (run_relation K
           (fun s s' out =>
              quorum s' = quorum s /\ n_votes s <= n_votes s' /\
              (start_replications out <= 1)%nat /\
              ((1 <= start_replications out)%nat ->
               n_votes s < quorum s /\ quorum s <= n_votes s'))).
  - intros s0. simpl. repeat split; lia.
  - intros s1 s2 s3 o1 o2 (Q12 & N12 & L1 & S1) (Q23 & N23 & L2 & S2).
    rewrite start_replications_app.
    split; [congruence|]. split; [lia|].
    destruct (start_replications o1) as [|k1], (start_replications o2) as [|k2];
      simpl.
    + split; [lia|]. lia.
    + split; [lia|]. intros _. destruct (S2 ltac:(lia)). lia.
    + split; [lia|]. intros _. destruct (S1 ltac:(lia)). lia.
    + exfalso. destruct (S1 ltac:(lia)), (S2 ltac:(lia)). lia.
  - intros e j sk s0 s0' out0 Hn Hsock Hr.
    unfold on_readable in Hr. cbv zeta in Hr.
    destruct (state sk) eqn:E; try discriminate.
    + repeat break_match; try discriminate; inv_pair; simpl;
        repeat split; lia.
    + repeat break_match; try discriminate; inv_pair; simpl;
        repeat split; lia.
    + unfold StartReplication in Hr.
      repeat break_match; try discriminate; repeat inv_pair; simpl in *;
        try match goal with
            | Hq : (_ =? _) = true |- _ => apply Z.eqb_eq in Hq
            end;
        repeat split; lia.
    + repeat break_match; try discriminate; inv_pair;
        try match goal with
            | Hh : HandleSafekeeperResponse _ _ = _ |- _ =>
                pose proof (HandleSafekeeperResponse_no_start _ _ _ _ _ Hh) as Hz;
                apply HandleSafekeeperResponse_votes in Hh;
                simpl in Hh; destruct Hh as [Hh1 Hh2]
            end;
        simpl; rewrite ?Hh1, ?Hh2, ?Hz; repeat split; lia.
  - intros e j sk s0 s0' out0 Hn Hsock Hw Hr.
    unfold on_writable in Hr. cbv zeta in Hr.
    repeat break_match; try discriminate; inv_pair; simpl; repeat split; lia.
  - intros copybuf e s0 _.
    assert (Q : quorum (on_server K copybuf e s0) = quorum s0
                /\ n_votes (on_server K copybuf e s0) = n_votes s0).
    { unfold on_server. repeat break_match; simpl; auto. }
    destruct Q as [Q1 Q2]. rewrite Q1, Q2. simpl. repeat split; lia.
Qed.

(** X24.  START_REPLICATION is sent at most once in a run of the loop,
    from whatever state: it is sent by the pass in which the count of
    verdicts reaches the quorum and never after, so that a safekeeper
    voting late does not restart the stream. *)
Theorem START_REPLICATION_at_most_once (K : Constants) (evs : list Event)
        (s s' : ProxyState) (out : list Output) :
  run K evs s = (Running s', out) ->
  (start_replications out <= 1)%nat /\
  (start_replications out = 1%nat -> n_votes s < quorum s <= n_votes s') /\
  (quorum s <= n_votes s -> start_replications out = 0%nat).
Proof.
  intros Hrun.
  destruct (run_start_replications K evs s s' out Hrun) as (Q & N & L & S1).
  split; [exact L|]. split.
  - intros E. destruct (S1 ltac:(lia)). lia.
  - intros Hge. destruct (start_replications out) as [|k]; [reflexivity|].
    destruct (S1 ltac:(lia)). lia.
Qed.

Lemma START_REPLICATION_at_most_once_witness :
  (start_replications (Outage.output [Outage.handshake; Outage.verdict]) <= 1)%nat /\
  (start_replications (Outage.output [Outage.handshake; Outage.verdict]) = 1%nat ->
   n_votes Outage.start2 < quorum Outage.start2
   <= n_votes (Outage.after [Outage.handshake; Outage.verdict])) /\
  (quorum Outage.start2 <= n_votes Outage.start2 ->
   start_replications (Outage.output [Outage.handshake; Outage.verdict]) = 0%nat).
Proof.
  apply (START_REPLICATION_at_most_once Scenario.K
           [Outage.handshake; Outage.verdict] Outage.start2
           (Outage.after [Outage.handshake; Outage.verdict])
           (Outage.output [Outage.handshake; Outage.verdict])).
  vm_compute. reflexivity.
Defined.

(* ================================================================== *)
(** * One record in flight *)
(* ================================================================== *)

Lemma ResetConnection_not_idle c sk : state (ResetConnection c sk) <> SS_IDLE.
Proof.
  revert sk. induction c as [| | |c IH]; intros sk; cbn [ResetConnection];
    destruct (SafekeeperState_eqb (state sk) SS_OFFLINE) eqn:E;
    try apply IH; simpl; try discriminate;
    destruct (state sk); try discriminate; simpl in E; discriminate.
Qed.

Lemma BroadcastMessage_peer_not_idle e msg j sk :
  state (BroadcastMessage_peer e msg j sk) <> SS_IDLE.
Proof.
  unfold BroadcastMessage_peer.
  destruct (state sk) eqn:E; cbn [SafekeeperState_eqb];
    try (rewrite E; discriminate).
  cbv zeta. repeat break_match; simpl; try discriminate.
  apply ResetConnection_not_idle.
Qed.

Lemma mapi_from_id {A} (f : nat -> A -> A) (P : A -> Prop) k l :
  (forall j x, P x -> f j x = x) -> Forall P l -> mapi_from f k l = l.
Proof.
  intros Hf Hl. revert k. induction Hl as [|x l Hx Hl IH]; intros k; simpl;
    [reflexivity|].
  rewrite Hf, IH by assumption. reflexivity.
Qed.

(** X25.  The proxy keeps one record in flight per safekeeper and does
    not queue behind it: [BroadcastMessage] leaves no session idle, so a
    record that arrives from the primary right after another is put on
    the queue but written to no safekeeper, and every session is left
    as the first record left it. *)
Theorem second_record_reaches_nobody (K : Constants) (e1 e2 : Env)
        (s : ProxyState) (rest1 rest2 : list Z) :
  let s1 := on_server K (Some (119 :: rest1)) e1 s in
  let s2 := on_server K (Some (119 :: rest2)) e2 s1 in
  Forall (fun sk => state sk <> SS_IDLE) (safekeeper s1) /\
  safekeeper s2 = safekeeper s1 /\
  length (msgQueue s2) = (length (msgQueue s) + 2)%nat.
Proof.
  intros s1 s2.
  assert (H1 : Forall (fun sk => state sk <> SS_IDLE) (safekeeper s1)).
  { unfold s1, on_server. cbn [Z.eqb Pos.eqb]. cbv zeta.
    unfold BroadcastMessage. cbn [safekeeper with_safekeeper].
    apply (Forall_mapi_from2 _ (fun _ => True)).
    - intros j x _. apply BroadcastMessage_peer_not_idle.
    - apply Forall_forall. auto. }
  split; [exact H1|]. split.
  - unfold s2, on_server. cbn [Z.eqb Pos.eqb]. cbv zeta.
    unfold BroadcastMessage at 1. cbn [safekeeper with_safekeeper with_nextAddr with_msgQueue].
    apply (mapi_from_id _ (fun sk => state sk <> SS_IDLE)); [|exact H1].
    intros j x Hx. unfold BroadcastMessage_peer.
    destruct (state x); try reflexivity. contradiction.
  - unfold s2, s1, on_server. cbn [Z.eqb Pos.eqb]. cbv zeta.
    unfold BroadcastMessage. cbn [msgQueue with_safekeeper with_nextAddr with_msgQueue].
    rewrite !length_app. simpl. lia.
Qed.

(* ================================================================== *)
(** * Partial reads *)
(* ================================================================== *)

Lemma ReadSocketAsync_rc (size : nat) (r : Recv) :
  fst (ReadSocketAsync size r) = -1 \/
  0 <= fst (ReadSocketAsync size r) <= Z.of_nat size.
Proof.
  unfold ReadSocketAsync.
  destruct (Nat.leb_spec size (length (avail r))); simpl; [lia|].
  destruct (err r); simpl; [auto|lia].
Qed.

Lemma ResetConnection_in_bounds K c sk :
  0 < sizeof_info K -> read_offset_in_bounds K (ResetConnection c sk).
Proof.
  intros HK. revert sk. induction c as [| | |c IH]; intros sk;
    cbn [ResetConnection]; try apply IH;
    destruct (state sk) eqn:E; cbn [SafekeeperState_eqb];
    unfold read_offset_in_bounds; simpl; rewrite ?E; simpl; auto; lia.
Qed.

Lemma vote_peer_in_bounds K e j sk :
  0 < sizeof_info K ->
  read_offset_in_bounds K sk -> read_offset_in_bounds K (vote_peer e j sk).
Proof.
  intros HK Hc. unfold vote_peer.
  destruct (state sk) eqn:E; cbn [SafekeeperState_eqb]; try assumption.
  destruct (wr_ok e j); [|apply ResetConnection_in_bounds; assumption].
  unfold read_offset_in_bounds, sizeof_NodeId. simpl. lia.
Qed.

Lemma BroadcastMessage_peer_in_bounds K e msg j sk :
  0 < sizeof_info K ->
  read_offset_in_bounds K sk ->
  read_offset_in_bounds K (BroadcastMessage_peer e msg j sk).
Proof.
  intros HK Hc. unfold BroadcastMessage_peer.
  destruct (state sk) eqn:E; cbn [SafekeeperState_eqb]; try assumption.
  cbv zeta. repeat break_match;
    try (apply ResetConnection_in_bounds; assumption);
    unfold read_offset_in_bounds; simpl; lia.
Qed.

Ltac in_bounds HK :=
  repeat match goal with
         | H : (_ =? _) = false |- _ => apply Z.eqb_neq in H
         | H : (_ <? _) = false |- _ => apply Z.ltb_ge in H
         end;
  first [ apply ResetConnection_in_bounds; exact HK
        | unfold read_offset_in_bounds, sizeof_NodeId in *;
          cbn [state asyncOffs sock inWriteSet info ackPos currMsg
               set_state set_asyncOffs set_sock set_inWriteSet set_info
               set_ackPos] in *;
          repeat match goal with
                 | E : state ?sk = _ |- context [state ?sk] => rewrite E
                 end;
          lia ].

Lemma run_in_bounds K evs s s' out :
  0 < sizeof_info K ->
  Forall (read_offset_in_bounds K) (safekeeper s) ->
  run K evs s = (Running s', out) ->
  Forall (read_offset_in_bounds K) (safekeeper s').
Proof.
  intros HK Hs Hrun. revert Hs.
  apply (run_relation K
           (fun s s' _ => Forall (read_offset_in_bounds K) (safekeeper s) ->
                          Forall (read_offset_in_bounds K) (safekeeper s')))
    with (evs := evs) (out := out); auto.
  - intros e j sk s0 s0' out0 Hn Hsock Hr Hall.
    pose proof (Forall_nth_error _ _ _ _ Hall Hn) as Hc.
    unfold on_readable in Hr. cbv zeta in Hr.
    unfold read_offset_in_bounds in Hc.
    destruct (state sk) eqn:E; try discriminate.
    + (* SS_CONNECTING *)
      repeat break_match; try discriminate; inv_pair; simpl;
        (apply Forall_replace_nth; [assumption|]);
        first [ apply ResetConnection_in_bounds; exact HK
              | unfold read_offset_in_bounds; simpl; lia ].
    + (* SS_HANDSHAKE *)
      pose proof (ReadSocketAsync_rc (Z.to_nat (sizeof_info K - asyncOffs sk)) (rd e)) as B.
      set (rc := fst (ReadSocketAsync _ _)) in *.
      repeat break_match; try discriminate; inv_pair; simpl;
        try (apply (Forall_mapi_from2 (read_offset_in_bounds K)
                                      (read_offset_in_bounds K));
             [intros; apply vote_peer_in_bounds; assumption|]);
        (apply Forall_replace_nth; [assumption|]);
        in_bounds HK.
    + (* SS_WAIT_VERDICT *)
      pose proof (ReadSocketAsync_rc (Z.to_nat (sizeof_NodeId - asyncOffs sk)) (rd e)) as B.
      set (rc := fst (ReadSocketAsync _ _)) in *.
      unfold StartReplication in Hr.
      repeat break_match; try discriminate; repeat inv_pair; simpl;
        (apply Forall_replace_nth; [assumption|]);
        in_bounds HK.
    + (* SS_RECV_ACK *)
      pose proof (ReadSocketAsync_rc (Z.to_nat (8 - asyncOffs sk)) (rd e)) as B.
      destruct (ReadSocketAsync (Z.to_nat (8 - asyncOffs sk)) (rd e)) as [rc bytes].
      cbn [fst] in B.
      repeat break_match; try discriminate; inv_pair;
        try match goal with
            | H : HandleSafekeeperResponse _ _ = _ |- _ =>
                apply HandleSafekeeperResponse_safekeeper in H; simpl; rewrite H
            end;
        simpl;
        (apply Forall_replace_nth; [assumption|]);
        in_bounds HK.
  - intros e j sk s0 s0' out0 Hn Hsock Hw Hr Hall.
    pose proof (Forall_nth_error _ _ _ _ Hall Hn) as Hc.
    unfold on_writable in Hr. cbv zeta in Hr.
    destruct (state sk) eqn:E; try discriminate;
      repeat break_match; try discriminate; inv_pair; simpl;
      (apply Forall_replace_nth; [assumption|]);
      in_bounds HK.
  - intros copybuf e s0 _ Hall. unfold on_server.
    repeat break_match; simpl; try assumption.
    apply (Forall_mapi_from2 (read_offset_in_bounds K) (read_offset_in_bounds K));
      [intros; apply BroadcastMessage_peer_in_bounds; assumption|assumption].
Qed.

(** X26.  Partial reads stay inside the field they fill.  Along every
    run from the start of [BroadcastWalStream], a session that is
    reading a handshake record, a verdict or an acknowledgement has
    [asyncOffs] between 0 and the size of that field, short of it by at
    least one byte; so each [ReadSocketAsync] of the loop is given an
    address inside the field and asks for exactly the bytes that are
    missing. *)
Theorem partial_reads_stay_in_bounds (K : Constants) (q : Z) (n : nat)
        (si : ServerInfo) (junk : NodeId) (conn : nat -> Connect)
        (evs : list Event) (s : ProxyState) (out : list Output) :
  0 < sizeof_info K ->
  run K evs (BroadcastWalStream_start q n si junk conn) = (Running s, out) ->
  Forall (read_offset_in_bounds K) (safekeeper s).
Proof.
  intros HK Hrun. eapply run_in_bounds; [exact HK| |exact Hrun].
  simpl.
  apply (Forall_mapi_from2 (read_offset_in_bounds K) (fun _ => True)).
  - intros j x _. apply ResetConnection_in_bounds. exact HK.
  - apply Forall_forall. auto.
Qed.

Lemma partial_reads_stay_in_bounds_witness :
  Forall (read_offset_in_bounds Scenario.K)
         (safekeeper (Outage.after [Outage.handshake; Outage.verdict])).
Proof.
  apply (partial_reads_stay_in_bounds Scenario.K 1 2
           (Scenario.primary 16777216 0) (mkNodeId 0 Scenario.zero_uuid)
           (fun i => match i with O => ConnRefused | _ => ConnEstablished end)
           [Outage.handshake; Outage.verdict]
           (Outage.after [Outage.handshake; Outage.verdict])
           (Outage.output [Outage.handshake; Outage.verdict])).
  - reflexivity.
  - vm_compute. reflexivity.
Defined.

(* ================================================================== *)
(** * The comparator of the responses *)
(* ================================================================== *)

(** X27.  [CompareLsn] is a proper comparator for [qsort] and orders the
    higher position first: it is antisymmetric, answers 0 exactly on
    equal positions and a negative number exactly when its first
    argument is the higher one; sorting with it gives the same
    positions in descending order. *)
Theorem CompareLsn_orders_highest_first :
  (forall a b, CompareLsn a b = - CompareLsn b a) /\
  (forall a b, CompareLsn a b = 0 <-> a = b) /\
  (forall a b, CompareLsn a b < 0 <-> b < a) /\
  (forall a b c, CompareLsn a b <= 0 -> CompareLsn b c <= 0 -> CompareLsn a c <= 0) /\
  (forall l, descending (qsort CompareLsn l) /\ Permutation (qsort CompareLsn l) l).
Proof.
  assert (C : forall a b,
             (b < a /\ CompareLsn a b = -1) \/
             (a = b /\ CompareLsn a b = 0) \/
             (a < b /\ CompareLsn a b = 1)).
  { intros a b. unfold CompareLsn.
    destruct (Z.gtb_spec a b); [left; split; [lia|reflexivity]|].
    destruct (Z.eqb_spec a b); [right; left; auto|].
    right; right. split; [lia|reflexivity]. }
  split; [|split; [|split; [|split]]].
  - intros a b. destruct (C a b) as [[? ->]|[[? ->]|[? ->]]],
                         (C b a) as [[? ->]|[[? ->]|[? ->]]]; lia.
  - intros a b. destruct (C a b) as [[? ->]|[[? ->]|[? ->]]]; split; lia.
  - intros a b. destruct (C a b) as [[? ->]|[[? ->]|[? ->]]]; split; lia.
  - intros a b c.
    destruct (C a b) as [[? ->]|[[? ->]|[? ->]]],
             (C b c) as [[? ->]|[[? ->]|[? ->]]],
             (C a c) as [[? ->]|[[? ->]|[? ->]]]; lia.
  - intros l. split; [apply qsort_descending|apply qsort_perm].
Qed.

(* ================================================================== *)
(** * Connecting to a safekeeper *)
(* ================================================================== *)

Lemma connect_loop_last_fails pre fd sock closed :
  forallb no_connection pre = true ->
  let r := connect_loop (pre ++ [ConnectFail fd]) sock closed in
  conn_sock r = fd /\ conn_established r = None /\ In fd (conn_closed r).
Proof.
  revert sock closed. induction pre as [|a pre IH]; intros sock closed H.
  - simpl. auto.
  - simpl in H. apply andb_true_iff in H. destruct H as [Ha H].
    destruct a; try discriminate; simpl; apply IH; exact H.
Qed.

(** X28.  When the name resolves and no address gives a connection, the
    last of them failing in [connect], [ConnectSocketAsync] returns the
    number of that address's descriptor, which it has closed, and
    stores nothing through [established]. *)
Theorem ConnectSocketAsync_returns_closed_descriptor
        (pre : list AddrOutcome) (fd : Z) :
  forallb no_connection pre = true ->
  let r := ConnectSocketAsync (Some (pre ++ [ConnectFail fd])) in
  conn_sock r = fd /\ conn_established r = None /\ In fd (conn_closed r).
Proof.
  intros H. unfold ConnectSocketAsync.
  destruct (pre ++ [ConnectFail fd]) as [|a l] eqn:E.
  - destruct pre; discriminate.
  - rewrite <- E. apply connect_loop_last_fails. exact H.
Qed.

Lemma ConnectSocketAsync_returns_closed_descriptor_witness :
  let r := ConnectSocketAsync (Some ([NoSocket; OptionsFail 7] ++ [ConnectFail 8])) in
  conn_sock r = 8 /\ conn_established r = None /\ In 8 (conn_closed r).
Proof.
  apply (ConnectSocketAsync_returns_closed_descriptor [NoSocket; OptionsFail 7] 8).
  reflexivity.
Defined.
